(** * scan-locks.js: the dependency extraction engine

    A shallow embedding of [src/scan-locks.js]: the three parsers
    ([extractFromNpmLock], [extractFromYarnLockV1], [extractFromPackageJson]),
    [selectorToPkgName], [dedupeRows] and the sort of [main]; then
    [collectFiles], the loops of [main] over the roots and the files,
    [printMarkdownTable] and [shortenPath], over a host that stands for
    the file system, [JSON.parse] and the console.

    Conventions of the embedding.
    - A JavaScript string is the sequence of its code units; a [string] of
      this development holds the code units below 256.
    - A JavaScript number is never computed with: the program only tests it
      for truthiness and converts it to text.  A number is carried as the
      text [ToString] gives for it ("0" for both zeros, "NaN").
    - An object is the list of its own enumerable properties, in the order
      [Object.keys] lists them.
    - An operation that can raise a [TypeError] returns a [result]. *)

From Stdlib Require Import String Ascii List ZArith Lia Bool Arith.
From Stdlib Require Import Permutation Sorted DecimalString.
From Equations Require Import Equations.
From Equations.Prop Require Import Logic.
Import ListNotations.

Local Open Scope string_scope.
Local Open Scope list_scope.

Set Warnings "-register-all".

(* ===================================================================== *)
(** ** Exceptions *)
(* ===================================================================== *)

Inductive exn : Type :=
| TypeError (msg : string).

Inductive result (A : Type) : Type :=
| Ok (a : A)
| Throw (e : exn).

Arguments Ok {A} a.
Arguments Throw {A} e.

Definition bind {A B : Type} (c : result A) (k : A -> result B) : result B :=
  match c with
  | Ok a => k a
  | Throw e => Throw e
  end.

Notation "x <- c ;; k" := (bind c (fun x => k))
  (at level 61, c at next level, right associativity).
Notation "' p <- c ;; k" := (bind c (fun x => let 'p := x in k))
  (at level 61, p pattern, c at next level, right associativity).

(** A [for (const x of xs) body] loop over a state [S]. *)
Fixpoint forOf {A S : Type} (xs : list A) (body : A -> S -> result S) (s : S)
  : result S :=
  match xs with
  | [] => Ok s
  | x :: rest => s' <- body x s ;; forOf rest body s'
  end.

(** What a caller that catches the exception is left with. *)
Definition emitted {A : Type} (r : result (list A)) : list A :=
  match r with
  | Ok rows => rows
  | Throw _ => []
  end.

(* ===================================================================== *)
(** ** Strings *)
(* ===================================================================== *)

Module Str.

Definition quote : ascii := ascii_of_nat 34.
Definition colon : ascii := ":"%char.
Definition comma : ascii := ","%char.
Definition slash : ascii := "/"%char.
Definition atSign : ascii := "@"%char.
Definition newline : ascii := ascii_of_nat 10.

Definition nl : string := String newline "".
Definition dq : string := String quote "".

(** [\s] and the characters [trim] removes: WhiteSpace and LineTerminator
    (TAB, LF, VT, FF, CR, SP, NBSP among the code units below 256). *)
Definition isSpace (c : ascii) : bool :=
  let n := nat_of_ascii c in
  Nat.eqb n 9 || Nat.eqb n 10 || Nat.eqb n 11 || Nat.eqb n 12
  || Nat.eqb n 13 || Nat.eqb n 32 || Nat.eqb n 160.

Definition isEmpty (s : string) : bool :=
  match s with
  | EmptyString => true
  | String _ _ => false
  end.

(** [s.startsWith(p)] *)
Definition startsWith (p s : string) : bool := String.prefix p s.

Fixpoint drop (n : nat) (s : string) : string :=
  match n, s with
  | O, _ => s
  | S n', String _ s' => drop n' s'
  | S _, EmptyString => EmptyString
  end.

Fixpoint take (n : nat) (s : string) : string :=
  match n, s with
  | O, _ => EmptyString
  | S n', String c s' => String c (take n' s')
  | S _, EmptyString => EmptyString
  end.

Fixpoint trimStart (s : string) : string :=
  match s with
  | EmptyString => EmptyString
  | String c s' => if isSpace c then trimStart s' else s
  end.

Fixpoint trimEnd (s : string) : string :=
  match s with
  | EmptyString => EmptyString
  | String c s' =>
      let t := trimEnd s' in
      if isSpace c && isEmpty t then EmptyString else String c t
  end.

(** [s.trim()] *)
Definition trim (s : string) : string := trimEnd (trimStart s).

(** [s.split(sep)] for a non-empty literal [sep].  [skip] counts the
    characters of a matched separator still to be passed over and [cur]
    is the piece being collected. *)
Fixpoint splitGo (sep s : string) (skip : nat) (cur : string) : list string :=
  match s with
  | EmptyString => [cur]
  | String c s' =>
      match skip with
      | S k => splitGo sep s' k cur
      | O =>
          if String.prefix sep s
          then cur :: splitGo sep s' (String.length sep - 1) ""
          else splitGo sep s' 0 (cur ++ String c "")
      end
  end.

Definition split (sep s : string) : list string := splitGo sep s 0 "".

(** [s.split(/\n{2,}/)]: the separators are the maximal runs of two or
    more line feeds.  [inRun] holds while such a run is being consumed. *)
Fixpoint splitBlankGo (s : string) (inRun : bool) (cur : string) : list string :=
  match s with
  | EmptyString => [cur]
  | String c s' =>
      if inRun && Ascii.eqb c newline then splitBlankGo s' true cur
      else if String.prefix (nl ++ nl) s then cur :: splitBlankGo s' true ""
      else splitBlankGo s' false (cur ++ String c "")
  end.

Definition splitBlankLines (s : string) : list string := splitBlankGo s false "".

(** [s.split(/,\s*/)]: a comma and all the white space after it. *)
Fixpoint splitCommaGo (s : string) (inSep : bool) (cur : string) : list string :=
  match s with
  | EmptyString => [cur]
  | String c s' =>
      if inSep && isSpace c then splitCommaGo s' true cur
      else if Ascii.eqb c comma then cur :: splitCommaGo s' true ""
      else splitCommaGo s' false (cur ++ String c "")
  end.

Definition splitComma (s : string) : list string := splitCommaGo s false "".

(** The first [replace] of the header: one double quote at the start of
    the string is removed. *)
Definition dropLeadingQuote (s : string) : string :=
  match s with
  | String c s' => if Ascii.eqb c quote then s' else s
  | EmptyString => EmptyString
  end.

(** The second [replace] of the header, of a double quote and an optional
    colon at the end of the string by a colon: the match is the leftmost
    double quote that is followed by the end of the string or by a colon
    and the end. *)
Fixpoint quoteColonToColon (s : string) : string :=
  match s with
  | EmptyString => EmptyString
  | String c s' =>
      if Ascii.eqb c quote && (isEmpty s' || String.eqb s' (String colon ""))
      then String colon ""
      else String c (quoteColonToColon s')
  end.

(** [s.replace(/c$/, '')] for a character [c]. *)
Fixpoint dropFinal (c : ascii) (s : string) : string :=
  match s with
  | EmptyString => EmptyString
  | String d s' =>
      if Ascii.eqb d c && isEmpty s' then EmptyString
      else String d (dropFinal c s')
  end.

Fixpoint dropLeading (c : ascii) (s : string) : string :=
  match s with
  | EmptyString => EmptyString
  | String d s' => if Ascii.eqb d c then dropLeading c s' else s
  end.

Fixpoint dropTrailing (c : ascii) (s : string) : string :=
  match s with
  | EmptyString => EmptyString
  | String d s' =>
      let t := dropTrailing c s' in
      if Ascii.eqb d c && isEmpty t then EmptyString else String d t
  end.

(** The [replace] of [selectorToPkgName]: its pattern has two alternatives,
    a run of double quotes at the start and a run of double quotes at the
    end, and with the [g] flag both are removed. *)
Definition stripQuotes (s : string) : string :=
  dropTrailing quote (dropLeading quote s).

(** [s.lastIndexOf(c)], [-1] when [c] does not occur. *)
Fixpoint lastIndexOf (c : ascii) (s : string) : Z :=
  match s with
  | EmptyString => (-1)%Z
  | String d s' =>
      let i := lastIndexOf c s' in
      if (0 <=? i)%Z then (i + 1)%Z
      else if Ascii.eqb d c then 0%Z else (-1)%Z
  end.

(** [s.slice(0, n)] for [0 <= n]. *)
Definition slice0 (n : Z) (s : string) : string := take (Z.to_nat n) s.

Fixpoint takeWhile (p : ascii -> bool) (s : string) : string :=
  match s with
  | EmptyString => EmptyString
  | String c s' => if p c then String c (takeWhile p s') else EmptyString
  end.

Fixpoint dropWhile (p : ascii -> bool) (s : string) : string :=
  match s with
  | EmptyString => EmptyString
  | String c s' => if p c then dropWhile p s' else s
  end.

Fixpoint contains (c : ascii) (s : string) : bool :=
  match s with
  | EmptyString => false
  | String d s' => Ascii.eqb d c || contains c s'
  end.

(** The decimal text of an array index. *)
Definition ofNat (n : nat) : string := NilEmpty.string_of_uint (Nat.to_uint n).

End Str.

(* ===================================================================== *)
(** ** JavaScript values *)
(* ===================================================================== *)

(** The values [JSON.parse] builds, and [undefined]. *)
Inductive value : Type :=
| Undefined
| Null
| Bool (b : bool)
| Num (text : string)
| Str (s : string)
| Arr (elems : list value)
| Obj (props : list (string * value)).

(** ToBoolean *)
Definition truthy (v : value) : bool :=
  match v with
  | Undefined | Null => false
  | Bool b => b
  | Num text => negb (String.eqb text "0" || String.eqb text "NaN")
  | Str s => negb (Str.isEmpty s)
  | Arr _ | Obj _ => true
  end.

(** [typeof v === 'object'] *)
Definition typeofObject (v : value) : bool :=
  match v with
  | Null | Arr _ | Obj _ => true
  | _ => false
  end.

(** [v === true] *)
Definition isTrue (v : value) : bool :=
  match v with
  | Bool true => true
  | _ => false
  end.

(** [a || b] *)
Definition jsOr (a b : value) : value := if truthy a then a else b.

(** The string a string value is. *)
Definition strOf (v : value) : string :=
  match v with
  | Str s => s
  | _ => ""
  end.

Fixpoint assoc {A : Type} (k : string) (l : list (string * A)) : option A :=
  match l with
  | [] => None
  | (k', a) :: rest => if String.eqb k k' then Some a else assoc k rest
  end.

(** The index keys "0", "1", ... of an array or a string. *)
Definition indexed {A : Type} (l : list A) : list (string * A) :=
  combine (map Str.ofNat (seq 0 (length l))) l.

Definition chars (s : string) : list value :=
  map (fun c => Str (String c "")) (list_ascii_of_string s).

(** The own enumerable properties of a value that is neither [undefined]
    nor [null]: the properties of an object, the elements of an array and
    the characters of a string under their index. *)
Definition ownEntries (v : value) : list (string * value) :=
  match v with
  | Obj props => props
  | Arr elems => indexed elems
  | Str s => indexed (chars s)
  | _ => []
  end.

Definition nullish (v : value) : bool :=
  match v with
  | Undefined | Null => true
  | _ => false
  end.

(** [Object.entries(v)] *)
Definition ObjectEntries (v : value) : result (list (string * value)) :=
  if nullish v
  then Throw (TypeError "Cannot convert undefined or null to object")
  else Ok (ownEntries v).

(** [Object.keys(v)] *)
Definition ObjectKeys (v : value) : result (list string) :=
  entries <- ObjectEntries v ;; Ok (map fst entries).

(** [v[k]] and [v.k].  The names the program reads ([packages], [name],
    [version], [dev], [optional], [dependencies], [devDependencies],
    [optionalDependencies] and the keys [Object.keys] returned) are own
    properties or missing: no prototype defines one of them. *)
Definition prop (v : value) (k : string) : value :=
  match assoc k (ownEntries v) with
  | Some x => x
  | None => Undefined
  end.

Definition Get (v : value) (k : string) : result value :=
  if nullish v
  then Throw (TypeError ("Cannot read properties of undefined or null: " ++ k)%string)
  else Ok (prop v k).

(** [v?.[k]] *)
Definition GetOptional (v : value) (k : string) : result value :=
  if nullish v then Ok Undefined else Get v k.

Definition hasKey {A : Type} (k : string) (l : list (string * A)) : bool :=
  match assoc k l with
  | Some _ => true
  | None => false
  end.

(** ToString, as [String(v)] and a template literal apply it.  An array is
    joined with commas, [null] and [undefined] elements giving the empty
    text.  A plain object prints through [Object.prototype.toString]; when
    it has an own [toString] property (never callable in parsed JSON) the
    conversion falls back to [valueOf], which returns the object, and
    raises. *)
Fixpoint ToString (v : value) : result string :=
  match v with
  | Undefined => Ok "undefined"
  | Null => Ok "null"
  | Bool true => Ok "true"
  | Bool false => Ok "false"
  | Num text => Ok text
  | Str s => Ok s
  | Arr elems =>
      (fix join (l : list value) : result string :=
         match l with
         | [] => Ok ""
         | x :: rest =>
             a <- (if nullish x then Ok "" else ToString x) ;;
             match rest with
             | [] => Ok a
             | _ :: _ => b <- join rest ;; Ok (a ++ "," ++ b)%string
             end
         end) elems
  | Obj props =>
      if hasKey "toString" props
      then Throw (TypeError "Cannot convert object to primitive value")
      else Ok "[object Object]"
  end.

(* ===================================================================== *)
(** ** Occurrence records and the target set *)
(* ===================================================================== *)

Record row : Type := mkRow {
  package : string;
  version : value;
  dev : bool;
  optional : bool;
  source : string;
  lockfilePath : string
}.

Definition TARGETS : list string :=
  [ "eslint-config-prettier";
    "eslint-plugin-prettier";
    "synckit";
    "@pkgr/core";
    "napi-postinstall";
    "got-fetch";
    "is" ].

(** [TARGETS.has(name)] for a string. *)
Definition TARGETS_has (name : string) : bool :=
  existsb (String.eqb name) TARGETS.

(** [TARGETS.has(name)] for any value: the set holds strings only. *)
Definition TARGETS_hasValue (name : value) : bool :=
  match name with
  | Str s => TARGETS_has s
  | _ => false
  end.

(* ===================================================================== *)
(** ** extractFromNpmLock *)
(* ===================================================================== *)

(** The body of the loop over [Object.keys(lockJson.packages)]. *)
Definition packagesStep (lockfilePath : string) (packages : value)
    (pkgPath : string) (results : list row) : result (list row) :=
  info0 <- Get packages pkgPath ;;
  let info := jsOr info0 (Obj []) in
  name0 <- Get info "name" ;;
  let name :=
    if negb (truthy name0) then
      let segs := filter (fun s => truthy (Str s))
                         (Str.split "node_modules/" pkgPath) in
      if Nat.ltb 0 (List.length segs)
      then Str (Str.dropFinal Str.slash (nth (List.length segs - 1) segs ""))
      else name0
    else name0 in
  if truthy name && TARGETS_hasValue name then
    version0 <- Get info "version" ;;
    dev0 <- Get info "dev" ;;
    optional0 <- Get info "optional" ;;
    Ok (results ++ [ {| package := strOf name;
                        version := jsOr version0 (Str "");
                        dev := isTrue dev0;
                        optional := isTrue optional0;
                        source := "npm-lock";
                        lockfilePath := lockfilePath |} ])
  else Ok results.

(** The npm v2/v3 branch. *)
Definition scanPackages (lockJson : value) (lockfilePath : string)
    (results : list row) : result (list row) :=
  if truthy lockJson then
    packages <- Get lockJson "packages" ;;
    if truthy packages && typeofObject packages then
      keys <- ObjectKeys packages ;;
      forOf keys (packagesStep lockfilePath packages) results
    else Ok results
  else Ok results.

(** The body of the loop over [Object.entries(deps)]; the state is the
    pair of [results] and [stack].  The top of the stack is the head of
    the list: [push] conses and [pop] takes the head. *)
Definition dependencyStep (lockfilePath : string) (entry : string * value)
    (st : list row * list value) : result (list row * list value) :=
  let '(name, meta) := entry in
  let '(results, stack) := st in
  if negb (truthy meta) then Ok (results, stack)
  else
    results' <-
      (if TARGETS_has name then
         version0 <- Get meta "version" ;;
         dev0 <- Get meta "dev" ;;
         optional0 <- Get meta "optional" ;;
         Ok (results ++ [ {| package := name;
                             version := jsOr version0 (Str "");
                             dev := isTrue dev0;
                             optional := isTrue optional0;
                             source := "npm-lock";
                             lockfilePath := lockfilePath |} ])
       else Ok results) ;;
    nested <- Get meta "dependencies" ;;
    Ok (results', if truthy nested then nested :: stack else stack).

(** One turn of the [while] loop after [deps] was popped. *)
Definition visitDeps (lockfilePath : string) (deps : value)
    (st : list row * list value) : result (list row * list value) :=
  entries <- ObjectEntries deps ;;
  forOf entries (dependencyStep lockfilePath) st.

(** *** Termination of the [while (stack.length)] loop

    Every value pushed on the stack is a property of a property of the
    value popped, so the total weight of the stack decreases. *)

Fixpoint weight (v : value) : nat :=
  match v with
  | Arr elems =>
      S ((fix sum (l : list value) : nat :=
            match l with
            | [] => 0
            | x :: rest => weight x + sum rest
            end) elems)
  | Obj props =>
      S ((fix sum (l : list (string * value)) : nat :=
            match l with
            | [] => 0
            | (_, x) :: rest => weight x + sum rest
            end) props)
  | _ => 1
  end.

Definition weights (l : list value) : nat :=
  fold_right (fun v n => weight v + n) 0 l.

(** The part of the weights of [l] that lies strictly below its members. *)
Definition inner (l : list value) : nat :=
  fold_right (fun v n => (weight v - 1) + n) 0 l.

Definition isDigit (c : ascii) : bool :=
  Nat.leb 48 (nat_of_ascii c) && Nat.leb (nat_of_ascii c) 57.

(** A property name that starts with a character other than a digit. *)
Definition wordKey (k : string) : bool :=
  match k with
  | EmptyString => false
  | String c _ => negb (isDigit c)
  end.

Lemma weight_Arr elems : weight (Arr elems) = S (weights elems).
Proof. reflexivity. Qed.

Lemma weight_Obj props : weight (Obj props) = S (weights (map snd props)).
Proof.
  unfold weights. simpl. f_equal.
  induction props as [|[k x] rest IH]; simpl; [reflexivity | now rewrite <- IH].
Qed.

Lemma weight_pos v : 1 <= weight v.
Proof. destruct v; simpl; lia. Qed.

Lemma weights_app l1 l2 : weights (l1 ++ l2) = weights l1 + weights l2.
Proof. induction l1 as [|x l1 IH]; simpl; lia. Qed.

Lemma weights_In x l : In x l -> weight x <= weights l.
Proof.
  induction l as [|y l IH]; simpl; [tauto |].
  intros [-> | H]; [lia | apply IH in H; lia].
Qed.

Lemma assoc_In {A : Type} k (l : list (string * A)) a :
  assoc k l = Some a -> In (k, a) l.
Proof.
  induction l as [|[k' a'] l IH]; simpl; [discriminate |].
  destruct (String.eqb_spec k k') as [-> | _].
  - intros [= ->]. now left.
  - intros H. right. now apply IH.
Qed.

Lemma ofNat_not_word n : wordKey (Str.ofNat n) = false.
Proof.
  unfold Str.ofNat. destruct (Nat.to_uint n); reflexivity.
Qed.

Lemma indexed_key {A : Type} k (a : A) l :
  In (k, a) (indexed l) -> In a l /\ wordKey k = false.
Proof.
  unfold indexed. intros H. split.
  - now apply in_combine_r in H.
  - apply in_combine_l in H. apply in_map_iff in H.
    destruct H as [i [<- _]]. apply ofNat_not_word.
Qed.

Lemma assoc_indexed_word {A : Type} k (l : list A) :
  wordKey k = true -> assoc k (indexed l) = None.
Proof.
  intros Hk. destruct (assoc k (indexed l)) eqn:E; [| reflexivity].
  apply assoc_In, indexed_key in E. destruct E as [_ E]. congruence.
Qed.

Lemma Get_word_weight meta k d :
  wordKey k = true -> Get meta k = Ok d -> truthy d = true ->
  weight d < weight meta.
Proof.
  intros Hk. unfold Get, prop.
  destruct meta as [| |b|t|s|elems|props]; simpl; try discriminate;
    try (intros [= <-]; discriminate).
  - rewrite assoc_indexed_word by assumption. intros [= <-]; discriminate.
  - rewrite assoc_indexed_word by assumption. intros [= <-]; discriminate.
  - destruct (assoc k props) as [x|] eqn:E; intros [= <-]; [| discriminate].
    intros _. apply assoc_In in E.
    change (weight x < weight (Obj props)). rewrite weight_Obj.
    apply (in_map snd) in E. apply weights_In in E. simpl in E. lia.
Qed.

Lemma inner_le l : inner l <= weights l.
Proof. induction l as [|x l IH]; simpl; lia. Qed.

Lemma inner_chars s : inner (chars s) = 0.
Proof.
  unfold chars. induction (list_ascii_of_string s) as [|c l IH]; simpl; auto.
Qed.

Lemma map_snd_indexed {A : Type} (l : list A) : map snd (indexed l) = l.
Proof.
  unfold indexed. generalize 0 as start.
  induction l as [|x l IH]; intros start; simpl; [reflexivity |].
  now rewrite IH.
Qed.

Lemma dependencyStep_weights p entry results stack results' stack' :
  dependencyStep p entry (results, stack) = Ok (results', stack') ->
  weights stack' <= weights stack + (weight (snd entry) - 1).
Proof.
  destruct entry as [name meta]. unfold dependencyStep. simpl snd.
  destruct (truthy meta) eqn:Hm; simpl.
  - destruct (if TARGETS_has name then _ else _) as [r1|e]; simpl; [| discriminate].
    destruct (Get meta "dependencies") as [d|e] eqn:Hd; simpl; [| discriminate].
    destruct (truthy d) eqn:Ht; intros [= _ <-]; simpl; [| lia].
    pose proof (Get_word_weight meta "dependencies" d eq_refl Hd Ht). lia.
  - intros [= _ <-]. lia.
Qed.

Lemma forOf_dependencyStep_weights p entries :
  forall results stack results' stack',
    forOf entries (dependencyStep p) (results, stack) = Ok (results', stack') ->
    weights stack' <= weights stack + inner (map snd entries).
Proof.
  induction entries as [|entry entries IH]; intros results stack results' stack'; simpl.
  - intros [= _ <-]. lia.
  - destruct (dependencyStep p entry (results, stack)) as [[r1 s1]|e] eqn:E; simpl;
      [| discriminate].
    intros H. apply IH in H. apply dependencyStep_weights in E. lia.
Qed.

Lemma visitDeps_weights p deps results stack results' stack' :
  visitDeps p deps (results, stack) = Ok (results', stack') ->
  weights stack' < weights (deps :: stack).
Proof.
  unfold visitDeps, ObjectEntries.
  destruct (nullish deps) eqn:Hn; simpl; [discriminate |].
  intros H. apply forOf_dependencyStep_weights in H.
  enough (inner (map snd (ownEntries deps)) < weight deps) by lia.
  destruct deps as [| |b|t|s|elems|props]; simpl ownEntries;
    try (simpl; lia).
  - rewrite map_snd_indexed, inner_chars. simpl. lia.
  - rewrite map_snd_indexed, weight_Arr. pose proof (inner_le elems). lia.
  - rewrite weight_Obj. pose proof (inner_le (map snd props)). lia.
Qed.

(** The [while (stack.length)] loop. *)
Equations? whileStack (lockfilePath : string) (stack : list value)
    (results : list row) : result (list row) by wf (weights stack) lt :=
  whileStack lockfilePath [] results := Ok results;
  whileStack lockfilePath (deps :: stack) results
    with inspect (visitDeps lockfilePath deps (results, stack)) := {
    | exist _ (Ok (results', stack')) _ :=
        whileStack lockfilePath stack' results';
    | exist _ (Throw e) _ := Throw e }.
Proof. eapply visitDeps_weights; eassumption. Qed.

(** The npm v1 branch. *)
Definition scanDependencies (lockJson : value) (lockfilePath : string)
    (results : list row) : result (list row) :=
  if truthy lockJson then
    dependencies <- Get lockJson "dependencies" ;;
    if truthy dependencies && typeofObject dependencies then
      whileStack lockfilePath [dependencies] results
    else Ok results
  else Ok results.

Definition extractFromNpmLock (lockJson : value) (lockfilePath : string)
  : result (list row) :=
  results <- scanPackages lockJson lockfilePath [] ;;
  scanDependencies lockJson lockfilePath results.

(* ===================================================================== *)
(** ** extractFromYarnLockV1 and selectorToPkgName *)
(* ===================================================================== *)

(** [null] is [None]. *)
Definition selectorToPkgName (selector : string) : option string :=
  let s := Str.stripQuotes selector in
  let at_ := Str.lastIndexOf Str.atSign s in
  if (at_ <=? 0)%Z then None
  else Some (Str.slice0 at_ s).

Definition notQuote (c : ascii) : bool := negb (Ascii.eqb c Str.quote).

(** The [match] of the version line: the word [version] at the start, one
    or more white space characters, a double quote, one or more characters
    other than a double quote (the captured group) and a double quote.
    Both repetitions are followed by a character they exclude, so only
    their longest match can succeed. *)
Definition matchVersion (line : string) : option string :=
  if Str.startsWith "version" line then
    let afterWord := Str.drop 7 line in
    let afterSpace := Str.dropWhile Str.isSpace afterWord in
    if Str.isEmpty (Str.takeWhile Str.isSpace afterWord) then None
    else
      match afterSpace with
      | String c afterQuote =>
          if Ascii.eqb c Str.quote then
            let group := Str.takeWhile notQuote afterQuote in
            if Str.isEmpty group then None
            else if Str.startsWith Str.dq (Str.dropWhile notQuote afterQuote)
                 then Some group
                 else None
          else None
      | EmptyString => None
      end
  else None.

(** The selectors of a header line: the three [replace] calls and the
    [split]. *)
Definition headerSelectors (header : string) : list string :=
  Str.splitComma
    (Str.dropFinal Str.colon
       (Str.quoteColonToColon (Str.dropLeadingQuote header))).

(** The version of a block, from its trimmed lines. *)
Definition blockVersion (lines : list string) : string :=
  let versionLine := find (Str.startsWith "version ") lines in
  let versionMatch :=
    match versionLine with
    | Some l => matchVersion l
    | None => None
    end in
  match versionMatch with
  | Some v => v
  | None => ""
  end.

(** The body of the loop over [headerSelectors]. *)
Definition selectorStep (lockfilePath version_ : string) (sel : string)
    (results : list row) : list row :=
  match selectorToPkgName sel with
  | None => results
  | Some name =>
      if Str.isEmpty name then results
      else if TARGETS_has name then
        results ++ [ {| package := name;
                        version := Str version_;
                        dev := false;
                        optional := false;
                        source := "yarn-lock";
                        lockfilePath := lockfilePath |} ]
      else results
  end.

(** The body of the loop over [blocks]. *)
Definition blockStep (lockfilePath : string) (blockRaw : string)
    (results : list row) : list row :=
  let block := Str.trim blockRaw in
  if Str.isEmpty block then results
  else
    let lines := map Str.trim (Str.split Str.nl block) in
    let header := hd "" lines in
    if Str.isEmpty header || Str.startsWith "#" header then results
    else
      let version_ := blockVersion lines in
      fold_left (fun acc sel => selectorStep lockfilePath version_ sel acc)
                (headerSelectors header) results.

Definition extractFromYarnLockV1 (text lockfilePath : string) : list row :=
  fold_left (fun acc blockRaw => blockStep lockfilePath blockRaw acc)
            (Str.splitBlankLines text) [].

(* ===================================================================== *)
(** ** extractFromPackageJson *)
(* ===================================================================== *)

Definition buckets : list (string * bool * bool) :=
  [ ("dependencies", false, false);
    ("devDependencies", true, false);
    ("optionalDependencies", false, true) ].

(** The body of the loop over [Object.entries(deps)]. *)
Definition rangeStep (lockfilePath : string) (isDev isOpt : bool)
    (entry : string * value) (results : list row) : result (list row) :=
  let '(name, range) := entry in
  if TARGETS_has name then
    text <- ToString (jsOr range (Str "")) ;;
    Ok (results ++ [ {| package := name;
                        version := Str text;
                        dev := negb (negb isDev);
                        optional := negb (negb isOpt);
                        source := "package-json";
                        lockfilePath := lockfilePath |} ])
  else Ok results.

(** The body of the loop over [buckets]. *)
Definition bucketStep (pkgJson : value) (lockfilePath : string)
    (bucket : string * bool * bool) (results : list row) : result (list row) :=
  let '(field, isDev, isOpt) := bucket in
  deps <- GetOptional pkgJson field ;;
  if negb (truthy deps) || negb (typeofObject deps) then Ok results
  else
    entries <- ObjectEntries deps ;;
    forOf entries (rangeStep lockfilePath isDev isOpt) results.

Definition extractFromPackageJson (pkgJson : value) (lockfilePath : string)
  : result (list row) :=
  forOf buckets (bucketStep pkgJson lockfilePath) [].

(* ===================================================================== *)
(** ** The aggregator: the sort of [main] and dedupeRows *)
(* ===================================================================== *)

(** The template literal that builds the key of a record. *)
Definition rowKey (r : row) : result string :=
  text <- ToString (version r) ;;
  Ok (lockfilePath r ++ "::" ++ package r ++ "::" ++ text ++ "::" ++ source r)%string.

(** [seen.has(key)] *)
Definition seenHas (key : string) (seen : list string) : bool :=
  existsb (String.eqb key) seen.

(** The body of the loop of [dedupeRows]; the state is the pair of [seen]
    and [out]. *)
Definition dedupeStep (r : row) (st : list string * list row)
  : result (list string * list row) :=
  let '(seen, out) := st in
  key <- rowKey r ;;
  if seenHas key seen then Ok (seen, out)
  else Ok (key :: seen, out ++ [r]).

Definition dedupeRows (rows : list row) : result (list row) :=
  st <- forOf rows dedupeStep ([], []) ;; Ok (snd st).

(** [String.prototype.localeCompare] follows the collation of the host
    locale.  The language requires of it a consistent comparison: a total
    preorder on strings under which a string is equal to itself.  Its sign
    is a [comparison]. *)
Class Collation : Type := {
  localeCompare : string -> string -> comparison;
  localeCompare_refl : forall a, localeCompare a a = Eq;
  localeCompare_antisym :
    forall a b, localeCompare b a = CompOpp (localeCompare a b);
  localeCompare_trans :
    forall a b c,
      localeCompare a b <> Gt -> localeCompare b c <> Gt ->
      localeCompare a c <> Gt
}.

(** A collation separates a list of names when it finds no two different
    names of the list equal. *)
Definition separates `{Collation} (names : list string) : Prop :=
  forall p q, In p names -> In q names -> localeCompare p q = Eq -> p = q.

Section Aggregator.

Context `{C : Collation}.

(** The comparator [main] gives to [rows.sort]. *)
Definition compareRows (a b : row) : comparison :=
  if String.eqb (package a) (package b)
  then localeCompare (lockfilePath a) (lockfilePath b)
  else localeCompare (package a) (package b).

(** [Array.prototype.sort] is a stable sort: under a consistent
    comparator its result is the one ordered permutation that keeps the
    input order of the elements the comparator finds equal.  It is
    embedded as the stable insertion sort. *)
Fixpoint insertRow (r : row) (sorted : list row) : list row :=
  match sorted with
  | [] => [r]
  | x :: rest =>
      match compareRows r x with
      | Gt => x :: insertRow r rest
      | _ => r :: x :: rest
      end
  end.

Fixpoint sortRows (rows : list row) : list row :=
  match rows with
  | [] => []
  | r :: rest => insertRow r (sortRows rest)
  end.

(** What [main] does with the rows of all files: sort, then dedupe. *)
Definition aggregate (rows : list row) : result (list row) :=
  dedupeRows (sortRows rows).

End Aggregator.

(* ===================================================================== *)
(** ** The vocabulary of the statements

    The predicates, the functions written after the words of the
    specification and the inputs of the examples. *)
(* ===================================================================== *)

(** A record of a package of [names], and of the target set. *)
Definition packageIn (names : list string) (r : row) : Prop :=
  In (package r) names.

Definition targetRow (r : row) : Prop := In (package r) TARGETS.

(** The invariant of the stack loop: the stack holds truthy values and the
    results are rows of target packages. *)
Definition stackInvariant (stack : list value) (results : list row) : Prop :=
  Forall (fun v => truthy v = true) stack /\ Forall targetRow results.

(** [undefined], [null], a boolean, a number or a string. *)
Definition nonObject (v : value) : bool :=
  match v with
  | Arr _ | Obj _ => false
  | _ => true
  end.

(** The Yarn block of a scoped package, its header in double quotes, and
    a block whose header is [@invalid:]. *)
Definition scopedBlock : string :=
  (Str.dq ++ "@pkgr/core@^1.0.0" ++ Str.dq ++ ":" ++ Str.nl
   ++ "  version " ++ Str.dq ++ "1.2.3" ++ Str.dq)%string.

Definition invalidBlock : string :=
  ("@invalid:" ++ Str.nl ++ "  version " ++ Str.dq ++ "1.0.0" ++ Str.dq)%string.

(** The 4-tuple of the claim. *)
Definition sameTuple (a b : row) : Prop :=
  lockfilePath a = lockfilePath b
  /\ package a = package b
  /\ version a = version b
  /\ source a = source b.

(** [s] holds no colon. *)
Definition noColon (s : string) : bool := negb (Str.contains Str.colon s).

(** Every colon of [s] is followed by a character other than a colon: [s]
    holds no [::] and does not end with a colon. *)
Fixpoint sepSafe (s : string) : bool :=
  match s with
  | EmptyString => true
  | String c s' =>
      (if Ascii.eqb c Str.colon
       then match s' with
            | EmptyString => false
            | String d _ => negb (Ascii.eqb d Str.colon)
            end
       else true) && sepSafe s'
  end.

(** The records on which the key is as good as the 4-tuple: the version is
    a string and the separator [::] cannot be confused with the text
    around it. *)
Definition plainRow (r : row) : Prop :=
  (exists s, version r = Str s)
  /\ sepSafe (lockfilePath r) = true
  /\ sepSafe (package r) = true
  /\ noColon (source r) = true.

(** A manifest that declares [is] with one range under [dependencies] and
    under [devDependencies], and its two records. *)
Definition manifestTwice : value :=
  Obj [ ("dependencies", Obj [("is", Str "^3.3.0")]);
        ("devDependencies", Obj [("is", Str "^3.3.0")]) ].

Definition isRuntime : row :=
  {| package := "is"; version := Str "^3.3.0"; dev := false; optional := false;
     source := "package-json"; lockfilePath := "package.json" |}.

Definition isDevelopment : row :=
  {| package := "is"; version := Str "^3.3.0"; dev := true; optional := false;
     source := "package-json"; lockfilePath := "package.json" |}.

(** [key] is the key of [r]. *)
Definition keyed (r : row) (key : string) : Prop := rowKey r = Ok key.

(** A lockfile that holds two versions of [is], and some records. *)
Definition lockTwoVersions : value :=
  Obj [("packages",
        Obj [ ("node_modules/is", Obj [("version", Str "3.3.0")]);
              ("node_modules/a/node_modules/is", Obj [("version", Str "2.0.0")]) ])].

Definition is330 : row :=
  {| package := "is"; version := Str "3.3.0"; dev := false; optional := false;
     source := "npm-lock"; lockfilePath := "package-lock.json" |}.

Definition is200 : row :=
  {| package := "is"; version := Str "2.0.0"; dev := false; optional := false;
     source := "npm-lock"; lockfilePath := "package-lock.json" |}.

Definition core123 : row :=
  {| package := "@pkgr/core"; version := Str "1.2.3"; dev := false;
     optional := false; source := "yarn-lock"; lockfilePath := "yarn.lock" |}.

(** Every character of [s] is one of [p]. *)
Fixpoint allChars (p : ascii -> bool) (s : string) : bool :=
  match s with
  | EmptyString => true
  | String c s' => p c && allChars p s'
  end.

(** [s] does not start with a character of [p]. *)
Definition stopsAt (p : ascii -> bool) (s : string) : bool :=
  match s with
  | EmptyString => true
  | String c _ => negb (p c)
  end.

(** The lines the pattern of the version line matches, and its group. *)
Definition versionLineOf (ws v rest : string) : string :=
  ("version" ++ ws ++ Str.dq ++ v ++ Str.dq ++ rest)%string.

(** [ws] is white space, [v] has no double quote, and neither is empty. *)
Definition wellFormedVersion (ws v : string) : Prop :=
  allChars Str.isSpace ws = true /\ Str.isEmpty ws = false
  /\ allChars notQuote v = true /\ Str.isEmpty v = false.

(** The trimmed lines of a block and its header. *)
Definition blockLines (blockRaw : string) : list string :=
  map Str.trim (Str.split Str.nl (Str.trim blockRaw)).

(** A block that is read: it is not blank and is not a comment. *)
Definition blockRead (blockRaw : string) : bool :=
  negb (Str.isEmpty (Str.trim blockRaw))
  && negb (Str.isEmpty (hd "" (blockLines blockRaw))
           || Str.startsWith "#" (hd "" (blockLines blockRaw))).

(** The record of the Yarn parser for a name. *)
Definition yarnRow (lockfilePath version_ name : string) : row :=
  {| package := name; version := Str version_; dev := false; optional := false;
     source := "yarn-lock"; lockfilePath := lockfilePath |}.

(** A block whose version line has no double quotes. *)
Definition unquotedBlock : string :=
  ("is@^3.0.0:" ++ Str.nl ++ "  version 3.3.0")%string.

(** [pieces.join(sep)] *)
Fixpoint join (sep : string) (pieces : list string) : string :=
  match pieces with
  | [] => ""
  | [x] => x
  | x :: rest => (x ++ sep ++ join sep rest)%string
  end.

(** The naming rule in the words of the specification: the non-empty
    pieces of the key split on [node_modules/], the last of them, without
    one final slash. *)
Definition segments (pkgPath : string) : list string :=
  filter (fun s => negb (Str.isEmpty s)) (Str.split "node_modules/" pkgPath).

Definition derivedName (pkgPath : string) : option string :=
  match rev (segments pkgPath) with
  | [] => None
  | seg :: _ => Some (Str.dropFinal Str.slash seg)
  end.

(** The name of an entry: its [name] when that is truthy, the derived name
    otherwise. *)
Definition entryName (info : value) (pkgPath : string) : value :=
  if truthy (prop info "name") then prop info "name"
  else match derivedName pkgPath with
       | Some name => Str name
       | None => prop info "name"
       end.

(** The record of the npm parser for a name and its metadata. *)
Definition npmRow (lockfilePath name : string) (info : value) : row :=
  {| package := name;
     version := if truthy (prop info "version") then prop info "version" else Str "";
     dev := isTrue (prop info "dev");
     optional := isTrue (prop info "optional");
     source := "npm-lock";
     lockfilePath := lockfilePath |}.

(** The records of one entry of [packages]. *)
Definition packageRows (lockfilePath : string) (entry : string * value) : list row :=
  let '(pkgPath, info0) := entry in
  let info := if truthy info0 then info0 else Obj [] in
  match entryName info pkgPath with
  | Str name => if TARGETS_has name then [npmRow lockfilePath name info] else []
  | _ => []
  end.

(** The lockfile of the example, and one whose entry declares an empty
    name. *)
Definition lockIs330 : value :=
  Obj [("packages", Obj [("node_modules/is", Obj [("version", Str "3.3.0")])])].

Definition lockEmptyName : value :=
  Obj [("packages",
        Obj [("node_modules/is", Obj [("name", Str ""); ("version", Str "3.3.0")])])].

(** The entries the traversal of [deps] meets: the entries of [deps] with
    truthy metadata and, below such an entry, those of its truthy
    [dependencies]. *)
Inductive node (deps : value) : string -> value -> Prop :=
| node_entry name meta :
    In (name, meta) (ownEntries deps) ->
    truthy meta = true ->
    node deps name meta
| node_nested key parent name meta :
    In (key, parent) (ownEntries deps) ->
    truthy parent = true ->
    truthy (prop parent "dependencies") = true ->
    node (prop parent "dependencies") name meta ->
    node deps name meta.

(** What one entry adds to [results] and to [stack]. *)
Definition stepRows (lockfilePath : string) (entry : string * value) : list row :=
  let '(name, meta) := entry in
  if truthy meta && TARGETS_has name then [npmRow lockfilePath name meta] else [].

Definition stepPush (entry : string * value) : list value :=
  let '(_, meta) := entry in
  if truthy meta && truthy (prop meta "dependencies")
  then [prop meta "dependencies"] else [].

(** The lockfile of the nested example, and one whose node [is] has the
    metadata [null]. *)
Definition lockNested : value :=
  Obj [("dependencies",
        Obj [("a", Obj [ ("version", Str "1.0.0");
                         ("dependencies",
                          Obj [("is", Obj [("version", Str "2.0.0")])]) ])])].

Definition lockNullNode : value :=
  Obj [("dependencies", Obj [("is", Null)])].

(** [f] on every member, from left to right, up to the first exception. *)
Fixpoint traverse {A B : Type} (f : A -> result B) (l : list A) : result (list B) :=
  match l with
  | [] => Ok []
  | a :: rest => b <- f a ;; bs <- traverse f rest ;; Ok (b :: bs)
  end.

(** The entries of a bucket that name a target, with the flags of the
    bucket: those of the field when it is a truthy object, none
    otherwise. *)
Definition bucketTargets (pkgJson : value) (bucket : string * bool * bool)
  : list (string * value * bool * bool) :=
  let '(field, isDev, isOpt) := bucket in
  let deps := if nullish pkgJson then Undefined else prop pkgJson field in
  if truthy deps && typeofObject deps
  then map (fun entry => (fst entry, snd entry, isDev, isOpt))
           (filter (fun entry => TARGETS_has (fst entry)) (ownEntries deps))
  else [].

(** The record of an entry: its version is the text of the range when the
    range is truthy and the empty string when it is falsy. *)
Definition manifestRow (lockfilePath : string)
    (entry : string * value * bool * bool) : result row :=
  let '(name, range, isDev, isOpt) := entry in
  text <- (if truthy range then ToString range else Ok "") ;;
  Ok {| package := name; version := Str text; dev := isDev; optional := isOpt;
        source := "package-json"; lockfilePath := lockfilePath |}.

(** The manifest of the example, and one with two falsy ranges. *)
Definition manifestSynckit : value :=
  Obj [("devDependencies", Obj [("synckit", Str "^0.10.0")])].

Definition manifestFalsyRanges : value :=
  Obj [("dependencies", Obj [("is", Str ""); ("synckit", Bool false)])].

(** The range of an entry can be converted: it is falsy, or [String]
    returns for it. *)
Definition convertible (entry : string * value * bool * bool) : Prop :=
  match entry with
  | (_, range, _, _) => truthy range = true -> exists text, ToString range = Ok text
  end.

(** A manifest whose second target has a range that cannot be converted:
    an object with an own [toString]. *)
Definition manifestUnconvertible : value :=
  Obj [("dependencies",
        Obj [("is", Str "^3.3.0"); ("synckit", Obj [("toString", Null)])])].

Section OrderVocabulary.

Context `{C : Collation}.

(** [a] is placed no later than [b]. *)
Definition rowLe (a b : row) : Prop := compareRows a b <> Gt.

(** [a] and [b] tie on both keys. *)
Definition tied (a b : row) : bool :=
  match compareRows a b with
  | Eq => true
  | _ => false
  end.

(** The order of the claim: [package] first, [lockfilePath] when the
    packages are the same. *)
Definition keyOrder (a b : row) : Prop :=
  localeCompare (package a) (package b) <> Gt
  /\ (package a = package b ->
      localeCompare (lockfilePath a) (lockfilePath b) <> Gt).

End OrderVocabulary.

(* ===================================================================== *)
(** * The rest of the program: the host, the scan of the directories,
      the loop of [main] over the files and the table *)
(* ===================================================================== *)

(** ** The host

    What the program asks of Node.js.  A host operation that fails raises
    an exception, of which the program reads the message only. *)

Inductive attempt (A : Type) : Type :=
| Success (a : A)
| Failure (message : string).

Arguments Success {A} a.
Arguments Failure {A} message.

(** What lies at a path: a file, a directory with its listing
    ([fs.readdirSync] with [withFileTypes], which fails on a directory
    that cannot be read), or something else (a symbolic link, a socket),
    for which [isDirectory] and [isFile] are both false.  Directories
    nest to a finite depth. *)
Inductive fsnode : Type :=
| File
| Other
| Directory (listing : attempt (list (string * fsnode))).

Class Host : Type := {
  (** [process.cwd()] and [path.sep] *)
  process_cwd : string;
  path_sep : string;
  (** [path.resolve(root)] and [path.join(dir, name)] *)
  path_resolve : string -> string;
  path_join : string -> string -> string;
  (** What lies at an absolute path; [None] when [fs.existsSync] is
      false. *)
  fs_lookup : string -> option fsnode;
  (** [fs.readFileSync(path, 'utf8')] and [JSON.parse(raw)] *)
  fs_readFileSync : string -> attempt string;
  JSON_parse : string -> attempt value;
  (** The text [console.error(err)] prints for an exception. *)
  util_inspect : exn -> string;
  (** The number of arguments the engine accepts in the call
      [rows.push(...found)], where the spread passes every record as one
      argument, and the message of the [RangeError] it raises above that
      number. *)
  push_limit : nat;
  push_error : string
}.

(** [e.message] *)
Definition message (e : exn) : string :=
  match e with
  | TypeError msg => msg
  end.

(** The outcome of a parser inside the [try] block. *)
Definition attemptOf {A : Type} (r : result A) : attempt A :=
  match r with
  | Ok a => Success a
  | Throw e => Failure (message e)
  end.

Definition andThen {A B : Type} (c : attempt A) (k : A -> attempt B) : attempt B :=
  match c with
  | Success a => k a
  | Failure m => Failure m
  end.

(** [s.endsWith(suffix)] *)
Definition endsWith (suffix s : string) : bool :=
  Nat.leb (String.length suffix) (String.length s)
  && String.eqb (Str.drop (String.length s - String.length suffix) s) suffix.

(** [list.includes(name)] and [set.has(name)] on strings. *)
Definition includes (name : string) (l : list string) : bool :=
  existsb (String.eqb name) l.

Definition ROOTS : list string := [ "src" ].

Definition LOCK_FILENAMES : list string :=
  [ "package-lock.json"; "package.lock.json"; "yarn.lock"; "package.json" ].

Definition SKIP_DIRS : list string :=
  [ "node_modules"; ".git"; ".next"; "dist"; "build"; "out"; ".turbo"; ".cache" ].

(** The check mark of the table, U+2714.  It lies outside the code units
    of this development and is carried by its UTF-8 bytes; the program
    only copies it to the output. *)
Definition checkMark : string := "✔".

Section Scan.

Context `{H : Host}.

(** ** collectFiles

    [node] is what lies at [dir].  The listing fails on a directory that
    cannot be read and on what is no directory; the [catch] returns. *)
Fixpoint collectFiles (dir : string) (node : fsnode) (out : list string)
  : list string :=
  match node with
  | Directory (Success dirents) =>
      (fix loop (dirents : list (string * fsnode)) (out : list string)
         : list string :=
         match dirents with
         | [] => out
         | (name, de) :: rest =>
             let full := path_join dir name in
             loop rest
               match de with
               | Directory _ =>
                   if includes name SKIP_DIRS then out
                   else collectFiles full de out
               | File =>
                   if includes name LOCK_FILENAMES then out ++ [full] else out
               | Other => out
               end
         end) dirents out
  | _ => out
  end.

(** ** shortenPath *)
Definition shortenPath (p : string) : string :=
  let cwd := (process_cwd ++ path_sep)%string in
  if Str.startsWith cwd p then Str.drop (String.length cwd) p else p.

(** ** printMarkdownTable

    [console.log] appends a line to the standard output.  The line of a
    record is a template literal; the conversion of its version may
    raise, after the lines before it were printed. *)
Definition rowLine (r : row) : result string :=
  text <- ToString (version r) ;;
  Ok ("| `" ++ package r ++ "` | `" ++ text ++ "` | "
      ++ (if dev r then checkMark else "") ++ " | "
      ++ (if optional r then checkMark else "") ++ " | "
      ++ source r ++ " | `" ++ shortenPath (lockfilePath r) ++ "` |")%string.

Fixpoint printRows (rows : list row) (stdout : list string)
  : list string * result unit :=
  match rows with
  | [] => (stdout, Ok tt)
  | r :: rest =>
      match rowLine r with
      | Ok line => printRows rest (stdout ++ [line])
      | Throw e => (stdout, Throw e)
      end
  end.

Definition printMarkdownTable (rows : list row) (stdout : list string)
  : list string * result unit :=
  if Nat.eqb (List.length rows) 0
  then (stdout ++ [ "No occurrences found." ], Ok tt)
  else
    printRows rows
      (stdout ++ [ "| Package | Version | Dev | Optional | Source | File |";
                   "|---|---|:---:|:---:|---|---|" ]).

(** ** main *)

(** The first loop of [main], over [ROOTS]; the state is the standard
    error and [files]. *)
Definition rootStep (root : string) (st : list string * list string)
  : list string * list string :=
  let '(stderr, files) := st in
  let abs := path_resolve root in
  match fs_lookup abs with
  | None => (stderr ++ [ ("Path not found: " ++ abs)%string ], files)
  | Some node => (stderr, collectFiles abs node files)
  end.

(** The [try] block of the second loop up to its [push]: the records the
    parser of the file returns. *)
Definition fileRows (filePath : string) : attempt (list row) :=
  if endsWith "package-lock.json" filePath
     || endsWith "package.lock.json" filePath then
    andThen (fs_readFileSync filePath) (fun raw =>
    andThen (JSON_parse raw) (fun json =>
    attemptOf (extractFromNpmLock json filePath)))
  else if endsWith "yarn.lock" filePath then
    andThen (fs_readFileSync filePath) (fun raw =>
    Success (extractFromYarnLockV1 raw filePath))
  else if endsWith "package.json" filePath then
    andThen (fs_readFileSync filePath) (fun raw =>
    andThen (JSON_parse raw) (fun json =>
    attemptOf (extractFromPackageJson json filePath)))
  else Success [].

(** [rows.push(...found)], the last call of each branch of the [try]
    block: the records are appended in one call, or the engine raises a
    [RangeError] and [rows] is left as it was. *)
Definition pushSpread (rows found : list row) : attempt (list row) :=
  if Nat.leb (List.length found) push_limit
  then Success (rows ++ found)
  else Failure push_error.

(** The body of the second loop, with its [catch]; the state is the
    standard error and [rows]. *)
Definition fileStep (filePath : string) (st : list string * list row)
  : list string * list row :=
  let '(stderr, rows) := st in
  match andThen (fileRows filePath) (pushSpread rows) with
  | Success rows' => (stderr, rows')
  | Failure m =>
      (stderr ++ [ ("Skipped read/parse: " ++ filePath ++ " -> " ++ m)%string ],
       rows)
  end.

Definition scanFiles (files : list string) (st : list string * list row)
  : list string * list row :=
  fold_left (fun st filePath => fileStep filePath st) files st.

(** The first loop of [main]: the diagnostics and the files. *)
Definition collectRoots : list string * list string :=
  fold_left (fun st root => rootStep root st) ROOTS ([], []).

(** What a run of the program leaves: the two output streams and the exit
    code [process.exit] was given, if it was called. *)
Record run : Type := mkRun {
  stdout : list string;
  stderr : list string;
  exitCode : option nat
}.

End Scan.

Section Main.

Context `{H : Host} `{C : Collation}.

(** [main] and the [catch] on its promise. *)
Definition main : run :=
  let '(stderr1, files) := collectRoots in
  let '(stderr2, rows) := scanFiles files (stderr1, []) in
  match dedupeRows (sortRows rows) with
  | Throw e =>
      {| stdout := []; stderr := stderr2 ++ [util_inspect e]; exitCode := Some 1 |}
  | Ok unique =>
      match printMarkdownTable unique [] with
      | (lines, Ok _) =>
          {| stdout := lines; stderr := stderr2; exitCode := None |}
      | (lines, Throw e) =>
          {| stdout := lines; stderr := stderr2 ++ [util_inspect e];
             exitCode := Some 1 |}
      end
  end.

End Main.

(* ===================================================================== *)
(** ** The vocabulary of the further statements *)
(* ===================================================================== *)

(** [a] is [b] with some members left out, in the same order. *)
Inductive subsequence {A : Type} : list A -> list A -> Prop :=
| subsequence_nil : subsequence [] []
| subsequence_keep x a b : subsequence a b -> subsequence (x :: a) (x :: b)
| subsequence_drop x a b : subsequence a b -> subsequence a (x :: b).

(** The text of the version of [r] can be built. *)
Definition printable (r : row) : Prop := exists text, ToString (version r) = Ok text.

Section ScanVocabulary.

Context `{H : Host}.

(** The three branches of the [try] block. *)
Definition npmFile (filePath : string) : attempt (list row) :=
  andThen (fs_readFileSync filePath) (fun raw =>
  andThen (JSON_parse raw) (fun json =>
  attemptOf (extractFromNpmLock json filePath))).

Definition yarnFile (filePath : string) : attempt (list row) :=
  andThen (fs_readFileSync filePath) (fun raw =>
  Success (extractFromYarnLockV1 raw filePath)).

Definition manifestFile (filePath : string) : attempt (list row) :=
  andThen (fs_readFileSync filePath) (fun raw =>
  andThen (JSON_parse raw) (fun json =>
  attemptOf (extractFromPackageJson json filePath))).

(** A file passes when its [try] block ends without an exception: it is
    read and parsed, its parser returns, and the records fit in one call
    of [push].  [pushed] holds of the records it then adds. *)
Definition passes (filePath : string) : bool :=
  match fileRows filePath with
  | Success found => Nat.leb (List.length found) push_limit
  | Failure _ => false
  end.

Definition pushed (filePath : string) (found : list row) : Prop :=
  fileRows filePath = Success found /\ List.length found <= push_limit.

(** The message the [catch] receives for a file that does not pass: that
    of the failing read, parse or parser, or that of the [RangeError] of
    [push]. *)
Definition caught (filePath m : string) : Prop :=
  fileRows filePath = Failure m
  \/ exists found,
       fileRows filePath = Success found
       /\ push_limit < List.length found /\ m = push_error.

Definition skipLine (filePath m : string) : string :=
  ("Skipped read/parse: " ++ filePath ++ " -> " ++ m)%string.

(** The records and the diagnostic line one file adds. *)
Definition rowsOf (filePath : string) : list row :=
  match fileRows filePath with
  | Success found =>
      if Nat.leb (List.length found) push_limit then found else []
  | Failure _ => []
  end.

Definition diagnosticOf (filePath : string) : list string :=
  match fileRows filePath with
  | Success found =>
      if Nat.leb (List.length found) push_limit then []
      else [ skipLine filePath push_error ]
  | Failure m => [ skipLine filePath m ]
  end.

End ScanVocabulary.

Section CollectVocabulary.

Context `{H : Host}.

(** What one entry of a listing adds to [out]. *)
Definition collectEntry (dir : string) (entry : string * fsnode)
    (out : list string) : list string :=
  let '(name, de) := entry in
  let full := path_join dir name in
  match de with
  | Directory _ =>
      if includes name SKIP_DIRS then out else collectFiles full de out
  | File => if includes name LOCK_FILENAMES then out ++ [full] else out
  | Other => out
  end.

(** [full] is the path of a file with one of the names of
    [LOCK_FILENAMES], below [dir] and reached through directories that
    can be read and are not named in [SKIP_DIRS]. *)
Inductive listed : string -> fsnode -> string -> Prop :=
| listed_file dir dirents name :
    In (name, File) dirents ->
    includes name LOCK_FILENAMES = true ->
    listed dir (Directory (Success dirents)) (path_join dir name)
| listed_below dir dirents name listing full :
    In (name, Directory listing) dirents ->
    includes name SKIP_DIRS = false ->
    listed (path_join dir name) (Directory listing) full ->
    listed dir (Directory (Success dirents)) full.

(** The parser [main] has for a file name. *)
Definition parserFor (name filePath : string) : attempt (list row) :=
  if String.eqb name "yarn.lock" then yarnFile filePath
  else if String.eqb name "package.json" then manifestFile filePath
  else npmFile filePath.

End CollectVocabulary.

Section MainVocabulary.

Context `{H : Host} `{C : Collation}.

(** The records [main] has after its loop over the files. *)
Definition scannedRows : list row :=
  snd (scanFiles (snd collectRoots) (fst collectRoots, [])).

End MainVocabulary.

(** A record whose version is an object with an own [toString]. *)
Definition unprintable : row :=
  {| package := "is"; version := Obj [("toString", Num "1")]; dev := false;
     optional := false; source := "npm-lock";
     lockfilePath := "/work/src/package-lock.json" |}.

(** A host to compute with: the POSIX separator, a working directory and
    a project with a manifest, a Yarn lockfile, a directory that is
    skipped and one that cannot be read. *)
Definition exampleTree : fsnode :=
  Directory (Success
    [ ("package.json", File);
      ("README.md", File);
      ("node_modules", Directory (Success [ ("package.json", File) ]));
      ("web", Directory (Success [ ("yarn.lock", File); ("link", Other) ]));
      ("locked", Directory (Failure "EACCES")) ]).

Definition quoted (s : string) : string := (Str.dq ++ s ++ Str.dq)%string.

(** The text of [manifestTwice]. *)
Definition manifestTwiceText : string :=
  ("{" ++ quoted "dependencies" ++ ":{" ++ quoted "is" ++ ":" ++ quoted "^3.3.0"
   ++ "}," ++ quoted "devDependencies" ++ ":{" ++ quoted "is" ++ ":"
   ++ quoted "^3.3.0" ++ "}}")%string.

#[export] Instance exampleHost : Host := {|
  process_cwd := "/work";
  path_sep := "/";
  path_resolve := fun root => ("/work/" ++ root)%string;
  path_join := fun dir name => (dir ++ "/" ++ name)%string;
  fs_lookup := fun abs => if String.eqb abs "/work/src" then Some exampleTree else None;
  fs_readFileSync := fun filePath =>
    if String.eqb filePath "/work/src/web/yarn.lock" then Success scopedBlock
    else if String.eqb filePath "/work/src/package.json"
         then Success manifestTwiceText
    else Failure "ENOENT";
  JSON_parse := fun raw =>
    if String.eqb raw manifestTwiceText then Success manifestTwice
    else Failure "Unexpected token";
  util_inspect := fun e => ("TypeError: " ++ message e)%string;
  push_limit := Nat.pow 2 16;
  push_error := "Maximum call stack size exceeded"
|}.


(** A host whose working directory has no [src]. *)
Definition emptyHost : Host := {|
  process_cwd := "/work";
  path_sep := "/";
  path_resolve := fun root => ("/work/" ++ root)%string;
  path_join := fun dir name => (dir ++ "/" ++ name)%string;
  fs_lookup := fun _ => None;
  fs_readFileSync := fun _ => Failure "ENOENT: no such file or directory";
  JSON_parse := fun _ => Failure "Unexpected end of JSON input";
  util_inspect := fun e => ("TypeError: " ++ message e)%string;
  push_limit := Nat.pow 2 16;
  push_error := "Maximum call stack size exceeded"
|}.

(** A lockfile whose [version] cannot be converted to text, and a host
    that has it at [src/package-lock.json]. *)
Definition lockUnprintable : value :=
  Obj [("packages",
        Obj [("node_modules/is", Obj [("version", Obj [("toString", Null)])])])].

Definition brokenHost : Host := {|
  process_cwd := "/work";
  path_sep := "/";
  path_resolve := fun root => ("/work/" ++ root)%string;
  path_join := fun dir name => (dir ++ "/" ++ name)%string;
  fs_lookup := fun p =>
    if String.eqb p "/work/src"
    then Some (Directory (Success [("package-lock.json", File)]))
    else None;
  fs_readFileSync := fun _ => Success "lock";
  JSON_parse := fun _ => Success lockUnprintable;
  util_inspect := fun e => ("TypeError: " ++ message e)%string;
  push_limit := Nat.pow 2 16;
  push_error := "Maximum call stack size exceeded"
|}.

(** A selector as a header spells it, in double quotes or bare, and the
    header line of a list of selectors: the selectors separated by a
    comma and a space, and a colon. *)
Definition written (sel : bool * string) : string :=
  if fst sel then quoted (snd sel) else snd sel.

Definition headerLine (sels : list (bool * string)) : string :=
  (join ", " (map written sels) ++ ":")%string.

(** A selector that has no double quote and no comma and does not start
    with white space. *)
Definition plainSelector (s : string) : bool :=
  negb (Str.contains Str.quote s) && negb (Str.contains Str.comma s)
  && stopsAt Str.isSpace s.

(** The pieces of a list after the first, each after a comma and a
    space. *)
Definition commaTail (pieces : list string) : string :=
  fold_right (fun p acc => (", " ++ p ++ acc)%string) "" pieces.

(** The header of a block with three selectors. *)
Definition headerThree : string :=
  headerLine [ (true, "@pkgr/core@^0.1.0"); (false, "is@^3.0.0");
               (true, "synckit@>=0.8 <1") ].

(** A block as the blank lines of a Yarn lockfile separate them: it starts
    with a character that is no line feed, and each of its line feeds is
    followed by a character that is no line feed. *)
Definition isLineFeed (c : ascii) : bool := Ascii.eqb c Str.newline.

Definition startsBlock (b : string) : bool :=
  match b with
  | String c _ => negb (isLineFeed c)
  | EmptyString => false
  end.

Fixpoint compactBlock (b : string) : bool :=
  match b with
  | EmptyString => true
  | String c b' => (negb (isLineFeed c) || startsBlock b') && compactBlock b'
  end.

(** A run of line feeds that separates two blocks: two line feeds or
    more. *)
Definition blankRun (gap : string) : bool :=
  allChars isLineFeed gap && Nat.leb 2 (String.length gap).

(** The text of a lockfile: its first block, then each other block after
    the run of line feeds that separates it from the block before, then
    the end of the text. *)
Definition blocksText (first : string) (others : list (string * string))
    (ending : string) : string :=
  (first ++ fold_right (fun gb acc => (fst gb ++ snd gb ++ acc)%string)
                       ending others)%string.

(** A lockfile in the layout of yarn: the comment at its head, two blank
    lines, and two entries with one blank line between them. *)
Definition lockHead : string :=
  ("# THIS IS AN AUTOGENERATED FILE. DO NOT EDIT THIS FILE DIRECTLY." ++ Str.nl
   ++ "# yarn lockfile v1")%string.

Definition lockEntries : list (string * string) :=
  [ ((Str.nl ++ Str.nl ++ Str.nl)%string,
     ("is@^3.0.0, " ++ quoted "is@^3.3.0" ++ ":" ++ Str.nl
      ++ "  version " ++ quoted "3.3.0")%string);
    ((Str.nl ++ Str.nl)%string,
     (quoted "left-pad@^1.3.0" ++ ":" ++ Str.nl
      ++ "  version " ++ quoted "1.3.0")%string) ].

(** An entry of a Yarn lockfile as yarn writes it: the header line, and on
    the next line, after its indentation, the version line; [tail] is
    what follows.  [entryRows] are the records of the selectors of an
    entry whose names are targets. *)
Definition noFeed (s : string) : bool := negb (Str.contains Str.newline s).

Definition yarnEntry (sels : list (bool * string)) (indent ws v tail : string)
  : string :=
  (headerLine sels ++ Str.nl ++ indent ++ versionLineOf ws v tail)%string.

Definition entryRows (lockfilePath v : string) (sels : list (bool * string))
  : list row :=
  flat_map (fun sel =>
              match selectorToPkgName (snd sel) with
              | Some name =>
                  if TARGETS_has name then [yarnRow lockfilePath v name] else []
              | None => []
              end) sels.

(** The lines after the version line of an entry. *)
Definition resolvedLines : string :=
  (Str.nl ++ "  resolved " ++ quoted "https://registry.yarnpkg.com/is/-/is-3.3.0.tgz"
   ++ Str.nl ++ "  integrity sha512-abc")%string.

(** A host whose engine accepts one argument in a call, to compute with:
    its [src] holds a Yarn lockfile with two records and a manifest with
    one. *)
Definition narrowHost : Host := {|
  process_cwd := "/work";
  path_sep := "/";
  path_resolve := fun root => ("/work/" ++ root)%string;
  path_join := fun dir name => (dir ++ "/" ++ name)%string;
  fs_lookup := fun abs =>
    if String.eqb abs "/work/src"
    then Some (Directory (Success [ ("yarn.lock", File); ("package.json", File) ]))
    else None;
  fs_readFileSync := fun filePath =>
    if String.eqb filePath "/work/src/yarn.lock"
    then Success (blocksText lockHead lockEntries Str.nl)
    else Success "manifest";
  JSON_parse := fun _ => Success manifestSynckit;
  util_inspect := fun e => ("TypeError: " ++ message e)%string;
  push_limit := 1;
  push_error := "Maximum call stack size exceeded"
|}.

(* ===================================================================== *)
(** ** A collation to compute with *)
(* ===================================================================== *)

(** The comparison of strings by code units is a collation. *)
Lemma Ascii_compare_refl a : Ascii.compare a a = Eq.
Proof. unfold Ascii.compare. apply N.compare_refl. Qed.

Lemma String_compare_refl a : String.compare a a = Eq.
Proof.
  induction a as [|x a IH]; simpl; [reflexivity |].
  now rewrite Ascii_compare_refl.
Qed.

Lemma Ascii_compare_trans a b c :
  Ascii.compare a b = Lt -> Ascii.compare b c = Lt -> Ascii.compare a c = Lt.
Proof.
  unfold Ascii.compare. rewrite !N.compare_lt_iff. lia.
Qed.

Lemma String_compare_lt_trans a :
  forall b c, String.compare a b = Lt -> String.compare b c = Lt ->
              String.compare a c = Lt.
Proof.
  induction a as [|x a IH]; intros [|y b] [|z c]; simpl; try discriminate; auto.
  destruct (Ascii.compare x y) eqn:Exy; try discriminate;
    destruct (Ascii.compare y z) eqn:Eyz; try discriminate; intros H1 H2.
  - apply Ascii.compare_eq_iff in Exy, Eyz. subst.
    rewrite Ascii_compare_refl. eauto.
  - apply Ascii.compare_eq_iff in Exy. subst. now rewrite Eyz.
  - apply Ascii.compare_eq_iff in Eyz. subst. now rewrite Exy.
  - now rewrite (Ascii_compare_trans _ _ _ Exy Eyz).
Qed.

Lemma String_compare_le_trans a b c :
  String.compare a b <> Gt -> String.compare b c <> Gt ->
  String.compare a c <> Gt.
Proof.
  destruct (String.compare a b) eqn:Eab; [| | congruence]; intros _;
    destruct (String.compare b c) eqn:Ebc; [| | congruence | | | congruence];
    intros _.
  - apply String.compare_eq_iff in Eab, Ebc. subst.
    rewrite String_compare_refl. discriminate.
  - apply String.compare_eq_iff in Eab. subst. rewrite Ebc. discriminate.
  - apply String.compare_eq_iff in Ebc. subst. rewrite Eab. discriminate.
  - rewrite (String_compare_lt_trans _ _ _ Eab Ebc). discriminate.
Qed.

#[export] Instance codeUnitCollation : Collation := {|
  localeCompare := String.compare;
  localeCompare_refl := String_compare_refl;
  localeCompare_antisym := fun a b => String.compare_antisym b a;
  localeCompare_trans := String_compare_le_trans
|}.

(* ===================================================================== *)
(** ** Rules for the loops *)
(* ===================================================================== *)

Section LoopRules.

Context {A S : Type}.
Variable body : A -> S -> result S.

(** A loop whose body keeps an invariant and never raises ends in a
    state of the invariant. *)
Lemma forOf_rule (I : S -> Prop) (xs : list A) :
  (forall x s, In x xs -> I s -> exists s', body x s = Ok s' /\ I s') ->
  forall s, I s -> exists s', forOf xs body s = Ok s' /\ I s'.
Proof.
  induction xs as [|x xs IH]; intros Hbody s Hs; simpl.
  - now exists s.
  - destruct (Hbody x s (or_introl eq_refl) Hs) as [s1 [E H1]].
    rewrite E. simpl. apply IH; [| exact H1].
    intros y t Hy. apply Hbody. now right.
Qed.

(** The same for a body that may raise. *)
Lemma forOf_invariant (I : S -> Prop) (xs : list A) :
  (forall x s s', In x xs -> I s -> body x s = Ok s' -> I s') ->
  forall s s', I s -> forOf xs body s = Ok s' -> I s'.
Proof.
  induction xs as [|x xs IH]; intros Hbody s s' Hs; simpl.
  - now intros [= <-].
  - destruct (body x s) as [s1|e] eqn:E; simpl; [| discriminate].
    apply IH; [| eapply Hbody; eauto; now left].
    intros y t t' Hy. apply Hbody. now right.
Qed.

Lemma forOf_app (xs ys : list A) s :
  forOf (xs ++ ys) body s = (s' <- forOf xs body s ;; forOf ys body s').
Proof.
  revert s. induction xs as [|x xs IH]; intros s; simpl; [reflexivity |].
  destruct (body x s); simpl; [apply IH | reflexivity].
Qed.

End LoopRules.

(** The loop unfolds by one turn. *)
Lemma whileStack_cons p deps stack results :
  whileStack p (deps :: stack) results =
  match visitDeps p deps (results, stack) with
  | Ok (results', stack') => whileStack p stack' results'
  | Throw e => Throw e
  end.
Proof.
  simp whileStack.
  generalize (inspect (visitDeps p deps (results, stack))).
  intros [[[r s]|er] e]; simp whileStack; rewrite e; reflexivity.
Qed.

(** The rule of the [while] loop: a turn that keeps an invariant of the
    stack and the results and never raises makes the loop end with an
    empty stack. *)
Lemma whileStack_rule p (I : list value -> list row -> Prop) :
  (forall deps stack results,
      I (deps :: stack) results ->
      exists results' stack',
        visitDeps p deps (results, stack) = Ok (results', stack')
        /\ I stack' results') ->
  forall stack results,
    I stack results ->
    exists out, whileStack p stack results = Ok out /\ I [] out.
Proof.
  intros Hturn stack.
  remember (weights stack) as n eqn:Hn. revert stack Hn.
  induction n as [n IH] using lt_wf_ind. intros stack Hn results HI.
  destruct stack as [|deps stack].
  - exists results. now simp whileStack.
  - destruct (Hturn deps stack results HI) as [r' [s' [E HI']]].
    rewrite whileStack_cons, E.
    apply (IH (weights s')); [| reflexivity | exact HI'].
    subst n. eapply visitDeps_weights; eassumption.
Qed.

(* ===================================================================== *)
(** ** Basic facts on values *)
(* ===================================================================== *)

Lemma TARGETS_has_In name : TARGETS_has name = true <-> In name TARGETS.
Proof.
  unfold TARGETS_has. rewrite existsb_exists. split.
  - intros [x [Hx E]]. apply String.eqb_eq in E. now subst.
  - intros H. exists name. split; [exact H | apply String.eqb_refl].
Qed.

Lemma truthy_not_nullish v : truthy v = true -> nullish v = false.
Proof. destruct v; simpl; congruence. Qed.

Lemma Get_ok v k : nullish v = false -> Get v k = Ok (prop v k).
Proof. unfold Get. now intros ->. Qed.

Lemma jsOr_truthy a b : truthy b = true -> truthy (jsOr a b) = true.
Proof. unfold jsOr. destruct (truthy a) eqn:E; auto. Qed.

Lemma Forall_snoc {A : Type} (P : A -> Prop) l x :
  Forall P l -> P x -> Forall P (l ++ [x]).
Proof. intros H1 H2. apply Forall_app. split; [exact H1 | now constructor]. Qed.

Lemma append_assoc a b c : ((a ++ b) ++ c)%string = (a ++ b ++ c)%string.
Proof. induction a as [|x a IH]; simpl; [reflexivity | now rewrite IH]. Qed.

Lemma append_empty_r a : (a ++ "")%string = a.
Proof. induction a as [|x a IH]; simpl; [reflexivity | now rewrite IH]. Qed.

(* ===================================================================== *)
(** ** The npm parser never raises and emits target packages only *)
(* ===================================================================== *)

Lemma packagesStep_rule p packages pkgPath results :
  nullish packages = false ->
  Forall targetRow results ->
  exists results',
    packagesStep p packages pkgPath results = Ok results'
    /\ Forall targetRow results'.
Proof.
  intros Hp Hr. unfold packagesStep.
  rewrite (Get_ok _ _ Hp). simpl.
  set (info := jsOr (prop packages pkgPath) (Obj [])).
  assert (Hi : nullish info = false)
    by (apply truthy_not_nullish, jsOr_truthy; reflexivity).
  rewrite !(Get_ok _ _ Hi). simpl.
  match goal with |- context [truthy ?n && TARGETS_hasValue ?n] => set (name := n) end.
  destruct (truthy name && TARGETS_hasValue name) eqn:E; [| eauto].
  eexists. split; [reflexivity |].
  apply Forall_snoc; [exact Hr |].
  apply andb_true_iff in E. destruct E as [_ E].
  unfold targetRow. simpl. destruct name; try discriminate.
  now apply TARGETS_has_In.
Qed.

Lemma scanPackages_rule lockJson p results :
  Forall targetRow results ->
  exists results',
    scanPackages lockJson p results = Ok results' /\ Forall targetRow results'.
Proof.
  intros Hr. unfold scanPackages.
  destruct (truthy lockJson) eqn:Hl; [| eauto].
  rewrite (Get_ok _ _ (truthy_not_nullish _ Hl)). simpl.
  set (packages := prop lockJson "packages").
  destruct (truthy packages && typeofObject packages) eqn:E; [| eauto].
  apply andb_true_iff in E. destruct E as [Ht _].
  apply truthy_not_nullish in Ht.
  unfold ObjectKeys, ObjectEntries. rewrite Ht. simpl.
  apply forOf_rule with (I := Forall targetRow); [| exact Hr].
  intros k s _ Hs. now apply packagesStep_rule.
Qed.

Lemma dependencyStep_rule p entry results stack :
  stackInvariant stack results ->
  exists results' stack',
    dependencyStep p entry (results, stack) = Ok (results', stack')
    /\ stackInvariant stack' results'.
Proof.
  intros [Hs Hr]. destruct entry as [name meta]. unfold dependencyStep.
  destruct (truthy meta) eqn:Hm; simpl;
    [| exists results, stack; split; [reflexivity | now split]].
  pose proof (truthy_not_nullish _ Hm) as Hn.
  rewrite !(Get_ok _ _ Hn).
  destruct (TARGETS_has name) eqn:Ht; simpl.
  - eexists _, _. split; [reflexivity |]. split.
    + destruct (truthy (prop meta "dependencies")) eqn:Hd; [constructor |]; assumption.
    + apply Forall_snoc; [exact Hr |]. now apply TARGETS_has_In.
  - eexists _, _. split; [reflexivity |]. split; [| exact Hr].
    destruct (truthy (prop meta "dependencies")) eqn:Hd; [constructor |]; assumption.
Qed.

Lemma visitDeps_rule p deps stack results :
  stackInvariant (deps :: stack) results ->
  exists results' stack',
    visitDeps p deps (results, stack) = Ok (results', stack')
    /\ stackInvariant stack' results'.
Proof.
  intros [Hs Hr]. inversion Hs as [|? ? Hd Hs']; subst.
  unfold visitDeps, ObjectEntries.
  rewrite (truthy_not_nullish _ Hd). simpl.
  destruct (forOf_rule (dependencyStep p)
              (fun st => stackInvariant (snd st) (fst st))
              (ownEntries deps)) with (s := (results, stack))
    as [[r' s'] [E H]].
  - intros entry [r s] _ H. simpl in H.
    destruct (dependencyStep_rule p entry r s H) as [r1 [s1 [E1 H1]]].
    exists (r1, s1). now split.
  - now split.
  - now exists r', s'.
Qed.

Lemma scanDependencies_rule lockJson p results :
  Forall targetRow results ->
  exists results',
    scanDependencies lockJson p results = Ok results'
    /\ Forall targetRow results'.
Proof.
  intros Hr. unfold scanDependencies.
  destruct (truthy lockJson) eqn:Hl; [| eauto].
  rewrite (Get_ok _ _ (truthy_not_nullish _ Hl)). simpl.
  set (dependencies := prop lockJson "dependencies").
  destruct (truthy dependencies && typeofObject dependencies) eqn:E; [| eauto].
  apply andb_true_iff in E. destruct E as [Ht _].
  destruct (whileStack_rule p stackInvariant (visitDeps_rule p)
              [dependencies] results) as [out [E [_ H]]].
  - split; [now constructor | exact Hr].
  - now exists out.
Qed.

(** [extractFromNpmLock] returns for every input. *)
Lemma extractFromNpmLock_total lockJson p :
  exists rows, extractFromNpmLock lockJson p = Ok rows /\ Forall targetRow rows.
Proof.
  unfold extractFromNpmLock.
  destruct (scanPackages_rule lockJson p [] (Forall_nil _)) as [r1 [E1 H1]].
  rewrite E1. simpl. now apply scanDependencies_rule.
Qed.

(* ===================================================================== *)
(** ** C1: no parser emits a record of a package outside the target set *)
(* ===================================================================== *)

Lemma fold_left_invariant {A B : Type} (I : B -> Prop) (f : B -> A -> B) l :
  (forall b a, In a l -> I b -> I (f b a)) ->
  forall b, I b -> I (fold_left f l b).
Proof.
  induction l as [|a l IH]; intros Hf b Hb; simpl; [exact Hb |].
  apply IH; [intros; apply Hf; auto; now right |].
  apply Hf; [now left | exact Hb].
Qed.

Lemma selectorStep_targets p v sel results :
  Forall targetRow results -> Forall targetRow (selectorStep p v sel results).
Proof.
  intros H. unfold selectorStep.
  destruct (selectorToPkgName sel) as [name|]; [| exact H].
  destruct (Str.isEmpty name); [exact H |].
  destruct (TARGETS_has name) eqn:E; [| exact H].
  apply Forall_snoc; [exact H | now apply TARGETS_has_In].
Qed.

Lemma blockStep_targets p blockRaw results :
  Forall targetRow results -> Forall targetRow (blockStep p blockRaw results).
Proof.
  intros H. unfold blockStep.
  destruct (Str.isEmpty (Str.trim blockRaw)); [exact H |].
  destruct (_ || _); [exact H |].
  apply fold_left_invariant; [| exact H].
  intros acc sel _. apply selectorStep_targets.
Qed.

Lemma extractFromYarnLockV1_targets text p :
  Forall targetRow (extractFromYarnLockV1 text p).
Proof.
  unfold extractFromYarnLockV1.
  apply fold_left_invariant; [| constructor].
  intros acc blockRaw _. apply blockStep_targets.
Qed.

Lemma rangeStep_targets p isDev isOpt entry results results' :
  Forall targetRow results ->
  rangeStep p isDev isOpt entry results = Ok results' ->
  Forall targetRow results'.
Proof.
  intros H. destruct entry as [name range]. unfold rangeStep.
  destruct (TARGETS_has name) eqn:E; [| now intros [= <-]].
  destruct (ToString _) as [text|e]; simpl; [| discriminate].
  intros [= <-]. apply Forall_snoc; [exact H | now apply TARGETS_has_In].
Qed.

Lemma bucketStep_targets pkgJson p bucket results results' :
  Forall targetRow results ->
  bucketStep pkgJson p bucket results = Ok results' ->
  Forall targetRow results'.
Proof.
  intros H. destruct bucket as [[field isDev] isOpt]. unfold bucketStep.
  destruct (GetOptional pkgJson field) as [deps|e]; simpl; [| discriminate].
  destruct (_ || _); [now intros [= <-] |].
  destruct (ObjectEntries deps) as [entries|e]; simpl; [| discriminate].
  apply forOf_invariant with (I := Forall targetRow); [| exact H].
  intros entry s s' _. apply rangeStep_targets.
Qed.

Lemma extractFromPackageJson_targets pkgJson p :
  Forall targetRow (emitted (extractFromPackageJson pkgJson p)).
Proof.
  destruct (extractFromPackageJson pkgJson p) as [rows|e] eqn:E; simpl;
    [| constructor].
  revert E. unfold extractFromPackageJson.
  apply forOf_invariant with (I := Forall targetRow); [| constructor].
  intros bucket s s' _. apply bucketStep_targets.
Qed.

(** C1. Whatever the input (a JSON value for the two JSON parsers, a text
    for the Yarn parser) and the path, every record a parser emits has a
    [package] that is a member of [TARGETS]; [extractFromNpmLock] and
    [extractFromYarnLockV1] moreover return for every input. *)
Theorem parsers_emit_target_packages_only :
  forall (lockJson pkgJson : value) (text lockfilePath : string),
    (exists rows, extractFromNpmLock lockJson lockfilePath = Ok rows)
    /\ Forall (fun r => In (package r) TARGETS)
              (emitted (extractFromNpmLock lockJson lockfilePath))
    /\ Forall (fun r => In (package r) TARGETS)
              (extractFromYarnLockV1 text lockfilePath)
    /\ Forall (fun r => In (package r) TARGETS)
              (emitted (extractFromPackageJson pkgJson lockfilePath)).
Proof.
  intros lockJson pkgJson text p.
  destruct (extractFromNpmLock_total lockJson p) as [rows [E H]].
  repeat split.
  - now exists rows.
  - rewrite E. exact H.
  - apply extractFromYarnLockV1_targets.
  - apply extractFromPackageJson_targets.
Qed.

(* ===================================================================== *)
(** ** C10: inputs that are not objects *)
(* ===================================================================== *)

Lemma prop_nonObject v k : nonObject v = true -> wordKey k = true -> prop v k = Undefined.
Proof.
  intros Hv Hk. unfold prop.
  destruct v; try discriminate; simpl; try reflexivity.
  now rewrite assoc_indexed_word.
Qed.

Lemma Get_nonObject v k :
  nonObject v = true -> truthy v = true -> wordKey k = true ->
  Get v k = Ok Undefined.
Proof.
  intros Hv Ht Hk. rewrite (Get_ok _ _ (truthy_not_nullish _ Ht)).
  now rewrite prop_nonObject.
Qed.

Lemma GetOptional_nonObject v k :
  nonObject v = true -> wordKey k = true -> GetOptional v k = Ok Undefined.
Proof.
  intros Hv Hk. unfold GetOptional.
  destruct (nullish v) eqn:Hn; [reflexivity |].
  rewrite (Get_ok _ _ Hn). now rewrite prop_nonObject.
Qed.

(** C10. For an input that is not an object ([null], [undefined], a number,
    a string, a boolean), [extractFromNpmLock] and [extractFromPackageJson]
    return the empty sequence of records; neither raises. *)
Theorem non_object_input_returns_no_rows :
  forall (v : value) (lockfilePath manifestPath : string),
    nonObject v = true ->
    extractFromNpmLock v lockfilePath = Ok []
    /\ extractFromPackageJson v manifestPath = Ok [].
Proof.
  intros v p q Hv. split.
  - unfold extractFromNpmLock, scanPackages, scanDependencies.
    destruct (truthy v) eqn:Ht; [| reflexivity].
    rewrite !Get_nonObject by (assumption || reflexivity). reflexivity.
  - unfold extractFromPackageJson, buckets, forOf, bucketStep.
    rewrite !GetOptional_nonObject by (assumption || reflexivity).
    reflexivity.
Qed.

Lemma non_object_input_returns_no_rows_witness :
  nonObject (Str "dependencies") = true
  /\ extractFromNpmLock (Str "dependencies") "package-lock.json" = Ok []
  /\ extractFromPackageJson (Str "dependencies") "package.json" = Ok [].
Proof.
  split; [reflexivity |].
  apply (non_object_input_returns_no_rows (Str "dependencies")). reflexivity.
Defined.

(* ===================================================================== *)
(** ** C5: the name of a Yarn selector *)
(* ===================================================================== *)

Lemma lastIndexOf_lower c s : (-1 <= Str.lastIndexOf c s)%Z.
Proof.
  induction s as [|d s IH]; simpl; [lia |].
  destruct (0 <=? Str.lastIndexOf c s)%Z eqn:E; [lia |].
  destruct (Ascii.eqb d c); lia.
Qed.

Lemma lastIndexOf_absent c s :
  (Str.lastIndexOf c s < 0)%Z <-> Str.contains c s = false.
Proof.
  induction s as [|d s IH]; simpl; [split; [reflexivity | lia] |].
  pose proof (lastIndexOf_lower c s) as L.
  destruct (0 <=? Str.lastIndexOf c s)%Z eqn:E.
  - apply Z.leb_le in E. split; [lia |].
    intros H. apply orb_false_iff in H. destruct H as [_ H].
    apply IH in H. lia.
  - apply Z.leb_gt in E. apply IH in E. rewrite E.
    destruct (Ascii.eqb d c); simpl; split; (reflexivity || lia || discriminate).
Qed.

Lemma lastIndexOf_split c s :
  (0 <= Str.lastIndexOf c s)%Z ->
  exists rest,
    s = (Str.slice0 (Str.lastIndexOf c s) s ++ String c rest)%string
    /\ Str.contains c rest = false.
Proof.
  unfold Str.slice0.
  induction s as [|d s IH]; simpl; [lia |].
  pose proof (lastIndexOf_lower c s) as L.
  destruct (0 <=? Str.lastIndexOf c s)%Z eqn:E.
  - apply Z.leb_le in E. intros _. destruct (IH E) as [rest [Hs Hr]].
    exists rest. split; [| exact Hr].
    replace (Z.to_nat (Str.lastIndexOf c s + 1)) with (S (Z.to_nat (Str.lastIndexOf c s))) by lia.
    simpl. now rewrite <- Hs.
  - apply Z.leb_gt in E.
    destruct (Ascii.eqb_spec d c) as [-> | _]; [| lia].
    intros _. exists s. split; [reflexivity |]. now apply lastIndexOf_absent.
Qed.

Lemma lastIndexOf_app c name rest :
  Str.contains c rest = false ->
  Str.lastIndexOf c (name ++ String c rest)%string = Z.of_nat (String.length name).
Proof.
  intros Hr. induction name as [|d name IH].
  - simpl. apply lastIndexOf_absent in Hr.
    destruct (0 <=? Str.lastIndexOf c rest)%Z eqn:E; [apply Z.leb_le in E; lia |].
    now rewrite Ascii.eqb_refl.
  - cbn [String.append Str.lastIndexOf String.length]. rewrite IH.
    destruct (0 <=? Z.of_nat (String.length name))%Z eqn:E; [lia |].
    apply Z.leb_gt in E. lia.
Qed.

Lemma take_app_length name rest :
  Str.take (String.length name) (name ++ rest)%string = name.
Proof. induction name as [|d name IH]; simpl; [now destruct rest | now rewrite IH]. Qed.

Lemma selectorToPkgName_app selector name rest :
  Str.stripQuotes selector = (name ++ String Str.atSign rest)%string ->
  Str.contains Str.atSign rest = false ->
  selectorToPkgName selector = if Str.isEmpty name then None else Some name.
Proof.
  intros Hs Hr. unfold selectorToPkgName. rewrite Hs.
  rewrite (lastIndexOf_app _ _ _ Hr). unfold Str.slice0.
  rewrite Nat2Z.id, take_app_length.
  destruct name as [|d name]; [reflexivity |]. cbn [Str.isEmpty].
  destruct (_ <=? 0)%Z eqn:E; [| reflexivity].
  apply Z.leb_le in E. simpl String.length in E. lia.
Qed.

Lemma selectorToPkgName_Some selector name :
  selectorToPkgName selector = Some name ->
  Str.isEmpty name = false
  /\ exists rest,
       Str.stripQuotes selector = (name ++ String Str.atSign rest)%string
       /\ Str.contains Str.atSign rest = false.
Proof.
  unfold selectorToPkgName.
  set (s := Str.stripQuotes selector).
  destruct (Str.lastIndexOf Str.atSign s <=? 0)%Z eqn:E; [discriminate |].
  apply Z.leb_gt in E. intros [= <-].
  destruct (lastIndexOf_split Str.atSign s) as [rest [Hs Hr]]; [lia |].
  split; [| now exists rest].
  unfold Str.slice0 in *.
  destruct (Z.to_nat (Str.lastIndexOf Str.atSign s)) eqn:En; [lia |].
  destruct s; [| reflexivity]. simpl in E. lia.
Qed.

Lemma selectorToPkgName_None selector :
  selectorToPkgName selector = None <->
  Str.contains Str.atSign (Str.stripQuotes selector) = false
  \/ exists rest,
       Str.stripQuotes selector = String Str.atSign rest
       /\ Str.contains Str.atSign rest = false.
Proof.
  split.
  - unfold selectorToPkgName.
    set (s := Str.stripQuotes selector).
    destruct (Str.lastIndexOf Str.atSign s <=? 0)%Z eqn:E; [| discriminate].
    apply Z.leb_le in E. intros _.
    destruct (Z.eq_dec (Str.lastIndexOf Str.atSign s) 0) as [E0 | E0].
    + right. destruct (lastIndexOf_split Str.atSign s) as [rest [Hs Hr]]; [lia |].
      rewrite E0 in Hs. now exists rest.
    + left. apply lastIndexOf_absent. lia.
  - intros [H | [rest [Hs Hr]]].
    + unfold selectorToPkgName. apply lastIndexOf_absent in H.
      destruct (_ <=? 0)%Z eqn:E; [reflexivity | apply Z.leb_gt in E; lia].
    + now rewrite (selectorToPkgName_app selector "" rest Hs Hr).
Qed.

Lemma dropTrailing_plain c s :
  Str.contains c s = false -> Str.dropTrailing c s = s.
Proof.
  induction s as [|d s IH]; simpl; [reflexivity |].
  intros H. apply orb_false_iff in H. destruct H as [Hd Hs].
  now rewrite Hd, (IH Hs).
Qed.

Lemma dropTrailing_final c s :
  Str.contains c s = false ->
  Str.dropTrailing c (s ++ String c "")%string = s.
Proof.
  induction s as [|d s IH]; simpl; [now rewrite Ascii.eqb_refl |].
  intros H. apply orb_false_iff in H. destruct H as [Hd Hs].
  now rewrite Hd, (IH Hs).
Qed.

Lemma dropLeading_plain c s :
  Str.contains c s = false -> forall t, Str.dropLeading c (s ++ t)%string
  = if Str.isEmpty s then Str.dropLeading c t else (s ++ t)%string.
Proof.
  destruct s as [|d s]; simpl; [reflexivity |].
  intros H t. apply orb_false_iff in H. destruct H as [Hd _]. now rewrite Hd.
Qed.

Lemma stripQuotes_wrapped s :
  Str.contains Str.quote s = false ->
  Str.stripQuotes s = s /\ Str.stripQuotes (Str.dq ++ s ++ Str.dq)%string = s.
Proof.
  intros H. unfold Str.stripQuotes. split.
  - rewrite <- (append_empty_r s) at 1.
    rewrite (dropLeading_plain _ _ H ""). rewrite append_empty_r.
    destruct s; [reflexivity | now apply dropTrailing_plain].
  - change (Str.dq ++ s ++ Str.dq)%string with (String Str.quote (s ++ Str.dq)).
    cbn [Str.dropLeading]. rewrite Ascii.eqb_refl.
    rewrite (dropLeading_plain _ _ H Str.dq).
    destruct s; [reflexivity | now apply dropTrailing_final].
Qed.

(** C5. With [s] the selector without its wrapping quotes: when [s] has an
    '@', the name is the text before the last one, unless that text is
    empty; a selector without '@', or whose only '@' is its first
    character, has no name and adds no record.  The selector
    [@pkgr/core@^1.0.0] has the name [@pkgr/core], and the block with that
    quoted header gives its record; a header [@invalid:] gives none. *)
Theorem selectorToPkgName_before_last_at :
  forall selector : string,
    (Str.contains Str.quote selector = false ->
     Str.stripQuotes selector = selector
     /\ Str.stripQuotes (Str.dq ++ selector ++ Str.dq)%string = selector)
    /\ (forall name rest,
        Str.stripQuotes selector = (name ++ "@" ++ rest)%string ->
        Str.contains Str.atSign rest = false ->
        selectorToPkgName selector
        = if Str.isEmpty name then None else Some name)
    /\ (forall name,
           selectorToPkgName selector = Some name ->
           Str.isEmpty name = false
           /\ exists rest,
                Str.stripQuotes selector = (name ++ "@" ++ rest)%string
                /\ Str.contains Str.atSign rest = false)
    /\ (selectorToPkgName selector = None <->
        Str.contains Str.atSign (Str.stripQuotes selector) = false
        \/ exists rest,
             Str.stripQuotes selector = ("@" ++ rest)%string
             /\ Str.contains Str.atSign rest = false)
    /\ (selectorToPkgName selector = None ->
        forall lockfilePath version_ results,
          selectorStep lockfilePath version_ selector results = results)
    /\ selectorToPkgName "@pkgr/core@^1.0.0" = Some "@pkgr/core"
    /\ extractFromYarnLockV1 scopedBlock "yarn.lock"
       = [ {| package := "@pkgr/core"; version := Str "1.2.3";
              dev := false; optional := false;
              source := "yarn-lock"; lockfilePath := "yarn.lock" |} ]
    /\ selectorToPkgName "@invalid" = None
    /\ extractFromYarnLockV1 invalidBlock "yarn.lock" = [].
Proof.
  intros selector. split; [apply stripQuotes_wrapped |]. repeat split.
  - intros name rest. apply selectorToPkgName_app.
  - now apply selectorToPkgName_Some in H.
  - now apply selectorToPkgName_Some in H.
  - apply selectorToPkgName_None.
  - apply selectorToPkgName_None.
  - intros H p v results. unfold selectorStep. now rewrite H.
Qed.

Lemma selectorToPkgName_before_last_at_witness :
  Str.stripQuotes (Str.dq ++ "is@^3.0.0" ++ Str.dq) = "is@^3.0.0"
  /\ selectorToPkgName (Str.dq ++ "is@^3.0.0" ++ Str.dq) = Some "is".
Proof.
  split; [reflexivity |].
  destruct (selectorToPkgName_before_last_at (Str.dq ++ "is@^3.0.0" ++ Str.dq))
    as (_ & H & _).
  apply (H "is" "^3.0.0"); reflexivity.
Defined.

(* ===================================================================== *)
(** ** C3: what dedupeRows drops *)
(* ===================================================================== *)

Lemma sepSafe_tail c s : sepSafe (String c s) = true -> sepSafe s = true.
Proof. simpl. intros H. apply andb_true_iff in H. tauto. Qed.

Lemma sepSafe_colon s : sepSafe (String Str.colon s) = true ->
  exists d s', s = String d s' /\ d <> Str.colon.
Proof.
  simpl. destruct s as [|d s']; simpl; [discriminate |].
  intros H. apply andb_true_iff in H. destruct H as [H _].
  exists d, s'. split; [reflexivity |].
  intros ->. discriminate.
Qed.

Lemma append_sep_left a :
  forall a' r r',
    sepSafe a = true -> sepSafe a' = true ->
    (a ++ "::" ++ r)%string = (a' ++ "::" ++ r')%string ->
    a = a' /\ r = r'.
Proof.
  induction a as [|c a IH]; intros [|c' a'] r r' Ha Ha' E.
  - simpl in E. injection E as E. now split.
  - exfalso. simpl in E. injection E as Ec E. subst c'.
    destruct (sepSafe_colon _ Ha') as [d [s' [-> Hd]]].
    simpl in E. injection E as Ed _. now apply Hd.
  - exfalso. simpl in E. injection E as Ec E. subst c.
    destruct (sepSafe_colon _ Ha) as [d [s' [-> Hd]]].
    simpl in E. injection E as Ed _. now apply Hd.
  - simpl in E. injection E as Ec E. subst c'.
    destruct (IH a' r r' (sepSafe_tail _ _ Ha) (sepSafe_tail _ _ Ha') E) as [-> ->].
    now split.
Qed.

Lemma contains_app c a b :
  Str.contains c (a ++ b)%string = Str.contains c a || Str.contains c b.
Proof.
  induction a as [|d a IH]; simpl; [reflexivity |].
  now rewrite IH, orb_assoc.
Qed.

Lemma append_sep_right v :
  forall v' s s',
    noColon s = true -> noColon s' = true ->
    (v ++ "::" ++ s)%string = (v' ++ "::" ++ s')%string ->
    v = v' /\ s = s'.
Proof.
  assert (clash : forall w t t', noColon t = true ->
             t = (w ++ "::" ++ t')%string -> False).
  { intros w t t' Ht E. unfold noColon in Ht. rewrite E in Ht.
    rewrite contains_app in Ht. simpl in Ht.
    rewrite orb_true_r in Ht. discriminate. }
  induction v as [|c v IH]; intros [|c' v'] s s' Hs Hs' E.
  - simpl in E. injection E as E. now split.
  - exfalso. simpl in E. injection E as Ec E. subst c'.
    destruct v' as [|d v'']; simpl in E; injection E as E.
    + unfold noColon in Hs. rewrite E in Hs. simpl in Hs. discriminate.
    + subst d. eapply clash; [exact Hs | exact H].
  - exfalso. simpl in E. injection E as Ec E. subst c.
    destruct v as [|d v'']; simpl in E; injection E as E.
    + unfold noColon in Hs'. rewrite <- E in Hs'. simpl in Hs'. discriminate.
    + subst d. eapply clash; [exact Hs' | symmetry; exact H].
  - simpl in E. injection E as Ec E. subst c'.
    destruct (IH v' s s' Hs Hs' E) as [-> ->]. now split.
Qed.

Lemma rowKey_sameTuple a b : sameTuple a b -> rowKey a = rowKey b.
Proof.
  intros (Hp & Hk & Hv & Hs). unfold rowKey. now rewrite Hp, Hk, Hv, Hs.
Qed.

Lemma rowKey_plain r :
  plainRow r -> exists key, rowKey r = Ok key.
Proof.
  intros ([s Hv] & _). unfold rowKey. rewrite Hv. simpl. eauto.
Qed.

Lemma rowKey_injective a b :
  plainRow a -> plainRow b -> rowKey a = rowKey b -> sameTuple a b.
Proof.
  intros ([sa Hva] & Hpa & Hka & Hsa) ([sb Hvb] & Hpb & Hkb & Hsb).
  unfold rowKey, sameTuple. rewrite Hva, Hvb. simpl. intros [= E].
  apply append_sep_left in E; try assumption. destruct E as [-> E].
  apply append_sep_left in E; try assumption. destruct E as [-> E].
  apply append_sep_right in E; try assumption. destruct E as [-> ->].
  auto.
Qed.

Lemma seenHas_In key seen : seenHas key seen = true <-> In key seen.
Proof.
  unfold seenHas. rewrite existsb_exists. split.
  - intros [x [Hx E]]. apply String.eqb_eq in E. now subst.
  - intros H. exists key. split; [exact H | apply String.eqb_refl].
Qed.

(** The keys [seen] holds after the loop read [rows]. *)
Lemma dedupe_seen rows :
  forall seen out seen' out',
    forOf rows dedupeStep (seen, out) = Ok (seen', out') ->
    forall k, In k seen' <-> In k seen \/ exists r, In r rows /\ rowKey r = Ok k.
Proof.
  induction rows as [|r rows IH]; intros seen out seen' out'; simpl.
  - intros [= <- <-] k. split; [now left | intros [H | [r [[] _]]]; exact H].
  - destruct (rowKey r) as [key|e] eqn:Ek; simpl; [| discriminate].
    destruct (seenHas key seen) eqn:Hs; intros H k; rewrite (IH _ _ _ _ H k).
    + apply seenHas_In in Hs. split.
      * intros [Hk | [x [Hx Ex]]]; [now left | right; exists x; auto].
      * intros [Hk | [x [[<- | Hx] Ex]]]; [now left | | right; exists x; auto].
        left. congruence.
    + simpl. split.
      * intros [[<- | Hk] | [x [Hx Ex]]];
          [right; exists r; auto | now left | right; exists x; auto].
      * intros [Hk | [x [[<- | Hx] Ex]]];
          [left; now right | left; left; congruence | right; exists x; auto].
Qed.

(** The loop only appends to [out]. *)
Lemma dedupe_out_extends rows :
  forall seen out seen' out',
    forOf rows dedupeStep (seen, out) = Ok (seen', out') ->
    exists rest, out' = out ++ rest /\ incl rest rows.
Proof.
  induction rows as [|r rows IH]; intros seen out seen' out'; simpl.
  - intros [= <- <-]. exists []. split; [now rewrite app_nil_r | easy].
  - destruct (rowKey r) as [key|e]; simpl; [| discriminate].
    destruct (seenHas key seen); intros H; apply IH in H;
      destruct H as [rest [-> Hi]].
    + exists rest. split; [reflexivity | now apply incl_tl].
    + exists (r :: rest). split; [now rewrite <- app_assoc |].
      apply incl_cons; [now left | now apply incl_tl].
Qed.

Lemma dedupeRows_snoc pre r :
  dedupeRows (pre ++ [r]) =
  (st <- forOf pre dedupeStep ([], []) ;;
   key <- rowKey r ;;
   Ok (if seenHas key (fst st) then snd st else snd st ++ [r])).
Proof.
  unfold dedupeRows. rewrite forOf_app.
  destruct (forOf pre dedupeStep ([], [])) as [[seen out]|e]; simpl; [| reflexivity].
  destruct (rowKey r) as [key|e]; simpl; [| reflexivity].
  now destruct (seenHas key seen).
Qed.

Lemma dedupeRows_plain rows :
  Forall plainRow rows -> exists out, dedupeRows rows = Ok out.
Proof.
  intros H. unfold dedupeRows.
  destruct (forOf_rule dedupeStep (fun _ => True) rows) with (s := ([] : list string, [] : list row))
    as [st [E _]]; [| exact I | rewrite E; simpl; eauto].
  intros r [seen out] Hr _. rewrite Forall_forall in H.
  destruct (rowKey_plain r (H r Hr)) as [key Ek].
  unfold dedupeStep. rewrite Ek. simpl.
  destruct (seenHas key seen); eauto.
Qed.

(** C3, as the code has it.  On records whose version is a string and whose
    path keeps the separator [::] unambiguous, the record [r] read after the
    records [pre] is dropped if and only if one of [pre] has the same
    4-tuple (lockfilePath, package, version, source), and it is appended to
    the output otherwise, so the first occurrence is the one kept; what was
    decided for [pre] and [r] is not changed by the records [post] read
    later.  The flags are no part of the key: a record that differs from
    an earlier one in [dev] or [optional] only is dropped. *)
Theorem dedupeRows_drops_same_tuple :
  forall (pre : list row) (r : row),
    Forall plainRow (pre ++ [r]) ->
    exists out,
      dedupeRows pre = Ok out
      /\ ((exists r', In r' pre /\ sameTuple r' r) ->
          dedupeRows (pre ++ [r]) = Ok out)
      /\ (~ (exists r', In r' pre /\ sameTuple r' r) ->
          dedupeRows (pre ++ [r]) = Ok (out ++ [r]))
      /\ (forall r' d o,
             In r' pre ->
             r = {| package := package r'; version := version r';
                    dev := d; optional := o;
                    source := source r'; lockfilePath := lockfilePath r' |} ->
             dedupeRows (pre ++ [r]) = Ok out)
      /\ (forall post out',
             dedupeRows (pre ++ r :: post) = Ok out' ->
             exists kept rest,
               dedupeRows (pre ++ [r]) = Ok kept /\ out' = kept ++ rest).
Proof.
  intros pre r Hall.
  apply Forall_app in Hall. destruct Hall as [Hpre Hr].
  inversion Hr as [|? ? Hr' _]; subst. clear Hr. rename Hr' into Hr.
  destruct (dedupeRows_plain pre Hpre) as [out Eout].
  destruct (rowKey_plain r Hr) as [key Ek].
  assert (Erun : exists seen, forOf pre dedupeStep ([], []) = Ok (seen, out)).
  { unfold dedupeRows in Eout.
    destruct (forOf pre dedupeStep ([], [])) as [[seen o]|e]; simpl in Eout;
      [| discriminate].
    injection Eout as ->. now exists seen. }
  destruct Erun as [seen Erun].
  assert (Hseen : seenHas key seen = true <-> exists r', In r' pre /\ sameTuple r' r).
  { rewrite seenHas_In, (dedupe_seen pre _ _ _ _ Erun key). split.
    - intros [[] | [r' [Hin Ek']]]. exists r'. split; [exact Hin |].
      rewrite Forall_forall in Hpre.
      apply rowKey_injective; [now apply Hpre | exact Hr | congruence].
    - intros [r' [Hin Hsame]]. right. exists r'. split; [exact Hin |].
      now rewrite (rowKey_sameTuple _ _ Hsame). }
  assert (Hdrop : (exists r', In r' pre /\ sameTuple r' r) ->
                  dedupeRows (pre ++ [r]) = Ok out).
  { intros H. apply Hseen in H.
    rewrite dedupeRows_snoc, Erun. simpl. rewrite Ek. simpl. now rewrite H. }
  exists out. split; [exact Eout |]. split; [exact Hdrop |]. split; [| split].
  - intros H. rewrite dedupeRows_snoc, Erun. simpl. rewrite Ek. simpl.
    destruct (seenHas key seen) eqn:E; [| reflexivity].
    exfalso. apply H. now apply Hseen.
  - intros r' d o Hin ->. apply Hdrop. exists r'. split; [exact Hin |].
    now repeat split.
  - intros post out'. replace (pre ++ r :: post) with ((pre ++ [r]) ++ post)
      by (now rewrite <- app_assoc).
    unfold dedupeRows at 1. rewrite forOf_app.
    unfold dedupeRows.
    destruct (forOf (pre ++ [r]) dedupeStep ([], [])) as [[seen1 out1]|e];
      simpl; [| discriminate].
    destruct (forOf post dedupeStep (seen1, out1)) as [[seen2 out2]|e] eqn:E2;
      simpl; [| discriminate].
    intros [= <-]. apply dedupe_out_extends in E2.
    destruct E2 as [rest [-> _]]. now exists out1, rest.
Qed.

Lemma dedupeRows_drops_same_tuple_witness :
  Forall plainRow ([isRuntime] ++ [isDevelopment])
  /\ exists out,
       dedupeRows [isRuntime] = Ok out
       /\ dedupeRows ([isRuntime] ++ [isDevelopment]) = Ok out.
Proof.
  assert (H : Forall plainRow ([isRuntime] ++ [isDevelopment])).
  { repeat constructor; simpl; eauto. }
  split; [exact H |].
  destruct (dedupeRows_drops_same_tuple [isRuntime] isDevelopment H)
    as [out [E [Hdrop _]]].
  exists out. split; [exact E |].
  apply Hdrop. exists isRuntime. split; [now left |]. now repeat split.
Defined.

(** C3 as stated fails: the two records of a package declared with one
    range under both [dependencies] and [devDependencies] differ in [dev]
    only, and the second one is dropped. *)
Lemma dedupeRows_drops_dev_variant :
  extractFromPackageJson manifestTwice "package.json"
  = Ok [isRuntime; isDevelopment]
  /\ dev isRuntime <> dev isDevelopment
  /\ dedupeRows [isRuntime; isDevelopment] = Ok [isRuntime].
Proof.
  split; [reflexivity |]. split; [discriminate | reflexivity].
Qed.

(* ===================================================================== *)
(** ** C2 and C4: the sort of [main] and the aggregator *)
(* ===================================================================== *)

Section SortFacts.

Context `{C : Collation}.

Lemma compareRows_refl a : compareRows a a = Eq.
Proof.
  unfold compareRows. rewrite String.eqb_refl. apply localeCompare_refl.
Qed.

Lemma compareRows_antisym a b : compareRows b a = CompOpp (compareRows a b).
Proof.
  unfold compareRows. rewrite (String.eqb_sym (package b)).
  destruct (String.eqb (package a) (package b)); apply localeCompare_antisym.
Qed.

Lemma rowLe_total a b : rowLe a b \/ rowLe b a.
Proof.
  unfold rowLe. rewrite (compareRows_antisym a b).
  destruct (compareRows a b); simpl; [left | left | right]; discriminate.
Qed.

Lemma insertRow_perm r l : Permutation (r :: l) (insertRow r l).
Proof.
  induction l as [|x l IH]; simpl; [apply Permutation_refl |].
  destruct (compareRows r x); try apply Permutation_refl.
  eapply perm_trans; [apply perm_swap | now apply perm_skip].
Qed.

Lemma sortRows_perm l : Permutation l (sortRows l).
Proof.
  induction l as [|r l IH]; simpl; [constructor |].
  eapply perm_trans; [apply perm_skip, IH | apply insertRow_perm].
Qed.

(** A row that is no later than the head of an ordered list stays in
    front. *)
Lemma insertRow_front r l :
  Forall (rowLe r) l -> insertRow r l = r :: l.
Proof.
  destruct l as [|x l]; [reflexivity |].
  intros H. inversion H as [|? ? Hx _]; subst. simpl.
  unfold rowLe in Hx. now destruct (compareRows r x).
Qed.

Lemma sortRows_sorted_id l : StronglySorted rowLe l -> sortRows l = l.
Proof.
  induction 1 as [|r l Hs IH Hr]; simpl; [reflexivity |].
  rewrite IH. now apply insertRow_front.
Qed.

Variable names : list string.
Hypothesis Hsep : separates names.

Lemma rowLe_trans a b c :
  packageIn names a -> packageIn names b -> packageIn names c ->
  rowLe a b -> rowLe b c -> rowLe a c.
Proof.
  unfold rowLe, compareRows, packageIn. intros Ha Hb Hc.
  destruct (String.eqb_spec (package a) (package b)) as [Eab | Nab];
    destruct (String.eqb_spec (package b) (package c)) as [Ebc | Nbc];
    destruct (String.eqb_spec (package a) (package c)) as [Eac | Nac];
    try congruence.
  - apply localeCompare_trans.
  - intros H1 H2. exfalso. apply Nab. apply Hsep; try assumption.
    rewrite <- Eac in H2.
    rewrite (localeCompare_antisym (package a) (package b)) in H2.
    destruct (localeCompare (package a) (package b)); simpl in *; congruence.
  - apply localeCompare_trans.
Qed.

Lemma tied_trans a b c :
  packageIn names a -> packageIn names b -> packageIn names c ->
  tied a b = true -> tied a c = true -> tied b c = true.
Proof.
  unfold tied. intros Ha Hb Hc Hab Hac.
  destruct (compareRows a b) eqn:Eab; try discriminate.
  destruct (compareRows a c) eqn:Eac; try discriminate.
  assert (Hba : rowLe b a).
  { unfold rowLe. rewrite (compareRows_antisym a b), Eab. discriminate. }
  assert (Hca : rowLe c a).
  { unfold rowLe. rewrite (compareRows_antisym a c), Eac. discriminate. }
  assert (H1 : rowLe b c).
  { apply (rowLe_trans b a c); try assumption. unfold rowLe. now rewrite Eac. }
  assert (H2 : rowLe c b).
  { apply (rowLe_trans c a b); try assumption. unfold rowLe. now rewrite Eab. }
  unfold rowLe in H1, H2. rewrite (compareRows_antisym b c) in H2.
  destruct (compareRows b c); simpl in *; congruence.
Qed.

Lemma insertRow_sorted r l :
  packageIn names r -> Forall (packageIn names) l ->
  StronglySorted rowLe l -> StronglySorted rowLe (insertRow r l).
Proof.
  intros Hr Hl Hs. induction Hs as [|x l Hs IH Hx]; simpl.
  - repeat constructor.
  - inversion Hl as [|? ? Htx Htl]; subst.
    destruct (compareRows r x) eqn:E.
    + constructor; [now constructor |].
      constructor; [unfold rowLe; now rewrite E |].
      rewrite Forall_forall in *. intros y Hy.
      apply (rowLe_trans r x y); auto. unfold rowLe. now rewrite E.
    + constructor; [now constructor |].
      constructor; [unfold rowLe; now rewrite E |].
      rewrite Forall_forall in *. intros y Hy.
      apply (rowLe_trans r x y); auto. unfold rowLe. now rewrite E.
    + constructor; [now apply IH |].
      apply (Permutation_Forall (insertRow_perm r l)).
      constructor; [| exact Hx].
      unfold rowLe. rewrite (compareRows_antisym r x), E. discriminate.
Qed.

Lemma sortRows_packageIn l : Forall (packageIn names) l -> Forall (packageIn names) (sortRows l).
Proof. apply Permutation_Forall, sortRows_perm. Qed.

Lemma sortRows_sorted l :
  Forall (packageIn names) l -> StronglySorted rowLe (sortRows l).
Proof.
  induction l as [|r l IH]; intros H; simpl; [constructor |].
  inversion H; subst.
  apply insertRow_sorted; auto using sortRows_packageIn.
Qed.

(** Stability: the rows that tie with [r] keep their order. *)
Lemma insertRow_stable r x l :
  packageIn names r -> packageIn names x -> Forall (packageIn names) l ->
  filter (tied r) (insertRow x l) = filter (tied r) (x :: l).
Proof.
  intros Hr Hx Hl. induction l as [|y l IH]; [reflexivity |].
  inversion Hl as [|? ? Hy Hl']; subst.
  cbn [insertRow]. destruct (compareRows x y) eqn:E; try reflexivity.
  cbn [filter]. rewrite (IH Hl'). cbn [filter].
  destruct (tied r x) eqn:Tx; [| reflexivity].
  destruct (tied r y) eqn:Ty; [| reflexivity].
  exfalso. pose proof (tied_trans r x y Hr Hx Hy Tx Ty) as T.
  unfold tied in T. now rewrite E in T.
Qed.

Lemma sortRows_stable r l :
  packageIn names r -> Forall (packageIn names) l ->
  filter (tied r) (sortRows l) = filter (tied r) l.
Proof.
  intros Hr Hl. induction l as [|x l IH]; [reflexivity |].
  inversion Hl; subst. cbn [sortRows].
  rewrite insertRow_stable; auto using sortRows_packageIn.
  cbn [filter]. now rewrite IH.
Qed.

(** Two ordered lists with the same members are the same list when no two
    different members tie. *)
Lemma sorted_perm_unique l1 :
  forall l2,
    (forall a b, In a l1 -> In b l1 -> compareRows a b = Eq -> a = b) ->
    StronglySorted rowLe l1 -> StronglySorted rowLe l2 ->
    Permutation l1 l2 -> l1 = l2.
Proof.
  induction l1 as [|a l1 IH]; intros l2 Hanti H1 H2 HP.
  - apply Permutation_nil in HP. now subst.
  - destruct l2 as [|b l2]; [apply Permutation_sym, Permutation_nil in HP; discriminate |].
    apply StronglySorted_inv in H1, H2.
    destruct H1 as [H1 Ha], H2 as [H2 Hb].
    assert (Hab : a = b).
    { assert (Hina : In a (b :: l2)) by (apply (Permutation_in _ HP); now left).
      assert (Hinb : In b (a :: l1))
        by (apply (Permutation_in _ (Permutation_sym HP)); now left).
      destruct Hina as [-> | Hina]; [reflexivity |].
      destruct Hinb as [-> | Hinb]; [reflexivity |].
      rewrite Forall_forall in Ha, Hb.
      specialize (Ha b Hinb). specialize (Hb a Hina).
      apply Hanti; [now left | now right |].
      unfold rowLe in Ha, Hb. rewrite (compareRows_antisym a b) in Hb.
      destruct (compareRows a b); simpl in *; congruence. }
    subst b. f_equal. apply IH; auto.
    + intros x y Hx Hy. apply Hanti; now right.
    + now apply Permutation_cons_inv in HP.
Qed.

End SortFacts.

(** *** What the loop of dedupeRows leaves *)

Lemma dedupe_run rows :
  forall seen out seen' out',
    forOf rows dedupeStep (seen, out) = Ok (seen', out') ->
    exists rest keys,
      out' = out ++ rest
      /\ seen' = rev keys ++ seen
      /\ Forall2 keyed rest keys
      /\ NoDup keys
      /\ (forall k, In k keys -> ~ In k seen)
      /\ incl rest rows
      /\ (forall R : row -> row -> Prop,
             StronglySorted R rows -> StronglySorted R rest).
Proof.
  induction rows as [|r rows IH]; intros seen out seen' out'; simpl.
  - intros [= <- <-]. exists [], []. rewrite app_nil_r.
    repeat split; auto; try constructor. easy.
  - destruct (rowKey r) as [key|e] eqn:Ek; simpl; [| discriminate].
    destruct (seenHas key seen) eqn:Hs; intros H; apply IH in H;
      destruct H as (rest & keys & -> & -> & Hk & Hnd & Hfresh & Hincl & Hsort).
    + exists rest, keys. repeat split; auto.
      * now apply incl_tl.
      * intros R HR. apply Hsort. now apply StronglySorted_inv in HR.
    + exists (r :: rest), (key :: keys). repeat split.
      * now rewrite <- app_assoc.
      * simpl. now rewrite <- app_assoc.
      * now constructor.
      * constructor; [| exact Hnd]. intros Hin. apply (Hfresh key Hin). now left.
      * intros k [<- | Hin].
        -- intros Hin. apply seenHas_In in Hin. congruence.
        -- intros Hin'. apply (Hfresh k Hin). now right.
      * apply incl_cons; [now left | now apply incl_tl].
      * intros R HR. apply StronglySorted_inv in HR. destruct HR as [HR Hr].
        constructor; [now apply Hsort |].
        rewrite Forall_forall in *. intros y Hy. apply Hr, Hincl, Hy.
Qed.

Lemma dedupe_fixed rows :
  forall keys seen out,
    Forall2 keyed rows keys -> NoDup keys ->
    (forall k, In k keys -> ~ In k seen) ->
    forOf rows dedupeStep (seen, out) = Ok (rev keys ++ seen, out ++ rows).
Proof.
  induction rows as [|r rows IH]; intros keys seen out HF Hnd Hfresh;
    inversion HF as [|? k ? keys' Hk HF']; subst; simpl.
  - now rewrite app_nil_r.
  - unfold keyed in Hk. rewrite Hk. simpl.
    destruct (seenHas k seen) eqn:Hs.
    + apply seenHas_In in Hs. exfalso. apply (Hfresh k); [now left | exact Hs].
    + inversion Hnd as [|? ? Hnk Hnd']; subst. cbn [bind].
      rewrite (IH keys' (k :: seen) (out ++ [r]) HF' Hnd').
      * now rewrite <- !app_assoc.
      * intros k' Hin [<- | Hin']; [contradiction |].
        apply (Hfresh k'); [now right | exact Hin'].
Qed.

Lemma dedupeRows_inv rows out :
  dedupeRows rows = Ok out ->
  exists keys,
    Forall2 keyed out keys /\ NoDup keys /\ incl out rows
    /\ (forall R : row -> row -> Prop,
           StronglySorted R rows -> StronglySorted R out).
Proof.
  unfold dedupeRows.
  destruct (forOf rows dedupeStep ([], [])) as [[seen o]|e] eqn:E; simpl;
    [| discriminate].
  intros [= <-]. apply dedupe_run in E.
  destruct E as (rest & keys & -> & _ & Hk & Hnd & _ & Hincl & Hsort).
  now exists keys.
Qed.

(** Deduplication alone is idempotent. *)
Lemma dedupeRows_idempotent rows out :
  dedupeRows rows = Ok out -> dedupeRows out = Ok out.
Proof.
  intros H. apply dedupeRows_inv in H. destruct H as (keys & Hk & Hnd & _).
  unfold dedupeRows. now rewrite (dedupe_fixed out keys [] [] Hk Hnd).
Qed.

Section AggregatorFacts.

Context `{C : Collation}.

Lemma rowLe_keyOrder a b : rowLe a b <-> keyOrder a b.
Proof.
  unfold rowLe, keyOrder, compareRows.
  destruct (String.eqb_spec (package a) (package b)) as [E | N].
  - rewrite E, localeCompare_refl. split; [| tauto].
    intros H. split; [discriminate | auto].
  - tauto.
Qed.

Lemma StronglySorted_iff {A : Type} (R1 R2 : A -> A -> Prop) l :
  (forall a b, R1 a b <-> R2 a b) -> StronglySorted R1 l -> StronglySorted R2 l.
Proof.
  intros HR. induction 1 as [|a l Hs IH Ha]; constructor; [exact IH |].
  rewrite Forall_forall in *. intros b Hb. apply HR, Ha, Hb.
Qed.

Lemma packageIn_own rows : Forall (packageIn (map package rows)) rows.
Proof.
  apply Forall_forall. intros r Hr. unfold packageIn. now apply in_map.
Qed.

(** A collation that separates the target names separates the package
    names of the records the parsers emit. *)
Lemma separates_target_rows rows :
  separates TARGETS -> Forall targetRow rows -> separates (map package rows).
Proof.
  intros Hsep Hrows p q Hp Hq. rewrite Forall_forall in Hrows.
  apply in_map_iff in Hp, Hq.
  destruct Hp as [a [<- Ha]], Hq as [b [<- Hb]].
  apply Hsep; now apply Hrows.
Qed.

(** C2, as the code has it.  On records whose package names the collation
    tells apart, the comparator of the sort is a total preorder given by
    [package] first and [lockfilePath] on equal packages, both under
    [localeCompare]; it is not a total order of the records, since records
    of one package and one file tie.  The sorted rows are an ordered
    permutation of the input in which the records that tie keep their
    input order.  Sorting again changes nothing.  Two permutations of the
    same records give permutations of one another, and the same sequence
    when no two different records tie. *)
Theorem sortRows_stable_order :
  forall rows : list row,
    separates (map package rows) ->
    (forall a b, keyOrder a b \/ keyOrder b a)
    /\ (forall a b c, In a rows -> In b rows -> In c rows ->
                      keyOrder a b -> keyOrder b c -> keyOrder a c)
    /\ Permutation rows (sortRows rows)
    /\ StronglySorted keyOrder (sortRows rows)
    /\ (forall r, In r rows ->
                  filter (tied r) (sortRows rows) = filter (tied r) rows)
    /\ sortRows (sortRows rows) = sortRows rows
    /\ (forall rows',
           Permutation rows rows' ->
           Permutation (sortRows rows) (sortRows rows')
           /\ ((forall a b, In a rows -> In b rows ->
                            compareRows a b = Eq -> a = b) ->
               sortRows rows' = sortRows rows)).
Proof.
  intros rows Hsep.
  pose proof (packageIn_own rows) as Hrows.
  assert (Hin : forall r, In r rows -> packageIn (map package rows) r)
    by (now apply Forall_forall).
  split; [| split; [| split; [| split; [| split; [| split]]]]].
  - intros a b. rewrite <- !rowLe_keyOrder. apply rowLe_total.
  - intros a b c Ha Hb Hc. rewrite <- !rowLe_keyOrder.
    apply (rowLe_trans _ Hsep); auto.
  - apply sortRows_perm.
  - apply (StronglySorted_iff rowLe); [apply rowLe_keyOrder |].
    now apply (sortRows_sorted _ Hsep).
  - intros r Hr. apply (sortRows_stable _ Hsep); auto.
  - apply sortRows_sorted_id. now apply (sortRows_sorted _ Hsep).
  - intros rows' HP.
    assert (HP' : Permutation (sortRows rows) (sortRows rows')).
    { eapply perm_trans; [apply Permutation_sym, sortRows_perm |].
      eapply perm_trans; [exact HP | apply sortRows_perm]. }
    split; [exact HP' |].
    intros Hanti. symmetry.
    assert (Hrows' : Forall (packageIn (map package rows)) rows')
      by (eapply Permutation_Forall; eassumption).
    apply sorted_perm_unique; try (now apply (sortRows_sorted _ Hsep));
      [| exact HP'].
    intros a b Ha Hb. apply Hanti;
      eapply Permutation_in; try eassumption; apply Permutation_sym, sortRows_perm.
Qed.

(** C4. The aggregator, the sort followed by dedupeRows, returns its own
    output unchanged when it is run on it, for every list of records whose
    package names the collation tells apart. *)
Theorem aggregate_idempotent :
  forall rows out : list row,
    separates (map package rows) ->
    aggregate rows = Ok out ->
    aggregate out = Ok out.
Proof.
  intros rows out Hsep. unfold aggregate. intros H.
  pose proof (dedupeRows_idempotent _ _ H) as Hid.
  apply dedupeRows_inv in H. destruct H as (keys & _ & _ & _ & Hsort).
  rewrite sortRows_sorted_id; [exact Hid |].
  apply Hsort. apply (sortRows_sorted _ Hsep), packageIn_own.
Qed.

End AggregatorFacts.

Lemma codeUnitCollation_separates names : separates names.
Proof. intros p q _ _. apply String.compare_eq_iff. Qed.

(** *** The sort and the aggregator on a lockfile with two versions of [is] *)

Lemma sortRows_stable_order_witness :
  separates (map package [is330; core123; is200; is330])
  /\ sortRows [is330; core123; is200; is330] = [core123; is330; is200; is330]
  /\ sortRows (sortRows [is330; core123; is200; is330])
     = sortRows [is330; core123; is200; is330].
Proof.
  split; [apply codeUnitCollation_separates |]. split; [reflexivity |].
  destruct (sortRows_stable_order [is330; core123; is200; is330]
              (codeUnitCollation_separates _))
    as (_ & _ & _ & _ & _ & Hid & _).
  exact Hid.
Defined.

(** C2 as stated fails: the two versions of [is] that one lockfile holds
    tie on both keys, the stable sort leaves them in their input order, and
    the two orders of the same two records give two different outputs, of
    the sort and of the aggregator. *)
Lemma sortRows_keeps_input_order_of_ties :
  extractFromNpmLock lockTwoVersions "package-lock.json" = Ok [is330; is200]
  /\ Permutation [is330; is200] [is200; is330]
  /\ sortRows [is330; is200] = [is330; is200]
  /\ sortRows [is200; is330] = [is200; is330]
  /\ sortRows [is330; is200] <> sortRows [is200; is330]
  /\ aggregate [is330; is200] = Ok [is330; is200]
  /\ aggregate [is200; is330] = Ok [is200; is330].
Proof.
  split; [reflexivity |]. split; [apply perm_swap |].
  split; [reflexivity |]. split; [reflexivity |].
  split; [discriminate |]. split; reflexivity.
Qed.

Lemma aggregate_idempotent_witness :
  separates (map package [is330; core123; is200; is330])
  /\ aggregate [is330; core123; is200; is330] = Ok [core123; is330; is200]
  /\ aggregate [core123; is330; is200] = Ok [core123; is330; is200].
Proof.
  split; [apply codeUnitCollation_separates |]. split; [reflexivity |].
  apply (aggregate_idempotent [is330; core123; is200; is330] _
           (codeUnitCollation_separates _)).
  reflexivity.
Defined.

(* ===================================================================== *)
(** ** C9: the version of a Yarn block *)
(* ===================================================================== *)

Lemma prefix_app p s :
  String.prefix p s = true <-> exists r, s = (p ++ r)%string.
Proof.
  revert s. induction p as [|a p IH]; intros s.
  - split; [intros _; now exists s | intros _; now destruct s].
  - destruct s as [|b s']; simpl; [split; [discriminate | intros [r [=]]] |].
    destruct (ascii_dec a b) as [<- | N].
    + rewrite IH. split; intros [r E]; exists r; [now rewrite E | now injection E].
    + split; [discriminate | intros [r E]; injection E as E _; congruence].
Qed.

Lemma takeWhile_dropWhile p s :
  s = (Str.takeWhile p s ++ Str.dropWhile p s)%string.
Proof.
  induction s as [|c s IH]; simpl; [reflexivity |].
  destruct (p c); simpl; [now rewrite <- IH | reflexivity].
Qed.

Lemma takeWhile_all p s : allChars p (Str.takeWhile p s) = true.
Proof.
  induction s as [|c s IH]; simpl; [reflexivity |].
  destruct (p c) eqn:E; simpl; [now rewrite E | reflexivity].
Qed.

Lemma dropWhile_stops p s : stopsAt p (Str.dropWhile p s) = true.
Proof.
  induction s as [|c s IH]; simpl; [reflexivity |].
  destruct (p c) eqn:E; simpl; [exact IH | now rewrite E].
Qed.

Lemma takeWhile_app p a b :
  allChars p a = true -> stopsAt p b = true ->
  Str.takeWhile p (a ++ b)%string = a /\ Str.dropWhile p (a ++ b)%string = b.
Proof.
  intros Ha Hb. induction a as [|c a IH]; simpl.
  - destruct b as [|d b]; simpl in *; [now split |].
    apply negb_true_iff in Hb. now rewrite Hb.
  - simpl in Ha. apply andb_true_iff in Ha. destruct Ha as [Hc Ha].
    rewrite Hc. destruct (IH Ha) as [-> ->]. now split.
Qed.

Lemma matchVersion_Some line v :
  matchVersion line = Some v <->
  exists ws rest, line = versionLineOf ws v rest /\ wellFormedVersion ws v.
Proof.
  unfold matchVersion, versionLineOf, wellFormedVersion. split.
  - destruct (Str.startsWith "version" line) eqn:Hp; [| discriminate].
    apply prefix_app in Hp. destruct Hp as [afterWord ->].
    change (Str.drop 7 ("version" ++ afterWord)) with afterWord.
    pose proof (takeWhile_dropWhile Str.isSpace afterWord) as Ews.
    pose proof (takeWhile_all Str.isSpace afterWord) as Hws.
    destruct (Str.isEmpty (Str.takeWhile Str.isSpace afterWord)) eqn:Hne;
      [discriminate |].
    destruct (Str.dropWhile Str.isSpace afterWord) as [|c afterQuote] eqn:Ed;
      [discriminate |].
    destruct (Ascii.eqb_spec c Str.quote) as [-> | _]; [| discriminate].
    pose proof (takeWhile_dropWhile notQuote afterQuote) as Ev.
    pose proof (takeWhile_all notQuote afterQuote) as Hv.
    destruct (Str.isEmpty (Str.takeWhile notQuote afterQuote)) eqn:Hvne;
      [discriminate |].
    destruct (Str.startsWith Str.dq (Str.dropWhile notQuote afterQuote)) eqn:Hq;
      [| discriminate].
    apply prefix_app in Hq. destruct Hq as [rest Hq].
    intros [= <-].
    exists (Str.takeWhile Str.isSpace afterWord), rest.
    split; [| auto].
    rewrite Ews at 1. rewrite Ev at 1. rewrite Hq. reflexivity.
  - intros (ws & rest & -> & Hws & Hne & Hv & Hvne).
    assert (Hp : Str.startsWith "version"
                   ("version" ++ ws ++ Str.dq ++ v ++ Str.dq ++ rest) = true)
      by (apply prefix_app; eauto).
    rewrite Hp.
    change (Str.drop 7 ("version" ++ ws ++ Str.dq ++ v ++ Str.dq ++ rest))
      with (ws ++ Str.dq ++ v ++ Str.dq ++ rest)%string.
    destruct (takeWhile_app Str.isSpace ws (Str.dq ++ v ++ Str.dq ++ rest)%string
                Hws eq_refl) as [-> ->].
    rewrite Hne.
    change (Str.dq ++ v ++ Str.dq ++ rest)%string
      with (String Str.quote (v ++ Str.dq ++ rest)).
    cbv beta iota. rewrite Ascii.eqb_refl.
    destruct (takeWhile_app notQuote v (Str.dq ++ rest)%string Hv eq_refl)
      as [-> ->].
    rewrite Hvne.
    assert (Hq : Str.startsWith Str.dq (Str.dq ++ rest) = true)
      by (apply prefix_app; eauto).
    now rewrite Hq.
Qed.

Lemma find_none_all {A : Type} (p : A -> bool) l :
  (forall x, In x l -> p x = false) -> find p l = None.
Proof.
  induction l as [|x l IH]; intros H; simpl; [reflexivity |].
  rewrite (H x (or_introl eq_refl)). apply IH. intros y Hy. apply H. now right.
Qed.

Lemma find_first {A : Type} (p : A -> bool) pre x post :
  (forall y, In y pre -> p y = false) -> p x = true ->
  find p (pre ++ x :: post) = Some x.
Proof.
  induction pre as [|y pre IH]; intros H Hx; simpl; [now rewrite Hx |].
  rewrite (H y (or_introl eq_refl)). apply IH; [| exact Hx].
  intros z Hz. apply H. now right.
Qed.

Lemma selectorStep_acc p v sel results :
  selectorStep p v sel results = results ++ selectorStep p v sel [].
Proof.
  unfold selectorStep.
  destruct (selectorToPkgName sel) as [name|]; [| now rewrite app_nil_r].
  destruct (Str.isEmpty name); [now rewrite app_nil_r |].
  destruct (TARGETS_has name); [reflexivity | now rewrite app_nil_r].
Qed.

Lemma fold_left_flat_map {A B : Type} (f : list B -> A -> list B) l :
  (forall acc a, f acc a = acc ++ f [] a) ->
  forall acc, fold_left f l acc = acc ++ flat_map (f []) l.
Proof.
  intros Hf. induction l as [|a l IH]; intros acc; simpl.
  - now rewrite app_nil_r.
  - rewrite IH, (Hf acc a). now rewrite <- app_assoc.
Qed.

Lemma blockStep_acc p blockRaw results :
  blockStep p blockRaw results = results ++ blockStep p blockRaw [].
Proof.
  unfold blockStep.
  destruct (Str.isEmpty (Str.trim blockRaw)); [now rewrite app_nil_r |].
  destruct (_ || _); [now rewrite app_nil_r |].
  rewrite !(fold_left_flat_map _ _ (fun acc sel => selectorStep_acc p _ sel acc)).
  reflexivity.
Qed.

(** The rows of a text are the rows of its blocks, in order. *)
Lemma extractFromYarnLockV1_blocks text p :
  extractFromYarnLockV1 text p
  = flat_map (fun blockRaw => blockStep p blockRaw []) (Str.splitBlankLines text).
Proof.
  unfold extractFromYarnLockV1.
  now rewrite (fold_left_flat_map _ _ (fun acc b => blockStep_acc p b acc)).
Qed.

(** C9, as the code has it.  The version of a block is taken from the first
    of its lines that begins with [version ] only: it is the text between
    the double quotes when that line is the word, white space and a
    non-empty double-quoted text, and the empty string when that line has
    another form.  It is the empty string when no line begins with
    [version ], and the selectors of such a block are all processed: each
    selector whose name is a target gives a record with the empty
    version. *)
Theorem blockVersion_first_version_line :
  forall lines : list string,
    ((forall l, In l lines -> Str.startsWith "version " l = false) ->
     blockVersion lines = "")
    /\ (forall pre l post,
           lines = pre ++ l :: post ->
           (forall x, In x pre -> Str.startsWith "version " x = false) ->
           Str.startsWith "version " l = true ->
           (forall ws v rest,
               l = versionLineOf ws v rest -> wellFormedVersion ws v ->
               blockVersion lines = v)
           /\ ((forall ws v rest,
                   l = versionLineOf ws v rest -> ~ wellFormedVersion ws v) ->
               blockVersion lines = ""))
    /\ (forall lockfilePath blockRaw,
           lines = blockLines blockRaw ->
           blockRead blockRaw = true ->
           blockStep lockfilePath blockRaw []
           = flat_map (fun sel => selectorStep lockfilePath (blockVersion lines) sel [])
                      (headerSelectors (hd "" lines))
           /\ ((forall l, In l lines -> Str.startsWith "version " l = false) ->
               forall sel name,
                 In sel (headerSelectors (hd "" lines)) ->
                 selectorToPkgName sel = Some name ->
                 TARGETS_has name = true ->
                 In (yarnRow lockfilePath "" name)
                    (blockStep lockfilePath blockRaw []))).
Proof.
  intros lines. split; [| split].
  - intros H. unfold blockVersion. now rewrite (find_none_all _ _ H).
  - intros pre l post -> Hpre Hl. unfold blockVersion.
    rewrite (find_first _ pre l post Hpre Hl). split.
    + intros ws v rest El Hwf.
      assert (Hm : matchVersion l = Some v)
        by (apply matchVersion_Some; now exists ws, rest).
      now rewrite Hm.
    + intros Hno. destruct (matchVersion l) as [v|] eqn:Hm; [| reflexivity].
      apply matchVersion_Some in Hm. destruct Hm as (ws & rest & El & Hwf).
      exfalso. exact (Hno ws v rest El Hwf).
  - intros p blockRaw -> Hread.
    assert (Hstep : blockStep p blockRaw []
              = flat_map (fun sel => selectorStep p (blockVersion (blockLines blockRaw)) sel [])
                         (headerSelectors (hd "" (blockLines blockRaw)))).
    { unfold blockRead in Hread. apply andb_true_iff in Hread.
      destruct Hread as [H1 H2]. apply negb_true_iff in H1, H2.
      unfold blockStep. fold (blockLines blockRaw). rewrite H1, H2.
      now rewrite (fold_left_flat_map _ _ (fun acc sel => selectorStep_acc p _ sel acc)). }
    split; [exact Hstep |].
    intros Hno sel name Hsel Hname Ht. rewrite Hstep.
    apply in_flat_map. exists sel. split; [exact Hsel |].
    unfold blockVersion. rewrite (find_none_all _ _ Hno).
    unfold selectorStep. rewrite Hname.
    destruct (selectorToPkgName_Some _ _ Hname) as [-> _].
    rewrite Ht. now left.
Qed.

Lemma blockVersion_first_version_line_witness :
  blockVersion [ "is@^3.0.0:"; "resolved x"; versionLineOf " " "3.3.0" "" ]
  = "3.3.0".
Proof.
  destruct (blockVersion_first_version_line
              [ "is@^3.0.0:"; "resolved x"; versionLineOf " " "3.3.0" "" ])
    as (_ & H & _).
  destruct (H [ "is@^3.0.0:"; "resolved x" ] (versionLineOf " " "3.3.0" "") [])
    as [Hv _].
  - reflexivity.
  - intros x [<- | [<- | []]]; reflexivity.
  - reflexivity.
  - apply (Hv " " "3.3.0" ""); [reflexivity |]. repeat split.
Defined.

(** C9 as stated fails: the second line of this block begins with
    [version ], and the record of the block has the empty version. *)
Lemma unquoted_version_line_gives_empty_version :
  In "version 3.3.0" (blockLines unquotedBlock)
  /\ Str.startsWith "version " "version 3.3.0" = true
  /\ extractFromYarnLockV1 unquotedBlock "yarn.lock"
     = [ yarnRow "yarn.lock" "" "is" ].
Proof.
  split; [right; now left |]. split; reflexivity.
Qed.

(* ===================================================================== *)
(** ** C6: the entries of the npm v2/v3 [packages] mapping *)
(* ===================================================================== *)

Lemma splitGo_nonempty sep s skip cur : Str.splitGo sep s skip cur <> [].
Proof.
  revert skip cur. induction s as [|c s IH]; intros skip cur; cbn [Str.splitGo];
    [discriminate |].
  destruct skip; [| apply IH].
  destruct (String.prefix sep (String c s)); [discriminate | apply IH].
Qed.

Lemma join_cons sep x l :
  l <> [] -> join sep (x :: l) = (x ++ sep ++ join sep l)%string.
Proof. destruct l; [congruence | reflexivity]. Qed.

Lemma splitGo_skip sep r : forall skipped cur,
  Str.splitGo sep (skipped ++ r)%string (String.length skipped) cur
  = Str.splitGo sep r 0 cur.
Proof.
  induction skipped as [|c skipped IH]; intros cur; simpl; [| apply IH].
  destruct r; reflexivity.
Qed.

(** Splitting on a separator and joining with it gives the text back. *)
Lemma splitGo_join sep :
  Str.isEmpty sep = false ->
  forall n s cur,
    String.length s <= n ->
    join sep (Str.splitGo sep s 0 cur) = (cur ++ s)%string.
Proof.
  intros Hsep. induction n as [|n IH]; intros s cur Hn.
  - destruct s; [simpl; now rewrite append_empty_r | simpl in Hn; lia].
  - destruct s as [|c s]; [simpl; now rewrite append_empty_r |].
    cbn [Str.splitGo].
    destruct (String.prefix sep (String c s)) eqn:Hp.
    + apply prefix_app in Hp. destruct Hp as [r Hr].
      destruct sep as [|d sep']; [discriminate |].
      simpl in Hr. injection Hr as -> ->.
      replace (String.length (String d sep') - 1) with (String.length sep')
        by (simpl; lia).
      rewrite splitGo_skip.
      rewrite join_cons by apply splitGo_nonempty.
      rewrite IH.
      * reflexivity.
      * simpl in Hn. assert (L : forall a b, String.length (a ++ b) = String.length a + String.length b).
        { clear. induction a; intros; simpl; auto. }
        rewrite L in Hn. lia.
    + rewrite IH by (simpl in Hn; lia).
      rewrite append_assoc. reflexivity.
Qed.

Lemma split_join sep s :
  Str.isEmpty sep = false -> join sep (Str.split sep s) = s.
Proof.
  intros H. unfold Str.split. now rewrite (splitGo_join sep H (String.length s)).
Qed.

Lemma nth_last_rev {A : Type} (l : list A) d :
  nth (List.length l - 1) l d = hd d (rev l).
Proof.
  induction l as [|x l IH] using rev_ind; [reflexivity |].
  rewrite rev_app_distr, length_app. simpl.
  rewrite app_nth2 by lia.
  replace (List.length l + 1 - 1 - List.length l) with 0 by lia. reflexivity.
Qed.

Lemma TARGETS_has_truthy name : TARGETS_has name = true -> truthy (Str name) = true.
Proof. destruct name; [discriminate | reflexivity]. Qed.

Lemma packagesStep_rows p packages pkgPath results :
  nullish packages = false ->
  packagesStep p packages pkgPath results
  = Ok (results ++ packageRows p (pkgPath, prop packages pkgPath)).
Proof.
  intros Hp. unfold packagesStep, packageRows.
  rewrite (Get_ok _ _ Hp). cbn [bind]. unfold jsOr at 1.
  set (info := if truthy (prop packages pkgPath) then prop packages pkgPath else Obj []).
  assert (Hi : nullish info = false).
  { subst info. destruct (truthy (prop packages pkgPath)) eqn:E;
      [now apply truthy_not_nullish | reflexivity]. }
  rewrite !(Get_ok _ _ Hi). cbn [bind].
  unfold entryName, derivedName, segments.
  set (segs := filter (fun s => truthy (Str s)) (Str.split "node_modules/" pkgPath)).
  change (filter (fun s => negb (Str.isEmpty s)) (Str.split "node_modules/" pkgPath))
    with segs.
  rewrite nth_last_rev.
  destruct (truthy (prop info "name")) eqn:Hn; cbn [negb].
  - destruct (prop info "name") as [| |b|t|s|elems|props]; simpl TARGETS_hasValue;
      rewrite ?andb_false_r, ?app_nil_r; try reflexivity.
    destruct (TARGETS_has s) eqn:Ht;
      [rewrite (TARGETS_has_truthy _ Ht); reflexivity
      | now rewrite andb_false_r, app_nil_r].
  - destruct segs as [|s0 segs' _] using rev_ind.
    + cbn [List.length Nat.ltb Nat.leb rev]. rewrite Hn. cbn [andb].
      destruct (prop info "name") as [| |b|t|s|elems|props];
        try (now rewrite app_nil_r).
      destruct s; [now rewrite app_nil_r | discriminate].
    + rewrite length_app, rev_app_distr. cbn [List.length rev app hd].
      replace (List.length segs' + 1) with (S (List.length segs')) by lia.
      cbn [Nat.ltb Nat.leb TARGETS_hasValue].
      destruct (TARGETS_has (Str.dropFinal Str.slash s0)) eqn:Ht;
        [rewrite (TARGETS_has_truthy _ Ht); reflexivity
        | now rewrite andb_false_r, app_nil_r].
Qed.

Lemma assoc_NoDup {A : Type} k (a : A) l :
  NoDup (map fst l) -> In (k, a) l -> assoc k l = Some a.
Proof.
  induction l as [|[k' a'] l IH]; simpl; [tauto |].
  intros Hnd. inversion Hnd as [|? ? Hk Hnd']; subst.
  intros [[= -> ->] | Hin].
  - now rewrite String.eqb_refl.
  - destruct (String.eqb_spec k k') as [-> | _]; [| now apply IH].
    exfalso. apply Hk. apply in_map_iff. now exists (k', a).
Qed.

Lemma forOf_packagesStep p packages :
  nullish packages = false ->
  forall keys results,
    forOf keys (packagesStep p packages) results
    = Ok (results
          ++ flat_map (fun k => packageRows p (k, prop packages k)) keys).
Proof.
  intros Hp. induction keys as [|k keys IH]; intros results; simpl.
  - now rewrite app_nil_r.
  - rewrite (packagesStep_rows _ _ _ _ Hp). cbn [bind].
    rewrite IH. now rewrite <- app_assoc.
Qed.

(** C6, as the code has it.  The records of the [packages] branch are those
    of its entries, in order.  The name of an entry is its [name] field when
    that field is truthy, and otherwise the last non-empty piece of the key
    split on [node_modules/] without one final slash; an entry whose name
    is a target gives one record, with its [version] when truthy and the
    empty string otherwise, and with [dev] and [optional] true exactly when
    the field is [true].  The pieces joined with [node_modules/] give the
    key back. *)
Theorem scanPackages_rows_of_entries :
  forall (lockJson : value) (lockfilePath : string),
    truthy lockJson = true ->
    truthy (prop lockJson "packages") = true ->
    typeofObject (prop lockJson "packages") = true ->
    NoDup (map fst (ownEntries (prop lockJson "packages"))) ->
    scanPackages lockJson lockfilePath []
    = Ok (flat_map (packageRows lockfilePath)
                   (ownEntries (prop lockJson "packages")))
    /\ (forall pkgPath,
           join "node_modules/" (Str.split "node_modules/" pkgPath) = pkgPath)
    /\ extractFromNpmLock lockIs330 lockfilePath
       = Ok [ {| package := "is"; version := Str "3.3.0";
                 dev := false; optional := false;
                 source := "npm-lock"; lockfilePath := lockfilePath |} ].
Proof.
  intros lockJson p Hl Ht Ho Hnd. split; [| split].
  - unfold scanPackages. rewrite Hl.
    rewrite (Get_ok _ _ (truthy_not_nullish _ Hl)). cbn [bind].
    set (packages := prop lockJson "packages") in *.
    rewrite Ht, Ho. cbn [andb].
    pose proof (truthy_not_nullish _ Ht) as Hn.
    unfold ObjectKeys, ObjectEntries. rewrite Hn. cbn [bind].
    rewrite (forOf_packagesStep p packages Hn). cbn [app].
    rewrite !flat_map_concat_map, map_map.
    f_equal. f_equal. apply map_ext_in. intros [k v] Hin. cbn [fst].
    unfold prop. now rewrite (assoc_NoDup k v _ Hnd Hin).
  - intros pkgPath. now apply split_join.
  - reflexivity.
Qed.

Lemma scanPackages_rows_of_entries_witness :
  truthy lockIs330 = true
  /\ scanPackages lockIs330 "package-lock.json" []
     = Ok (flat_map (packageRows "package-lock.json")
                    (ownEntries (prop lockIs330 "packages"))).
Proof.
  split; [reflexivity |].
  apply (scanPackages_rows_of_entries lockIs330 "package-lock.json");
    try reflexivity.
  repeat constructor; simpl; tauto.
Defined.

(** C6 as stated fails: this entry declares a [name], the empty string, and
    the record emitted for it carries the name derived from the key. *)
Lemma empty_declared_name_is_replaced :
  assoc "name" [("name", Str ""); ("version", Str "3.3.0")] = Some (Str "")
  /\ extractFromNpmLock lockEmptyName "package-lock.json"
     = Ok [ {| package := "is"; version := Str "3.3.0";
               dev := false; optional := false;
               source := "npm-lock"; lockfilePath := "package-lock.json" |} ].
Proof. split; reflexivity. Qed.

(* ===================================================================== *)
(** ** C7: the traversal of the npm v1 [dependencies] tree *)
(* ===================================================================== *)

Lemma dependencyStep_eq p entry results stack :
  dependencyStep p entry (results, stack)
  = Ok (results ++ stepRows p entry, stepPush entry ++ stack).
Proof.
  destruct entry as [name meta]. unfold dependencyStep, stepRows, stepPush.
  destruct (truthy meta) eqn:Hm; cbn [negb andb app].
  - rewrite !(Get_ok _ _ (truthy_not_nullish _ Hm)).
    destruct (TARGETS_has name); cbn [bind];
      destruct (truthy (prop meta "dependencies")); cbn [app];
      rewrite ?app_nil_r; reflexivity.
  - now rewrite app_nil_r.
Qed.

Lemma rev_stepPush entry : rev (stepPush entry) = stepPush entry.
Proof. destruct entry as [k meta]. unfold stepPush. now destruct (_ && _). Qed.

Lemma forOf_dependencyStep_eq p entries :
  forall results stack,
    forOf entries (dependencyStep p) (results, stack)
    = Ok (results ++ flat_map (stepRows p) entries,
          rev (flat_map stepPush entries) ++ stack).
Proof.
  induction entries as [|entry entries IH]; intros results stack; simpl.
  - now rewrite app_nil_r.
  - rewrite dependencyStep_eq. cbn [bind]. rewrite IH.
    rewrite rev_app_distr, rev_stepPush, <- !app_assoc. reflexivity.
Qed.

Lemma visitDeps_eq p deps results stack :
  nullish deps = false ->
  visitDeps p deps (results, stack)
  = Ok (results ++ flat_map (stepRows p) (ownEntries deps),
        rev (flat_map stepPush (ownEntries deps)) ++ stack).
Proof.
  intros Hn. unfold visitDeps, ObjectEntries. rewrite Hn. cbn [bind].
  apply forOf_dependencyStep_eq.
Qed.

(** The loop started on more results returns as many more. *)
Lemma whileStack_acc p :
  forall n stack r0 r out,
    weights stack <= n ->
    whileStack p stack r = Ok out ->
    whileStack p stack (r0 ++ r) = Ok (r0 ++ out).
Proof.
  induction n as [n IH] using lt_wf_ind. intros stack r0 r out Hn.
  destruct stack as [|deps stack].
  - simp whileStack. now intros [= <-].
  - rewrite !whileStack_cons.
    destruct (nullish deps) eqn:Hd.
    + unfold visitDeps, ObjectEntries. rewrite Hd. discriminate.
    + pose proof (visitDeps_weights p deps r stack _ _ (visitDeps_eq p deps r stack Hd)) as Hw.
      rewrite !(visitDeps_eq _ _ _ _ Hd). rewrite <- app_assoc.
      apply (IH (weights (rev (flat_map stepPush (ownEntries deps)) ++ stack)));
        [lia | reflexivity].
Qed.

(** The loop returns the records of every node below a value of its
    stack, and only adds to its results. *)
Lemma whileStack_complete p :
  forall n stack r out,
    weights stack <= n ->
    whileStack p stack r = Ok out ->
    incl r out
    /\ forall deps name meta,
         In deps stack -> node deps name meta -> TARGETS_has name = true ->
         In (npmRow p name meta) out.
Proof.
  induction n as [n IH] using lt_wf_ind. intros stack r out Hn.
  destruct stack as [|deps stack].
  - simp whileStack. intros [= <-]. split; [apply incl_refl | intros ? ? ? []].
  - rewrite whileStack_cons.
    destruct (nullish deps) eqn:Hd.
    + unfold visitDeps, ObjectEntries. rewrite Hd. discriminate.
    + pose proof (visitDeps_weights p deps r stack _ _ (visitDeps_eq p deps r stack Hd)) as Hw.
      rewrite (visitDeps_eq _ _ _ _ Hd). intros H.
      apply (IH (weights (rev (flat_map stepPush (ownEntries deps)) ++ stack)))
        in H; [| lia | reflexivity].
      destruct H as [Hincl Hnodes]. split.
      * intros x Hx. apply Hincl, in_or_app. now left.
      * intros d name meta [<- | Hin] Hnode Ht.
        -- destruct Hnode as [name meta Hentry Hm | key parent name meta Hentry Hp Hnested Hnode].
           ++ apply Hincl, in_or_app. right. apply in_flat_map.
              exists (name, meta). split; [exact Hentry |].
              unfold stepRows. rewrite Hm, Ht. now left.
           ++ apply (Hnodes (prop parent "dependencies")); [| exact Hnode | exact Ht].
              apply in_or_app. left. apply in_rev. rewrite rev_involutive.
              apply in_flat_map. exists (key, parent). split; [exact Hentry |].
              unfold stepPush. rewrite Hp, Hnested. now left.
        -- apply (Hnodes d); [| exact Hnode | exact Ht].
           apply in_or_app. now right.
Qed.

(** Every record the loop adds is the record of a node below a value of
    its stack. *)
Lemma whileStack_sound p :
  forall n stack r out,
    weights stack <= n ->
    whileStack p stack r = Ok out ->
    forall x, In x out ->
      In x r
      \/ exists deps name meta,
           In deps stack /\ node deps name meta /\ TARGETS_has name = true
           /\ x = npmRow p name meta.
Proof.
  induction n as [n IH] using lt_wf_ind. intros stack r out Hn.
  destruct stack as [|deps stack].
  - simp whileStack. intros [= <-] x Hx. now left.
  - rewrite whileStack_cons.
    destruct (nullish deps) eqn:Hd.
    + unfold visitDeps, ObjectEntries. rewrite Hd. discriminate.
    + pose proof (visitDeps_weights p deps r stack _ _ (visitDeps_eq p deps r stack Hd)) as Hw.
      rewrite (visitDeps_eq _ _ _ _ Hd). intros H x Hx.
      destruct (IH (weights (rev (flat_map stepPush (ownEntries deps)) ++ stack))
                  ltac:(lia) _ _ _ (Nat.le_refl _) H x Hx)
        as [Hin | (d & name & meta & Hd' & Hnode & Ht & ->)].
      * apply in_app_or in Hin. destruct Hin as [Hin | Hin]; [now left |].
        right. apply in_flat_map in Hin. destruct Hin as [[name meta] [Hentry Hrow]].
        unfold stepRows in Hrow.
        destruct (truthy meta) eqn:Hm; [| contradiction].
        destruct (TARGETS_has name) eqn:Ht; [| contradiction].
        destruct Hrow as [<- | []].
        exists deps, name, meta. repeat split; auto; [now left | now apply node_entry].
      * right. apply in_app_or in Hd'. destruct Hd' as [Hpush | Hst].
        -- apply in_rev in Hpush. apply in_flat_map in Hpush.
           destruct Hpush as [[key parent] [Hentry Hpush]].
           unfold stepPush in Hpush.
           destruct (truthy parent) eqn:Hp; [| contradiction].
           destruct (truthy (prop parent "dependencies")) eqn:Hnested; [| contradiction].
           destruct Hpush as [<- | []].
           exists deps, name, meta. repeat split; auto; [now left |].
           eapply node_nested; eassumption.
        -- exists d, name, meta. repeat split; auto. now right.
Qed.

(** C7, as the code has it.  When [dependencies] is a truthy object, the
    records of the parser are those of the [packages] branch followed by
    those of the [dependencies] branch, and the latter are exactly the
    records of the nodes of the tree, at any depth, whose metadata is
    truthy and whose name is a target.  The nested [is] of the example is
    found. *)
Theorem dependencies_tree_is_traversed :
  forall (lockJson : value) (lockfilePath : string),
    truthy lockJson = true ->
    truthy (prop lockJson "dependencies") = true ->
    typeofObject (prop lockJson "dependencies") = true ->
    (exists fromPackages fromDependencies,
        scanPackages lockJson lockfilePath [] = Ok fromPackages
        /\ scanDependencies lockJson lockfilePath [] = Ok fromDependencies
        /\ extractFromNpmLock lockJson lockfilePath
           = Ok (fromPackages ++ fromDependencies)
        /\ (forall r,
               In r fromDependencies <->
               exists name meta,
                 node (prop lockJson "dependencies") name meta
                 /\ TARGETS_has name = true
                 /\ r = npmRow lockfilePath name meta))
    /\ extractFromNpmLock lockNested lockfilePath
       = Ok [ {| package := "is"; version := Str "2.0.0";
                 dev := false; optional := false;
                 source := "npm-lock"; lockfilePath := lockfilePath |} ].
Proof.
  intros lockJson p Hl Ht Ho. split; [| reflexivity].
  destruct (scanPackages_rule lockJson p [] (Forall_nil _)) as [r1 [E1 _]].
  destruct (scanDependencies_rule lockJson p [] (Forall_nil _)) as [r2 [E2 _]].
  exists r1, r2. split; [exact E1 |]. split; [exact E2 |].
  assert (Ew : whileStack p [prop lockJson "dependencies"] [] = Ok r2).
  { revert E2. unfold scanDependencies. rewrite Hl.
    rewrite (Get_ok _ _ (truthy_not_nullish _ Hl)). cbn [bind].
    now rewrite Ht, Ho. }
  split.
  - unfold extractFromNpmLock. rewrite E1. cbn [bind].
    unfold scanDependencies. rewrite Hl.
    rewrite (Get_ok _ _ (truthy_not_nullish _ Hl)). cbn [bind].
    rewrite Ht, Ho. cbn [andb].
    rewrite <- (app_nil_r r1) at 1.
    now apply (whileStack_acc p _ _ r1 [] r2 (Nat.le_refl _)).
  - intros r. split.
    + intros Hin.
      destruct (whileStack_sound p _ _ _ _ (Nat.le_refl _) Ew r Hin)
        as [[] | (d & name & meta & [<- | []] & Hnode & Htarget & ->)].
      now exists name, meta.
    + intros (name & meta & Hnode & Htarget & ->).
      destruct (whileStack_complete p _ _ _ _ (Nat.le_refl _) Ew) as [_ H].
      apply (H (prop lockJson "dependencies")); auto. now left.
Qed.

Lemma dependencies_tree_is_traversed_witness :
  truthy lockNested = true
  /\ exists fromPackages fromDependencies,
       scanPackages lockNested "package-lock.json" [] = Ok fromPackages
       /\ scanDependencies lockNested "package-lock.json" [] = Ok fromDependencies
       /\ extractFromNpmLock lockNested "package-lock.json"
          = Ok (fromPackages ++ fromDependencies).
Proof.
  split; [reflexivity |].
  destruct (dependencies_tree_is_traversed lockNested "package-lock.json"
              eq_refl eq_refl eq_refl)
    as [(r1 & r2 & E1 & E2 & E & _) _].
  now exists r1, r2.
Defined.

(** C7 as stated fails: [is] is a name of the target set and an entry of
    the tree, its metadata is [null], and no record is emitted for it. *)
Lemma node_without_metadata_is_skipped :
  In ("is", Null) (ownEntries (prop lockNullNode "dependencies"))
  /\ TARGETS_has "is" = true
  /\ extractFromNpmLock lockNullNode "package-lock.json" = Ok [].
Proof. split; [now left |]. split; reflexivity. Qed.

(* ===================================================================== *)
(** ** C8: the manifest parser *)
(* ===================================================================== *)

Lemma traverse_app {A B : Type} (f : A -> result B) l1 l2 :
  traverse f (l1 ++ l2)
  = (r1 <- traverse f l1 ;; r2 <- traverse f l2 ;; Ok (r1 ++ r2)).
Proof.
  induction l1 as [|a l1 IH]; simpl.
  - destruct (traverse f l2); reflexivity.
  - destruct (f a) as [b|e]; simpl; [| reflexivity].
    rewrite IH. destruct (traverse f l1) as [r1|e]; simpl; [| reflexivity].
    destruct (traverse f l2); reflexivity.
Qed.

Lemma forOf_rangeStep p isDev isOpt entries :
  forall results,
    forOf entries (rangeStep p isDev isOpt) results
    = (rows <- traverse (manifestRow p)
                 (map (fun entry => (fst entry, snd entry, isDev, isOpt))
                      (filter (fun entry => TARGETS_has (fst entry)) entries)) ;;
       Ok (results ++ rows)).
Proof.
  induction entries as [|[name range] entries IH]; intros results; simpl.
  - now rewrite app_nil_r.
  - destruct (TARGETS_has name) eqn:Ht; simpl.
    + unfold jsOr. rewrite !negb_involutive.
      destruct (truthy range); simpl.
      * destruct (ToString range) as [text|e]; simpl; [| reflexivity].
        rewrite IH. destruct (traverse _ _); simpl; [| reflexivity].
        now rewrite <- app_assoc.
      * rewrite IH. destruct (traverse _ _); simpl; [| reflexivity].
        now rewrite <- app_assoc.
    + apply IH.
Qed.

Lemma bucketStep_eq pkgJson p bucket results :
  bucketStep pkgJson p bucket results
  = (rows <- traverse (manifestRow p) (bucketTargets pkgJson bucket) ;;
     Ok (results ++ rows)).
Proof.
  destruct bucket as [[field isDev] isOpt]. unfold bucketStep, bucketTargets.
  unfold GetOptional, Get.
  destruct (nullish pkgJson) eqn:Hn; cbn [bind truthy typeofObject negb orb andb traverse].
  - now rewrite app_nil_r.
  - set (deps := prop pkgJson field).
    destruct (truthy deps) eqn:Ht; cbn [negb orb andb];
      [| cbn [traverse bind]; now rewrite app_nil_r].
    destruct (typeofObject deps) eqn:Ho; cbn [negb];
      [| cbn [traverse bind]; now rewrite app_nil_r].
    unfold ObjectEntries. rewrite (truthy_not_nullish _ Ht). cbn [bind].
    apply forOf_rangeStep.
Qed.

Lemma forOf_bucketStep pkgJson p bs :
  forall results,
    forOf bs (bucketStep pkgJson p) results
    = (rows <- traverse (manifestRow p) (flat_map (bucketTargets pkgJson) bs) ;;
       Ok (results ++ rows)).
Proof.
  induction bs as [|b bs IH]; intros results; simpl.
  - now rewrite app_nil_r.
  - rewrite bucketStep_eq, traverse_app.
    destruct (traverse (manifestRow p) (bucketTargets pkgJson b)) as [r1|e];
      simpl; [| reflexivity].
    rewrite IH. destruct (traverse _ _); simpl; [| reflexivity].
    now rewrite <- app_assoc.
Qed.

Lemma manifestRow_convertible p entry :
  (exists r, manifestRow p entry = Ok r) <-> convertible entry.
Proof.
  destruct entry as [[[name range] isDev] isOpt]. unfold manifestRow, convertible.
  destruct (truthy range).
  - split.
    + intros [r E] _. destruct (ToString range) as [text|e]; [eauto | discriminate].
    + intros Hc. destruct (Hc eq_refl) as [text ->]. eexists; reflexivity.
  - split; [discriminate |]. intros _. eexists; reflexivity.
Qed.

Lemma traverse_returns {A B : Type} (f : A -> result B) l :
  (exists out, traverse f l = Ok out) <-> Forall (fun a => exists b, f a = Ok b) l.
Proof.
  induction l as [|a l IH]; cbn [traverse].
  - split; [constructor | now exists []].
  - split.
    + intros [out E]. destruct (f a) as [b|e] eqn:Ea; [| discriminate].
      cbn [bind] in E. destruct (traverse f l) as [bs|e]; [| discriminate].
      constructor; [now exists b | apply IH; now exists bs].
    + intros Hall. inversion Hall as [|? ? [b Eb] Hl]; subst.
      apply IH in Hl. destruct Hl as [bs Ebs]. rewrite Eb, Ebs.
      eexists; reflexivity.
Qed.

Lemma traverse_pointwise {A B : Type} (f : A -> result B) l :
  forall out, traverse f l = Ok out -> Forall2 (fun a b => f a = Ok b) l out.
Proof.
  induction l as [|a l IH]; cbn [traverse]; intros out.
  - intros [= <-]. constructor.
  - destruct (f a) as [b|e] eqn:Ea; [| discriminate]. cbn [bind].
    destruct (traverse f l) as [bs|e]; [| discriminate]. cbn [bind].
    intros [= <-]. constructor; [exact Ea | now apply IH].
Qed.

Lemma traverse_raises {A B : Type} (f : A -> result B) pre a post e :
  Forall (fun x => exists b, f x = Ok b) pre -> f a = Throw e ->
  traverse f (pre ++ a :: post) = Throw e.
Proof.
  intros Hpre Ea. induction Hpre as [|x pre [b Eb] _ IH]; cbn [app traverse].
  - now rewrite Ea.
  - now rewrite Eb, IH.
Qed.

(** C8, as the code has it.  The parser reads the three fields of
    [buckets] and no other, and looks at the entries that name a target
    in the fields that are truthy objects, in order; a missing field or
    one that is not an object gives none.  When the range of each of
    these entries is falsy or can be converted to text, the parser
    returns one record for each of them, in order, with the flags of the
    field; the version of a record is the text of the range when the
    range is truthy, a string range being kept as it is, and the empty
    string when the range is falsy.  When the range of one of them is
    truthy and cannot be converted, the parser raises the exception of
    the first such range and returns no record, not even for the entries
    before it. *)
Theorem extractFromPackageJson_rows :
  forall (pkgJson : value) (lockfilePath : string),
    buckets = [ ("dependencies", false, false);
                ("devDependencies", true, false);
                ("optionalDependencies", false, true) ]
    /\ extractFromPackageJson pkgJson lockfilePath
       = traverse (manifestRow lockfilePath)
                  (flat_map (bucketTargets pkgJson) buckets)
    /\ (forall name s isDev isOpt,
           manifestRow lockfilePath (name, Str s, isDev, isOpt)
           = Ok {| package := name; version := Str s;
                   dev := isDev; optional := isOpt;
                   source := "package-json"; lockfilePath := lockfilePath |})
    /\ (forall name range isDev isOpt,
           truthy range = false ->
           manifestRow lockfilePath (name, range, isDev, isOpt)
           = Ok {| package := name; version := Str "";
                   dev := isDev; optional := isOpt;
                   source := "package-json"; lockfilePath := lockfilePath |})
    /\ (forall field isDev isOpt,
           truthy (prop pkgJson field) && typeofObject (prop pkgJson field) = false ->
           bucketTargets pkgJson (field, isDev, isOpt) = [])
    /\ extractFromPackageJson manifestSynckit lockfilePath
       = Ok [ {| package := "synckit"; version := Str "^0.10.0";
                 dev := true; optional := false;
                 source := "package-json"; lockfilePath := lockfilePath |} ]
    /\ (forall name range isDev isOpt text,
           truthy range = true -> ToString range = Ok text ->
           manifestRow lockfilePath (name, range, isDev, isOpt)
           = Ok {| package := name; version := Str text;
                   dev := isDev; optional := isOpt;
                   source := "package-json"; lockfilePath := lockfilePath |})
    /\ ((exists rows, extractFromPackageJson pkgJson lockfilePath = Ok rows)
        <-> Forall convertible (flat_map (bucketTargets pkgJson) buckets))
    /\ (forall rows,
           extractFromPackageJson pkgJson lockfilePath = Ok rows ->
           Forall2 (fun entry r => manifestRow lockfilePath entry = Ok r)
                   (flat_map (bucketTargets pkgJson) buckets) rows)
    /\ (forall pre name range isDev isOpt post e,
           flat_map (bucketTargets pkgJson) buckets
           = pre ++ (name, range, isDev, isOpt) :: post ->
           Forall convertible pre ->
           truthy range = true -> ToString range = Throw e ->
           extractFromPackageJson pkgJson lockfilePath = Throw e)
    /\ extractFromPackageJson manifestUnconvertible lockfilePath
       = Throw (TypeError "Cannot convert object to primitive value").
Proof.
  intros pkgJson p.
  assert (E : extractFromPackageJson pkgJson p
              = traverse (manifestRow p) (flat_map (bucketTargets pkgJson) buckets)).
  { unfold extractFromPackageJson. rewrite forOf_bucketStep.
    destruct (traverse _ _); reflexivity. }
  split; [reflexivity |]. split; [exact E |].
  split; [| split; [| split; [| split; [| split; [| split; [| split; [| split]]]]]]].
  - intros name s isDev isOpt. unfold manifestRow.
    destruct s; reflexivity.
  - intros name range isDev isOpt Hr. unfold manifestRow. now rewrite Hr.
  - intros field isDev isOpt H. unfold bucketTargets.
    destruct (nullish pkgJson); [reflexivity | now rewrite H].
  - reflexivity.
  - intros name range isDev isOpt text Hr Et. unfold manifestRow.
    now rewrite Hr, Et.
  - rewrite E, traverse_returns. split; intros Hall;
      (eapply Forall_impl; [| exact Hall]); intros entry;
      apply manifestRow_convertible.
  - intros rows. rewrite E. apply traverse_pointwise.
  - intros pre name range isDev isOpt post e Et Hpre Hr Ee. rewrite E, Et.
    apply traverse_raises.
    + eapply Forall_impl; [| exact Hpre]. intros entry.
      apply manifestRow_convertible.
    + unfold manifestRow. now rewrite Hr, Ee.
  - reflexivity.
Qed.

Lemma extractFromPackageJson_rows_witness :
  truthy (Bool false) = false
  /\ manifestRow "package.json" ("synckit", Bool false, false, false)
     = Ok {| package := "synckit"; version := Str "";
             dev := false; optional := false;
             source := "package-json"; lockfilePath := "package.json" |}
  /\ convertible ("is", Str "^3.3.0", false, false)
  /\ extractFromPackageJson manifestUnconvertible "package.json"
     = Throw (TypeError "Cannot convert object to primitive value").
Proof.
  split; [reflexivity |].
  destruct (extractFromPackageJson_rows manifestFalsyRanges "package.json")
    as (_ & _ & _ & H & _).
  split; [apply H; reflexivity |].
  assert (Hc : convertible ("is", Str "^3.3.0", false, false))
    by (intros _; now exists "^3.3.0").
  split; [exact Hc |].
  destruct (extractFromPackageJson_rows manifestUnconvertible "package.json")
    as (_ & _ & _ & _ & _ & _ & _ & _ & _ & Hraise & _).
  apply (Hraise [ ("is", Str "^3.3.0", false, false) ] "synckit"
                (Obj [("toString", Null)]) false false []).
  - reflexivity.
  - constructor; [exact Hc | constructor].
  - reflexivity.
  - reflexivity.
Defined.

(** C8 as stated fails: the ranges of this manifest are the empty string
    and [false], neither absent nor nullish, and both records have the
    empty version; the text of [false] is not empty. *)
Lemma falsy_range_gives_empty_version :
  nullish (Str "") = false
  /\ nullish (Bool false) = false
  /\ ToString (Bool false) = Ok "false"
  /\ extractFromPackageJson manifestFalsyRanges "package.json"
     = Ok [ {| package := "is"; version := Str "";
               dev := false; optional := false;
               source := "package-json"; lockfilePath := "package.json" |};
            {| package := "synckit"; version := Str "";
               dev := false; optional := false;
               source := "package-json"; lockfilePath := "package.json" |} ].
Proof. repeat split. Qed.

(* ===================================================================== *)
(** ** shortenPath *)
(* ===================================================================== *)

Lemma drop_app a b : Str.drop (String.length a) (a ++ b)%string = b.
Proof. induction a as [|c a IH]; simpl; [now destruct b | exact IH]. Qed.

Section ScanFacts.

Context `{H : Host}.

(** X1. A path under the working directory is shortened to what follows
    the directory and the separator; any other path is left as it is.  In
    both cases the path is the result after nothing or after the
    directory and the separator. *)
Theorem shortenPath_relative :
  forall p : string,
    (forall q, p = ((process_cwd ++ path_sep) ++ q)%string -> shortenPath p = q)
    /\ (Str.startsWith (process_cwd ++ path_sep) p = false -> shortenPath p = p)
    /\ (p = shortenPath p
        \/ p = ((process_cwd ++ path_sep) ++ shortenPath p)%string).
Proof.
  intros p. unfold shortenPath. split; [| split].
  - intros q ->.
    assert (E : Str.startsWith (process_cwd ++ path_sep)
                  ((process_cwd ++ path_sep) ++ q) = true)
      by (apply prefix_app; eauto).
    rewrite E. apply drop_app.
  - now intros ->.
  - destruct (Str.startsWith (process_cwd ++ path_sep) p) eqn:E; [| now left].
    right. apply prefix_app in E. destruct E as [q ->]. now rewrite drop_app.
Qed.

(* ===================================================================== *)
(** ** printMarkdownTable *)
(* ===================================================================== *)

Lemma traverse_length {A B : Type} (f : A -> result B) l out :
  traverse f l = Ok out -> List.length out = List.length l.
Proof.
  revert out. induction l as [|a l IH]; intros out; simpl.
  - now intros [= <-].
  - destruct (f a) as [b|e]; simpl; [| discriminate].
    destruct (traverse f l) as [bs|e]; simpl; [| discriminate].
    intros [= <-]. simpl. now rewrite (IH bs).
Qed.

Lemma rowLine_printable r : printable r <-> exists line, rowLine r = Ok line.
Proof.
  unfold printable, rowLine. split.
  - intros [text ->]. simpl. eauto.
  - destruct (ToString (version r)) as [text|e]; simpl; [eauto |].
    intros [line [=]].
Qed.

Lemma rowKey_printable r : printable r <-> exists key, rowKey r = Ok key.
Proof.
  unfold printable, rowKey. split.
  - intros [text ->]. simpl. eauto.
  - destruct (ToString (version r)) as [text|e]; simpl; [eauto |].
    intros [key [=]].
Qed.

Lemma traverse_rowLine rows :
  Forall printable rows -> exists lines, traverse rowLine rows = Ok lines.
Proof.
  induction 1 as [|r rows Hr _ [lines IH]]; simpl; [eauto |].
  apply rowLine_printable in Hr. destruct Hr as [line ->]. simpl.
  rewrite IH. simpl. eauto.
Qed.

Lemma printRows_ok rows :
  forall lines out,
    traverse rowLine rows = Ok lines ->
    printRows rows out = (out ++ lines, Ok tt).
Proof.
  induction rows as [|r rows IH]; intros lines out; simpl.
  - intros [= <-]. now rewrite app_nil_r.
  - destruct (rowLine r) as [line|e]; simpl; [| discriminate].
    destruct (traverse rowLine rows) as [ls|e] eqn:E; simpl; [| discriminate].
    intros [= <-]. rewrite (IH ls) by reflexivity.
    now rewrite <- app_assoc.
Qed.

Lemma printRows_fail pre r post e :
  forall lines out,
    traverse rowLine pre = Ok lines ->
    rowLine r = Throw e ->
    printRows (pre ++ r :: post) out = (out ++ lines, Throw e).
Proof.
  induction pre as [|x pre IH]; intros lines out; simpl.
  - intros [= <-] ->. now rewrite app_nil_r.
  - destruct (rowLine x) as [line|e']; simpl; [| discriminate].
    destruct (traverse rowLine pre) as [ls|e'] eqn:E; simpl; [| discriminate].
    intros [= <-] Hr. rewrite (IH ls) by auto.
    now rewrite <- app_assoc.
Qed.

(** X2. When the version of every record can be converted to text, the
    table is printed without an exception: the line [No occurrences
    found.] alone for no record, and otherwise the two header lines
    followed by one line for each record, in order. *)
Theorem printMarkdownTable_prints_every_row :
  forall (rows : list row) (out : list string),
    Forall printable rows ->
    exists lines,
      traverse rowLine rows = Ok lines
      /\ List.length lines = List.length rows
      /\ printMarkdownTable rows out
         = (out ++ match rows with
                   | [] => [ "No occurrences found." ]
                   | _ :: _ =>
                       "| Package | Version | Dev | Optional | Source | File |"
                       :: "|---|---|:---:|:---:|---|---|" :: lines
                   end, Ok tt).
Proof.
  intros rows out Hp.
  destruct (traverse_rowLine rows Hp) as [lines E].
  exists lines. split; [exact E |]. split; [now apply traverse_length in E |].
  unfold printMarkdownTable. destruct rows as [|r rows]; [reflexivity |].
  cbn [List.length Nat.eqb]. rewrite (printRows_ok _ _ _ E).
  now rewrite <- app_assoc.
Qed.

(** X3. The table stops at the first record whose version cannot be
    converted: the header lines and the lines of the records before it
    are printed, and the exception of the conversion is raised. *)
Theorem printMarkdownTable_stops_at_first_failure :
  forall (pre post : list row) (r : row) (e : exn) (out : list string),
    Forall printable pre ->
    ToString (version r) = Throw e ->
    exists lines,
      traverse rowLine pre = Ok lines
      /\ List.length lines = List.length pre
      /\ printMarkdownTable (pre ++ r :: post) out
         = (out ++ "| Package | Version | Dev | Optional | Source | File |"
                :: "|---|---|:---:|:---:|---|---|" :: lines, Throw e).
Proof.
  intros pre post r e out Hp Hr.
  destruct (traverse_rowLine pre Hp) as [lines E].
  exists lines. split; [exact E |]. split; [now apply traverse_length in E |].
  assert (Hline : rowLine r = Throw e) by (unfold rowLine; now rewrite Hr).
  unfold printMarkdownTable.
  assert (Hlen : Nat.eqb (List.length (pre ++ r :: post)) 0 = false).
  { rewrite length_app. simpl. apply Nat.eqb_neq. lia. }
  rewrite Hlen, (printRows_fail _ _ _ _ _ _ E Hline).
  now rewrite <- app_assoc.
Qed.

End ScanFacts.

Lemma printMarkdownTable_prints_every_row_witness :
  Forall printable [core123; is330]
  /\ printMarkdownTable [core123; is330] []
     = ([ "| Package | Version | Dev | Optional | Source | File |";
          "|---|---|:---:|:---:|---|---|";
          "| `@pkgr/core` | `1.2.3` |  |  | yarn-lock | `yarn.lock` |";
          "| `is` | `3.3.0` |  |  | npm-lock | `package-lock.json` |" ], Ok tt).
Proof.
  assert (Hp : Forall printable [core123; is330])
    by (repeat constructor; eexists; reflexivity).
  split; [exact Hp |].
  destruct (printMarkdownTable_prints_every_row [core123; is330] [] Hp)
    as (lines & E & _ & ->).
  injection E as <-. reflexivity.
Defined.

Lemma printMarkdownTable_stops_at_first_failure_witness :
  Forall printable [core123]
  /\ printMarkdownTable ([core123] ++ unprintable :: [is330]) []
     = ([ "| Package | Version | Dev | Optional | Source | File |";
          "|---|---|:---:|:---:|---|---|";
          "| `@pkgr/core` | `1.2.3` |  |  | yarn-lock | `yarn.lock` |" ],
        Throw (TypeError "Cannot convert object to primitive value")).
Proof.
  assert (Hp : Forall printable [core123])
    by (repeat constructor; eexists; reflexivity).
  split; [exact Hp |].
  destruct (printMarkdownTable_stops_at_first_failure
              [core123] [is330] unprintable _ [] Hp eq_refl)
    as (lines & E & _ & ->).
  injection E as <-. reflexivity.
Defined.

(* ===================================================================== *)
(** ** dedupeRows and the aggregator: what the output holds *)
(* ===================================================================== *)

Lemma subsequence_refl {A : Type} (l : list A) : subsequence l l.
Proof. induction l; constructor; assumption. Qed.

Lemma subsequence_nil_l {A : Type} (l : list A) : subsequence [] l.
Proof. induction l; constructor; assumption. Qed.

Lemma dedupe_subsequence rows :
  forall seen out seen' out',
    forOf rows dedupeStep (seen, out) = Ok (seen', out') ->
    exists rest, out' = out ++ rest /\ subsequence rest rows.
Proof.
  induction rows as [|r rows IH]; intros seen out seen' out'; simpl.
  - intros [= <- <-]. exists []. split; [now rewrite app_nil_r | constructor].
  - destruct (rowKey r) as [key|e]; simpl; [| discriminate].
    destruct (seenHas key seen); intros E; apply IH in E;
      destruct E as [rest [-> Hs]].
    + exists rest. split; [reflexivity | now constructor].
    + exists (r :: rest). split; [now rewrite <- app_assoc | now constructor].
Qed.

Lemma Forall2_keyed_In out keys k :
  Forall2 keyed out keys -> In k keys -> exists r, In r out /\ rowKey r = Ok k.
Proof.
  induction 1 as [|r k' out keys Hk _ IH]; simpl; [tauto |].
  intros [<- | Hin].
  - exists r. split; [now left | exact Hk].
  - destruct (IH Hin) as [r' [Hr' E]]. exists r'. split; [now right | exact E].
Qed.

Lemma dedupeRows_keys rows out :
  dedupeRows rows = Ok out ->
  (exists keys, Forall2 keyed out keys /\ NoDup keys)
  /\ (forall r, In r rows -> exists r', In r' out /\ rowKey r' = rowKey r).
Proof.
  unfold dedupeRows.
  destruct (forOf rows dedupeStep ([], [])) as [[seen o]|e] eqn:E; simpl;
    [| discriminate].
  intros [= <-].
  pose proof (dedupe_seen _ _ _ _ _ E) as Hseen.
  pose proof (dedupe_run _ _ _ _ _ E)
    as (rest' & keys & Hout' & Hs & Hk & Hnd & _).
  simpl in Hout'. subst rest'. rewrite app_nil_r in Hs. subst seen.
  split; [now exists keys |].
  intros r Hr.
  assert (Hkey : exists k, rowKey r = Ok k).
  { clear - E Hr. revert E. generalize (@nil string) as seen, (@nil row) as out.
    induction rows as [|x rows IH]; intros seen out; [destruct Hr |].
    simpl. destruct (rowKey x) as [k|e] eqn:Ex; simpl; [| discriminate].
    destruct Hr as [<- | Hr]; [eauto |].
    destruct (seenHas k seen); intros E; eapply IH; eauto. }
  destruct Hkey as [k Ek].
  assert (Hin : In k (rev keys)).
  { apply Hseen. right. now exists r. }
  apply in_rev in Hin.
  destruct (Forall2_keyed_In _ _ _ Hk Hin) as [r' [Hr' E']].
  exists r'. split; [exact Hr' | congruence].
Qed.

(** X4. When dedupeRows returns, its output is the input with some records
    left out, in the same order; no two records of the output have the
    same key; and every record of the input has its key on a record of
    the output. *)
Theorem dedupeRows_one_record_per_key :
  forall rows out : list row,
    dedupeRows rows = Ok out ->
    subsequence out rows
    /\ (exists keys, Forall2 keyed out keys /\ NoDup keys)
    /\ (forall r, In r rows -> exists r', In r' out /\ rowKey r' = rowKey r).
Proof.
  intros rows out E.
  destruct (dedupeRows_keys _ _ E) as [Hkeys Hcover].
  split; [| now split].
  revert E. unfold dedupeRows.
  destruct (forOf rows dedupeStep ([], [])) as [[seen o]|e] eqn:E; simpl;
    [| discriminate].
  intros [= <-].
  pose proof (dedupe_subsequence _ _ _ _ _ E) as [rest [Hout Hsub]].
  simpl in Hout. now subst o.
Qed.

Lemma forOf_dedupe_total rows :
  Forall printable rows ->
  forall st, exists st', forOf rows dedupeStep st = Ok st'.
Proof.
  induction 1 as [|r rows Hr _ IH]; intros [seen out]; simpl; [eauto |].
  apply rowKey_printable in Hr. destruct Hr as [key ->]. simpl.
  destruct (seenHas key seen); apply IH.
Qed.

Lemma forOf_dedupe_printable rows :
  forall st st', forOf rows dedupeStep st = Ok st' -> Forall printable rows.
Proof.
  induction rows as [|r rows IH]; intros [seen out] st'; simpl; [constructor |].
  destruct (rowKey r) as [key|e] eqn:Ek; simpl; [| discriminate].
  intros E. constructor.
  - apply rowKey_printable. eauto.
  - destruct (seenHas key seen); eapply IH; eauto.
Qed.

(** X5. dedupeRows raises exactly when the version of some record cannot
    be converted to text for its key, whether or not that record would be
    dropped. *)
Theorem dedupeRows_returns_iff_printable :
  forall rows : list row,
    (exists out, dedupeRows rows = Ok out) <-> Forall printable rows.
Proof.
  intros rows. unfold dedupeRows. split.
  - intros [out E].
    destruct (forOf rows dedupeStep ([], [])) as [st|e] eqn:E'; [| discriminate].
    eapply forOf_dedupe_printable; eauto.
  - intros Hp. destruct (forOf_dedupe_total rows Hp ([], [])) as [st ->].
    simpl. eauto.
Qed.

Section AggregatorOutput.

Context `{C : Collation}.

(** X6. When the aggregator returns, its output is ordered by package and
    then by path, no two of its records have the same key, each of them is
    a record of the input, and every record of the input has its key on a
    record of the output. *)
Theorem aggregate_sorted_one_per_key :
  forall rows out : list row,
    separates (map package rows) ->
    aggregate rows = Ok out ->
    StronglySorted keyOrder out
    /\ (exists keys, Forall2 keyed out keys /\ NoDup keys)
    /\ incl out rows
    /\ (forall r, In r rows -> exists r', In r' out /\ rowKey r' = rowKey r).
Proof.
  intros rows out Hsep. unfold aggregate. intros E.
  destruct (dedupeRows_keys _ _ E) as (Hkeys & Hcover).
  destruct (dedupeRows_inv _ _ E) as (_ & _ & _ & Hincl & Hsort).
  split; [| split; [exact Hkeys | split]].
  - apply (StronglySorted_iff rowLe); [apply rowLe_keyOrder |].
    apply Hsort. apply (sortRows_sorted _ Hsep), packageIn_own.
  - intros r Hr. apply (Permutation_in _ (Permutation_sym (sortRows_perm rows))).
    now apply Hincl.
  - intros r Hr. apply Hcover.
    now apply (Permutation_in _ (sortRows_perm rows)).
Qed.

End AggregatorOutput.

Lemma dedupeRows_one_record_per_key_witness :
  dedupeRows [is330; is200; is330] = Ok [is330; is200]
  /\ subsequence [is330; is200] [is330; is200; is330].
Proof.
  split; [reflexivity |].
  apply (dedupeRows_one_record_per_key [is330; is200; is330] [is330; is200]).
  reflexivity.
Defined.

Lemma aggregate_sorted_one_per_key_witness :
  separates (map package [is330; core123; is200; is330])
  /\ aggregate [is330; core123; is200; is330] = Ok [core123; is330; is200]
  /\ StronglySorted keyOrder [core123; is330; is200].
Proof.
  split; [apply codeUnitCollation_separates |]. split; [reflexivity |].
  apply (aggregate_sorted_one_per_key [is330; core123; is200; is330]
           [core123; is330; is200] (codeUnitCollation_separates _)).
  reflexivity.
Defined.

(* ===================================================================== *)
(** ** What the records of each parser look like *)
(* ===================================================================== *)

Lemma traverse_In {A B : Type} (f : A -> result B) l out :
  traverse f l = Ok out ->
  forall b, In b out -> exists a, In a l /\ f a = Ok b.
Proof.
  revert out. induction l as [|a l IH]; intros out; simpl.
  - intros [= <-] b [].
  - destruct (f a) as [b0|e] eqn:Ea; simpl; [| discriminate].
    destruct (traverse f l) as [bs|e]; simpl; [| discriminate].
    intros [= <-] b [<- | Hin].
    + exists a. split; [now left | exact Ea].
    + destruct (IH bs eq_refl b Hin) as [a' [Ha' E]].
      exists a'. split; [now right | exact E].
Qed.

Lemma packageRows_shape p entry r :
  In r (packageRows p entry) ->
  exists name info, TARGETS_has name = true /\ r = npmRow p name info.
Proof.
  destruct entry as [pkgPath info0]. unfold packageRows.
  destruct (entryName _ pkgPath) as [| |b|t|name|elems|props]; try contradiction.
  destruct (TARGETS_has name) eqn:Ht; [| contradiction].
  intros [<- | []]. eauto.
Qed.

Lemma scanPackages_shape lockJson p rows :
  scanPackages lockJson p [] = Ok rows ->
  forall r, In r rows ->
    exists name info, TARGETS_has name = true /\ r = npmRow p name info.
Proof.
  unfold scanPackages.
  destruct (truthy lockJson) eqn:Hl; [| now intros [= <-] r []].
  rewrite (Get_ok _ _ (truthy_not_nullish _ Hl)). cbn [bind].
  destruct (truthy (prop lockJson "packages") && typeofObject (prop lockJson "packages"))
    eqn:E; [| now intros [= <-] r []].
  apply andb_true_iff in E. destruct E as [Ht _].
  pose proof (truthy_not_nullish _ Ht) as Hn.
  unfold ObjectKeys, ObjectEntries. rewrite Hn. cbn [bind].
  rewrite (forOf_packagesStep p _ Hn). cbn [app].
  intros [= <-] r Hr. apply in_flat_map in Hr. destruct Hr as [k [_ Hr]].
  exact (packageRows_shape p (k, prop (prop lockJson "packages") k) r Hr).
Qed.

Lemma extractFromNpmLock_shape lockJson p rows :
  extractFromNpmLock lockJson p = Ok rows ->
  forall r, In r rows ->
    exists name info, TARGETS_has name = true /\ r = npmRow p name info.
Proof.
  unfold extractFromNpmLock.
  destruct (scanPackages lockJson p []) as [r1|e] eqn:E1; simpl; [| discriminate].
  pose proof (scanPackages_shape _ _ _ E1) as H1.
  unfold scanDependencies.
  destruct (truthy lockJson) eqn:Hl; [| intros [= <-]; exact H1].
  rewrite (Get_ok _ _ (truthy_not_nullish _ Hl)). cbn [bind].
  destruct (_ && _); [| intros [= <-]; exact H1].
  intros Ew r Hr.
  destruct (whileStack_sound p _ _ _ _ (Nat.le_refl _) Ew r Hr)
    as [Hin | (d & name & meta & _ & _ & Ht & ->)]; [now apply H1 | eauto].
Qed.

Lemma selectorStep_shape p v sel r :
  In r (selectorStep p v sel []) ->
  exists name,
    selectorToPkgName sel = Some name /\ TARGETS_has name = true
    /\ r = yarnRow p v name.
Proof.
  unfold selectorStep.
  destruct (selectorToPkgName sel) as [name|]; [| contradiction].
  destruct (Str.isEmpty name); [contradiction |].
  destruct (TARGETS_has name) eqn:Ht; [| contradiction].
  intros [<- | []]. eauto.
Qed.

Lemma blockStep_shape p blockRaw r :
  In r (blockStep p blockRaw []) ->
  exists sel name,
    In sel (headerSelectors (hd "" (blockLines blockRaw)))
    /\ selectorToPkgName sel = Some name /\ TARGETS_has name = true
    /\ r = yarnRow p (blockVersion (blockLines blockRaw)) name.
Proof.
  unfold blockStep. fold (blockLines blockRaw).
  destruct (Str.isEmpty (Str.trim blockRaw)); [contradiction |].
  destruct (_ || _); [contradiction |].
  rewrite (fold_left_flat_map _ _ (fun acc sel => selectorStep_acc p _ sel acc)).
  cbn [app]. intros Hr. apply in_flat_map in Hr. destruct Hr as [sel [Hsel Hr]].
  apply selectorStep_shape in Hr. destruct Hr as (name & Hn & Ht & ->).
  now exists sel, name.
Qed.

Lemma extractFromYarnLockV1_shape text p r :
  In r (extractFromYarnLockV1 text p) ->
  exists blockRaw sel name,
    In blockRaw (Str.splitBlankLines text)
    /\ In sel (headerSelectors (hd "" (blockLines blockRaw)))
    /\ selectorToPkgName sel = Some name /\ TARGETS_has name = true
    /\ r = yarnRow p (blockVersion (blockLines blockRaw)) name.
Proof.
  rewrite extractFromYarnLockV1_blocks. intros Hr.
  apply in_flat_map in Hr. destruct Hr as [blockRaw [Hb Hr]].
  apply blockStep_shape in Hr. destruct Hr as (sel & name & Hs & Hn & Ht & ->).
  now exists blockRaw, sel, name.
Qed.

Lemma bucketTargets_shape pkgJson bucket entry :
  In bucket buckets -> In entry (bucketTargets pkgJson bucket) ->
  exists name range isDev isOpt,
    entry = (name, range, isDev, isOpt) /\ TARGETS_has name = true
    /\ isDev && isOpt = false.
Proof.
  intros Hb. destruct bucket as [[field isDev] isOpt]. unfold bucketTargets.
  destruct (_ && _); [| contradiction].
  intros Hin. apply in_map_iff in Hin. destruct Hin as [[name range] [<- Hin]].
  apply filter_In in Hin. destruct Hin as [_ Ht].
  exists name, range, isDev, isOpt. repeat split; auto.
  unfold buckets in Hb. simpl in Hb.
  destruct Hb as [[= _ <- <-] | [[= _ <- <-] | [[= _ <- <-] | []]]]; reflexivity.
Qed.

Lemma extractFromPackageJson_traverse pkgJson p :
  extractFromPackageJson pkgJson p
  = traverse (manifestRow p) (flat_map (bucketTargets pkgJson) buckets).
Proof.
  unfold extractFromPackageJson. rewrite forOf_bucketStep.
  destruct (traverse _ _); reflexivity.
Qed.

Lemma extractFromPackageJson_shape pkgJson p rows :
  extractFromPackageJson pkgJson p = Ok rows ->
  forall r, In r rows ->
    exists name text isDev isOpt,
      TARGETS_has name = true /\ isDev && isOpt = false
      /\ r = {| package := name; version := Str text;
                dev := isDev; optional := isOpt;
                source := "package-json"; lockfilePath := p |}.
Proof.
  rewrite extractFromPackageJson_traverse. intros E r Hr.
  destruct (traverse_In _ _ _ E r Hr) as [entry [Hin Hrow]].
  apply in_flat_map in Hin. destruct Hin as [bucket [Hb Hin]].
  destruct (bucketTargets_shape _ _ _ Hb Hin)
    as (name & range & isDev & isOpt & -> & Ht & Hflags).
  unfold manifestRow in Hrow.
  destruct (if truthy range then ToString range else Ok "") as [text|e];
    simpl in Hrow; [| discriminate].
  injection Hrow as <-. now exists name, text, isDev, isOpt.
Qed.

(** X7. Every record of a parser carries the path the parser was given
    and the source tag of the parser.  A record of the Yarn parser has
    both flags false and a string as version.  A record of the manifest
    parser has a string as version and is never both [dev] and
    [optional]. *)
Theorem parser_records_carry_path_and_source :
  forall (lockJson pkgJson : value) (text p : string),
    Forall (fun r => lockfilePath r = p /\ source r = "npm-lock")
           (emitted (extractFromNpmLock lockJson p))
    /\ Forall (fun r => lockfilePath r = p /\ source r = "yarn-lock"
                        /\ dev r = false /\ optional r = false
                        /\ exists v, version r = Str v)
              (extractFromYarnLockV1 text p)
    /\ Forall (fun r => lockfilePath r = p /\ source r = "package-json"
                        /\ dev r && optional r = false
                        /\ exists v, version r = Str v)
              (emitted (extractFromPackageJson pkgJson p)).
Proof.
  intros lockJson pkgJson text p. split; [| split]; apply Forall_forall; intros r Hr.
  - destruct (extractFromNpmLock lockJson p) as [rows|e] eqn:E; [| destruct Hr].
    destruct (extractFromNpmLock_shape _ _ _ E r Hr) as (name & info & _ & ->).
    now split.
  - destruct (extractFromYarnLockV1_shape _ _ _ Hr)
      as (b & sel & name & _ & _ & _ & _ & ->).
    repeat split. eexists; reflexivity.
  - destruct (extractFromPackageJson pkgJson p) as [rows|e] eqn:E; [| destruct Hr].
    destruct (extractFromPackageJson_shape _ _ _ E r Hr)
      as (name & v & isDev & isOpt & _ & Hflags & ->).
    repeat split; auto. eexists; reflexivity.
Qed.

(* ===================================================================== *)
(** ** The loop of [main] over the files *)
(* ===================================================================== *)

Lemma length_append a b :
  String.length (a ++ b)%string = String.length a + String.length b.
Proof. induction a as [|c a IH]; simpl; [reflexivity | now rewrite IH]. Qed.

Lemma take_drop n s : s = (Str.take n s ++ Str.drop n s)%string.
Proof.
  revert s. induction n as [|n IH]; intros s; [reflexivity |].
  destruct s as [|c s]; simpl; [reflexivity | now rewrite <- IH].
Qed.

Lemma endsWith_iff suffix s :
  endsWith suffix s = true <-> exists pre, s = (pre ++ suffix)%string.
Proof.
  unfold endsWith. split.
  - intros E. apply andb_true_iff in E. destruct E as [_ E].
    apply String.eqb_eq in E.
    exists (Str.take (String.length s - String.length suffix) s).
    rewrite <- E at 2. apply take_drop.
  - intros [pre ->]. rewrite length_append. apply andb_true_iff. split.
    + apply Nat.leb_le. lia.
    + replace (String.length pre + String.length suffix - String.length suffix)
        with (String.length pre) by lia.
      rewrite drop_app. apply String.eqb_refl.
Qed.

Lemma append_eq_suffix pre :
  forall pre' a b,
    (pre ++ a)%string = (pre' ++ b)%string ->
    String.length a <= String.length b ->
    exists m, b = (m ++ a)%string.
Proof.
  induction pre as [|c pre IH]; intros [|c' pre'] a b E L; simpl in E.
  - exists "". now subst.
  - exfalso. subst a. simpl in L. rewrite length_append in L. lia.
  - exists (String c pre). now subst.
  - injection E as _ E. eapply IH; eauto.
Qed.

(** A path that ends with a name ends with another suffix only when one
    of the two ends with the other. *)
Lemma endsWith_app suffix pre name :
  endsWith suffix (pre ++ name) = true ->
  endsWith suffix name = true \/ endsWith name suffix = true.
Proof.
  intros E. apply endsWith_iff in E. destruct E as [pre' E].
  destruct (Nat.le_ge_cases (String.length suffix) (String.length name)) as [L | L].
  - left. apply endsWith_iff. symmetry in E.
    exact (append_eq_suffix _ _ _ _ E L).
  - right. apply endsWith_iff. exact (append_eq_suffix _ _ _ _ E L).
Qed.

Lemma endsWith_other suffix pre name :
  endsWith suffix name = false -> endsWith name suffix = false ->
  endsWith suffix (pre ++ name) = false.
Proof.
  intros H1 H2. destruct (endsWith suffix (pre ++ name)) eqn:E; [| reflexivity].
  apply endsWith_app in E. destruct E; congruence.
Qed.

Lemma endsWith_name pre name : endsWith name (pre ++ name) = true.
Proof. apply endsWith_iff. now exists pre. Qed.

Section MainFacts.

Context `{H : Host}.

Lemma fileStep_eq f stderr_ rows :
  fileStep f (stderr_, rows) = (stderr_ ++ diagnosticOf f, rows ++ rowsOf f).
Proof.
  unfold fileStep, diagnosticOf, rowsOf, pushSpread.
  destruct (fileRows f) as [found|m]; cbn [andThen].
  - destruct (Nat.leb (List.length found) push_limit);
      now rewrite ?app_nil_r.
  - now rewrite app_nil_r.
Qed.

Lemma scanFiles_eq files :
  forall stderr_ rows,
    scanFiles files (stderr_, rows)
    = (stderr_ ++ flat_map diagnosticOf files, rows ++ flat_map rowsOf files).
Proof.
  unfold scanFiles.
  induction files as [|f files IH]; intros stderr_ rows; cbn [fold_left flat_map].
  - now rewrite !app_nil_r.
  - rewrite fileStep_eq, IH. now rewrite <- !app_assoc.
Qed.

Lemma rowsOf_found f r :
  In r (rowsOf f) ->
  exists found,
    fileRows f = Success found /\ List.length found <= push_limit /\ In r found.
Proof.
  unfold rowsOf. destruct (fileRows f) as [found|m]; [| intros []].
  destruct (Nat.leb (List.length found) push_limit) eqn:E; [| intros []].
  apply Nat.leb_le in E. intros Hr. now exists found.
Qed.

Lemma passes_file f :
  (passes f = true ->
   exists found, pushed f found /\ rowsOf f = found /\ diagnosticOf f = [])
  /\ (passes f = false ->
      exists m, caught f m /\ rowsOf f = [] /\ diagnosticOf f = [skipLine f m]).
Proof.
  unfold passes, pushed, caught, rowsOf, diagnosticOf.
  destruct (fileRows f) as [found|m].
  - destruct (Nat.leb (List.length found) push_limit) eqn:E; split;
      try discriminate; intros _.
    + apply Nat.leb_le in E. now exists found.
    + apply Nat.leb_gt in E. exists push_error. split; [| now split].
      right. now exists found.
  - split; [discriminate |]. intros _. exists m. split; [now left | now split].
Qed.

Lemma fileRows_of_name pre :
  fileRows (pre ++ "package-lock.json") = npmFile (pre ++ "package-lock.json")
  /\ fileRows (pre ++ "package.lock.json") = npmFile (pre ++ "package.lock.json")
  /\ fileRows (pre ++ "yarn.lock") = yarnFile (pre ++ "yarn.lock")
  /\ fileRows (pre ++ "package.json") = manifestFile (pre ++ "package.json").
Proof.
  unfold fileRows. repeat split.
  - now rewrite endsWith_name.
  - rewrite (endsWith_name pre "package.lock.json"). now rewrite orb_true_r.
  - rewrite !(endsWith_other _ pre "yarn.lock") by reflexivity.
    now rewrite endsWith_name.
  - rewrite !(endsWith_other _ pre "package.json") by reflexivity.
    now rewrite endsWith_name.
Qed.

(** X8. A file is given to the parser of its name, whatever the
    directories before it: a path that ends with [package-lock.json] or
    [package.lock.json] goes to the npm parser, one that ends with
    [yarn.lock] to the Yarn parser and one that ends with [package.json]
    to the manifest parser; no earlier test of [main] takes a file of a
    later one. *)
Theorem fileRows_routes_by_name :
  forall filePath : string,
    (endsWith "package-lock.json" filePath = true ->
     fileRows filePath = npmFile filePath)
    /\ (endsWith "package.lock.json" filePath = true ->
        fileRows filePath = npmFile filePath)
    /\ (endsWith "yarn.lock" filePath = true ->
        fileRows filePath = yarnFile filePath)
    /\ (endsWith "package.json" filePath = true ->
        fileRows filePath = manifestFile filePath).
Proof.
  intros filePath.
  repeat split; intros E; apply endsWith_iff in E; destruct E as [pre ->];
    apply (fileRows_of_name pre).
Qed.

Lemma passes_iff f :
  (passes f = true <-> exists found, pushed f found)
  /\ (passes f = false <-> exists m, caught f m).
Proof.
  unfold passes, pushed, caught.
  destruct (fileRows f) as [found|m].
  - destruct (Nat.leb (List.length found) push_limit) eqn:E.
    + apply Nat.leb_le in E. split; split.
      * intros _. now exists found.
      * reflexivity.
      * discriminate.
      * intros [m [Hm | (found' & [= <-] & L & _)]]; [discriminate | lia].
    + apply Nat.leb_gt in E. split; split.
      * discriminate.
      * intros (found' & [= <-] & L). lia.
      * intros _. exists push_error. right. now exists found.
      * reflexivity.
  - split; split.
    + discriminate.
    + intros (found & Hf & _). discriminate.
    + intros _. exists m. now left.
    + reflexivity.
Qed.

(** X9. The loop over the files isolates failures.  A file passes when
    it is read and parsed, its parser returns and the records fit in one
    call of [push]; any other file is caught with a message: that of the
    read, of [JSON.parse] or of the parser, or that of the [RangeError]
    of [push].  After the loop the standard error has gained one line
    [Skipped read/parse] for each file that does not pass, in order, with
    its path and message; the records have gained those of the files that
    pass, in order, and nothing of the others; and the records are those
    the loop collects when the files that do not pass are left out. *)
Theorem scanFiles_isolates_failures :
  forall (files : list string) (stderr_ : list string) (rows : list row),
    exists (lines : list string) (groups : list (list row)),
      scanFiles files (stderr_, rows) = (stderr_ ++ lines, rows ++ concat groups)
      /\ Forall2 (fun f line => exists m, caught f m /\ line = skipLine f m)
                 (filter (fun f => negb (passes f)) files) lines
      /\ Forall2 pushed (filter passes files) groups
      /\ scanFiles (filter passes files) (stderr_, rows)
         = (stderr_, rows ++ concat groups)
      /\ (forall f, passes f = true <-> exists found, pushed f found)
      /\ (forall f, passes f = false <-> exists m, caught f m).
Proof.
  intros files stderr_ rows.
  assert (Hfiles : exists lines groups,
             flat_map diagnosticOf files = lines
             /\ flat_map rowsOf files = concat groups
             /\ Forall2 (fun f line => exists m, caught f m /\ line = skipLine f m)
                        (filter (fun f => negb (passes f)) files) lines
             /\ Forall2 pushed (filter passes files) groups
             /\ flat_map diagnosticOf (filter passes files) = []
             /\ flat_map rowsOf (filter passes files) = concat groups).
  { induction files as [|f files IH].
    - exists [], []. repeat split; constructor.
    - destruct IH as (lines & groups & <- & E2 & H1 & H2 & E3 & E4).
      destruct (passes_file f) as [Hyes Hno]. cbn [flat_map filter].
      destruct (passes f); cbn [negb].
      + destruct (Hyes eq_refl) as (found & Hp & Er & Ed).
        exists (flat_map diagnosticOf files), (found :: groups).
        cbn [flat_map concat]. rewrite Er, Ed, E2, E3, E4.
        repeat split; auto.
      + destruct (Hno eq_refl) as (m & Hc & Er & Ed).
        exists (skipLine f m :: flat_map diagnosticOf files), groups.
        rewrite Er, Ed, E2. cbn [app].
        repeat split; auto. constructor; [now exists m | exact H1]. }
  destruct Hfiles as (lines & groups & E1 & E2 & H1 & H2 & E3 & E4).
  exists lines, groups. rewrite !scanFiles_eq, E1, E2, E3, E4, app_nil_r.
  split; [reflexivity |]. split; [exact H1 |]. split; [exact H2 |].
  split; [reflexivity |]. split; intros f; apply passes_iff.
Qed.

Lemma attemptOf_Success {A : Type} (r : result (list A)) found :
  attemptOf r = Success found -> r = Ok found.
Proof. destruct r; simpl; congruence. Qed.

Lemma fileRows_provenance filePath found :
  fileRows filePath = Success found ->
  Forall (fun r =>
            targetRow r /\ lockfilePath r = filePath
            /\ ((source r = "npm-lock"
                 /\ endsWith "package-lock.json" filePath
                    || endsWith "package.lock.json" filePath = true)
                \/ (source r = "yarn-lock" /\ endsWith "yarn.lock" filePath = true)
                \/ (source r = "package-json"
                    /\ endsWith "package.json" filePath = true)))
         found.
Proof.
  unfold fileRows.
  destruct (endsWith "package-lock.json" filePath
            || endsWith "package.lock.json" filePath) eqn:E1.
  - destruct (fs_readFileSync filePath) as [raw|m]; simpl; [| discriminate].
    destruct (JSON_parse raw) as [json|m]; simpl; [| discriminate].
    intros E. apply attemptOf_Success in E.
    destruct (extractFromNpmLock_total json filePath) as [rows [E' Ht]].
    assert (rows = found) by congruence. subst rows.
    apply Forall_forall. intros r Hr. rewrite Forall_forall in Ht.
    split; [now apply Ht |].
    destruct (extractFromNpmLock_shape _ _ _ E r Hr) as (name & info & _ & ->).
    split; [reflexivity |]. left. now split.
  - destruct (endsWith "yarn.lock" filePath) eqn:E2.
    + destruct (fs_readFileSync filePath) as [raw|m]; simpl; [| discriminate].
      intros [= <-].
      pose proof (extractFromYarnLockV1_targets raw filePath) as Ht.
      apply Forall_forall. intros r Hr. rewrite Forall_forall in Ht.
      destruct (extractFromYarnLockV1_shape _ _ _ Hr)
        as (b & sel & name & _ & _ & _ & _ & E).
      split; [now apply Ht |]. subst r. split; [reflexivity |].
      right. left. now split.
    + destruct (endsWith "package.json" filePath) eqn:E3;
        [| intros [= <-]; constructor].
      destruct (fs_readFileSync filePath) as [raw|m]; simpl; [| discriminate].
      destruct (JSON_parse raw) as [json|m]; simpl; [| discriminate].
      intros E. apply attemptOf_Success in E.
      apply Forall_forall. intros r Hr.
      destruct (extractFromPackageJson_shape _ _ _ E r Hr)
        as (name & v & isDev & isOpt & Ht & _ & ->).
      split; [now apply TARGETS_has_In |]. split; [reflexivity |].
      right. right. now split.
Qed.

(** X10. Every record the loop of [main] collects is a record of a target
    package, carries the path of one of the files, and has the source
    tag of the parser that the name of that file selects. *)
Theorem scanFiles_records_come_from_files :
  forall (files : list string) (stderr_ : list string),
    Forall (fun r =>
              In (package r) TARGETS
              /\ In (lockfilePath r) files
              /\ ((source r = "npm-lock"
                   /\ endsWith "package-lock.json" (lockfilePath r)
                      || endsWith "package.lock.json" (lockfilePath r) = true)
                  \/ (source r = "yarn-lock"
                      /\ endsWith "yarn.lock" (lockfilePath r) = true)
                  \/ (source r = "package-json"
                      /\ endsWith "package.json" (lockfilePath r) = true)))
           (snd (scanFiles files (stderr_, []))).
Proof.
  intros files stderr_.
  rewrite scanFiles_eq. cbn [snd app]. apply Forall_forall. intros r Hr.
  apply in_flat_map in Hr. destruct Hr as [f [Hf Hr]].
  apply rowsOf_found in Hr. destruct Hr as (found & E & _ & Hr).
  pose proof (fileRows_provenance _ _ E) as Hp. rewrite Forall_forall in Hp.
  destruct (Hp r Hr) as (Ht & Hpath & Hsrc). rewrite Hpath.
  repeat split; auto.
Qed.

End MainFacts.

Lemma scanFiles_isolates_failures_witness :
  @scanFiles narrowHost [ "/work/src/yarn.lock"; "/work/src/package.json" ] ([], [])
  = ([ "Skipped read/parse: /work/src/yarn.lock -> Maximum call stack size exceeded" ],
     [ {| package := "synckit"; version := Str "^0.10.0";
          dev := true; optional := false;
          source := "package-json"; lockfilePath := "/work/src/package.json" |} ])
  /\ @scanFiles narrowHost [ "/work/src/package.json" ] ([], [])
     = ([],
        [ {| package := "synckit"; version := Str "^0.10.0";
             dev := true; optional := false;
             source := "package-json"; lockfilePath := "/work/src/package.json" |} ]).
Proof.
  destruct (@scanFiles_isolates_failures narrowHost
              [ "/work/src/yarn.lock"; "/work/src/package.json" ] [] [])
    as (lines & groups & E & _ & _ & Efiltered & _).
  split; [reflexivity |].
  change [ "/work/src/package.json" ]
    with (filter (@passes narrowHost)
                 [ "/work/src/yarn.lock"; "/work/src/package.json" ]).
  rewrite Efiltered.
  assert (Erows : snd (@scanFiles narrowHost
                         [ "/work/src/yarn.lock"; "/work/src/package.json" ]
                         ([], []))
                  = [] ++ concat groups) by now rewrite E.
  rewrite <- Erows. reflexivity.
Defined.

(* ===================================================================== *)
(** ** collectFiles *)
(* ===================================================================== *)

(** Induction on what lies at a path, with the hypothesis for every member
    of a listing. *)
Lemma fsnode_induction (P : fsnode -> Prop) :
  P File -> P Other ->
  (forall m, P (Directory (Failure m))) ->
  (forall dirents,
      Forall (fun entry => P (snd entry)) dirents ->
      P (Directory (Success dirents))) ->
  forall node, P node.
Proof.
  intros HF HO Hfail Hdir.
  refine (fix F (node : fsnode) : P node :=
            match node with
            | File => HF
            | Other => HO
            | Directory (Failure m) => Hfail m
            | Directory (Success dirents) =>
                Hdir dirents
                  ((fix G (l : list (string * fsnode))
                      : Forall (fun entry => P (snd entry)) l :=
                      match l with
                      | [] => Forall_nil _
                      | entry :: rest =>
                          Forall_cons entry (F (snd entry)) (G rest)
                      end) dirents)
            end).
Qed.

Section CollectFacts.

Context `{H : Host}.

Lemma collectFiles_listing dir dirents :
  forall out,
    collectFiles dir (Directory (Success dirents)) out
    = fold_left (fun out entry => collectEntry dir entry out) dirents out.
Proof.
  induction dirents as [|[name de] dirents IH]; intros out; [reflexivity |].
  cbn [fold_left]. rewrite <- IH. reflexivity.
Qed.

Lemma listed_iff dir dirents full :
  listed dir (Directory (Success dirents)) full <->
  exists name de,
    In (name, de) dirents
    /\ match de with
       | File => includes name LOCK_FILENAMES = true /\ full = path_join dir name
       | Directory _ =>
           includes name SKIP_DIRS = false /\ listed (path_join dir name) de full
       | Other => False
       end.
Proof.
  split.
  - intros Hl. inversion Hl as [? ? name Hin Hn | ? ? name listing ? Hin Hs Hb]; subst.
    + exists name, File. auto.
    + exists name, (Directory listing). auto.
  - intros (name & de & Hin & Hde). destruct de as [| |listing].
    + destruct Hde as [Hn ->]. now apply listed_file.
    + destruct Hde.
    + destruct Hde as [Hs Hb]. eapply listed_below; eauto.
Qed.

Lemma collectFiles_spec node :
  forall dir,
    exists found,
      (forall out, collectFiles dir node out = out ++ found)
      /\ forall full, In full found <-> listed dir node full.
Proof.
  induction node as [| |m|dirents IH] using fsnode_induction; intros dir;
    try (exists []; split; [intros out; simpl; now rewrite app_nil_r |];
         intros full; split; [intros [] | intros Hl; inversion Hl]).
  assert (Hloop :
             exists found,
               (forall out,
                   fold_left (fun out entry => collectEntry dir entry out) dirents out
                   = out ++ found)
               /\ forall full,
                    In full found <->
                    exists name de,
                      In (name, de) dirents
                      /\ match de with
                         | File => includes name LOCK_FILENAMES = true
                                   /\ full = path_join dir name
                         | Directory _ =>
                             includes name SKIP_DIRS = false
                             /\ listed (path_join dir name) de full
                         | Other => False
                         end).
  { induction IH as [|[name de] dirents Hde _ IHl].
    - exists []. split; [intros out; simpl; now rewrite app_nil_r |].
      intros full. split; [intros [] | intros (n & d & [] & _)].
    - cbn [fold_left snd] in *.
      assert (Hentry : exists one,
                 (forall out, collectEntry dir (name, de) out = out ++ one)
                 /\ forall full,
                      In full one <->
                      match de with
                      | File => includes name LOCK_FILENAMES = true
                                /\ full = path_join dir name
                      | Directory _ =>
                          includes name SKIP_DIRS = false
                          /\ listed (path_join dir name) de full
                      | Other => False
                      end).
      { unfold collectEntry. destruct de as [| |listing].
        - destruct (includes name LOCK_FILENAMES).
          + exists [path_join dir name]. split; [reflexivity |].
            intros full. simpl. split; [intros [<- | []]; auto | intros [_ ->]; auto].
          + exists []. split; [intros out; now rewrite app_nil_r |].
            intros full. split; [intros [] | intros [E _]; discriminate].
        - exists []. split; [intros out; now rewrite app_nil_r | tauto].
        - destruct (includes name SKIP_DIRS).
          + exists []. split; [intros out; now rewrite app_nil_r |].
            intros full. split; [intros [] | intros [E _]; discriminate].
          + destruct (Hde (path_join dir name)) as [found [E Hf]].
            exists found. split; [exact E |].
            intros full. rewrite Hf. tauto. }
      destruct Hentry as [one [Eone Hone]].
      destruct IHl as [others [Eothers Hothers]].
      exists (one ++ others). split.
      + intros out. rewrite Eone, Eothers. now rewrite app_assoc.
      + intros full. rewrite in_app_iff, Hone, Hothers. split.
        * intros [Hhere | (n & d & Hin & Hd)].
          -- exists name, de. split; [now left | exact Hhere].
          -- exists n, d. split; [now right | exact Hd].
        * intros (n & d & [[= <- <-] | Hin] & Hd); [now left |].
          right. now exists n, d. }
  destruct Hloop as [found [E Hf]].
  exists found. split.
  - intros out. rewrite collectFiles_listing. apply E.
  - intros full. rewrite Hf. symmetry. apply listed_iff.
Qed.

(** X11. collectFiles adds to [out] exactly the lock files of the tree: a
    path is in the result if and only if it was in [out] or is the path of
    a file named in [LOCK_FILENAMES] that lies below the directory and is
    reached through readable directories none of which is named in
    [SKIP_DIRS].  What cannot be listed adds nothing. *)
Theorem collectFiles_finds_the_lock_files :
  forall (dir : string) (node : fsnode) (out : list string) (full : string),
    In full (collectFiles dir node out) <-> In full out \/ listed dir node full.
Proof.
  intros dir node out full.
  destruct (collectFiles_spec node dir) as [found [E Hf]].
  rewrite E, in_app_iff, Hf. tauto.
Qed.

(** X12. collectFiles only appends: the paths already in [out] stay in
    front, in order, and the paths it adds do not depend on them. *)
Theorem collectFiles_appends :
  forall (dir : string) (node : fsnode) (out : list string),
    collectFiles dir node out = out ++ collectFiles dir node [].
Proof.
  intros dir node out.
  destruct (collectFiles_spec node dir) as [found [E _]].
  now rewrite (E out), (E []).
Qed.

(** X13. When [path.join] ends its result with the name it was given for
    each of the four names of [LOCK_FILENAMES] (as it does for every name
    that is a single path segment other than [.] and [..]), every file
    collectFiles finds is read by a parser of [main]: its path ends with
    one of the names of [LOCK_FILENAMES], and [main] gives it to the
    parser of that name. *)
Theorem collected_files_reach_their_parser :
  (forall dir name,
      In name LOCK_FILENAMES -> endsWith name (path_join dir name) = true) ->
  forall (dir : string) (node : fsnode) (full : string),
    In full (collectFiles dir node []) ->
    exists pre name,
      full = (pre ++ name)%string
      /\ In name LOCK_FILENAMES
      /\ fileRows full = parserFor name full.
Proof.
  intros Hjoin dir node full Hin.
  destruct (collectFiles_spec node dir) as [found [E Hf]].
  rewrite E in Hin. cbn [app] in Hin. apply Hf in Hin. clear E Hf found.
  induction Hin as [dir dirents name Hin Hn | dir dirents name listing full Hin Hs Hb IH];
    [| exact IH].
  assert (Hname : In name LOCK_FILENAMES).
  { unfold includes in Hn. apply existsb_exists in Hn.
    destruct Hn as [x [Hx E]]. apply String.eqb_eq in E. now subst. }
  destruct (proj1 (endsWith_iff _ _) (Hjoin dir name Hname)) as [pre ->].
  exists pre, name. split; [reflexivity |].
  split; [exact Hname |].
  unfold LOCK_FILENAMES in Hname. simpl in Hname.
  destruct (fileRows_of_name pre) as (H1 & H2 & H3 & H4).
  destruct Hname as [<- | [<- | [<- | [<- | []]]]]; assumption.
Qed.

End CollectFacts.

Lemma collected_files_reach_their_parser_witness :
  (forall dir name,
      In name LOCK_FILENAMES -> endsWith name (path_join dir name) = true)
  /\ collectFiles "/work/src" exampleTree []
     = [ "/work/src/package.json"; "/work/src/web/yarn.lock" ]
  /\ exists pre name,
       "/work/src/web/yarn.lock" = (pre ++ name)%string
       /\ In name LOCK_FILENAMES
       /\ fileRows "/work/src/web/yarn.lock"
          = parserFor name "/work/src/web/yarn.lock".
Proof.
  assert (Hjoin : forall dir name,
             In name LOCK_FILENAMES -> endsWith name (path_join dir name) = true).
  { intros dir name _. apply endsWith_iff. exists (dir ++ "/")%string. simpl.
    now rewrite append_assoc. }
  split; [exact Hjoin |]. split; [reflexivity |].
  apply (collected_files_reach_their_parser Hjoin "/work/src" exampleTree).
  right. now left.
Defined.

(* ===================================================================== *)
(** ** main *)
(* ===================================================================== *)

Section MainRun.

Context `{H : Host} `{C : Collation}.

Lemma printMarkdownTable_printable rows out :
  Forall printable rows ->
  exists lines,
    traverse rowLine rows = Ok lines
    /\ printMarkdownTable rows out
       = (out ++ match rows with
                 | [] => [ "No occurrences found." ]
                 | _ :: _ =>
                     "| Package | Version | Dev | Optional | Source | File |"
                     :: "|---|---|:---:|:---:|---|---|" :: lines
                 end, Ok tt).
Proof.
  intros Hp. destruct (traverse_rowLine rows Hp) as [lines E].
  exists lines. split; [exact E |].
  unfold printMarkdownTable. destruct rows as [|r rows]; [reflexivity |].
  cbn [List.length Nat.eqb]. rewrite (printRows_ok _ _ _ E).
  now rewrite <- app_assoc.
Qed.

(** X14. [main] prints the whole table or nothing.  It ends without
    [process.exit] exactly when the version of every record it collected
    can be converted to text, and then the standard output is the table
    of the aggregated records; otherwise deduplication raises before any
    line is printed, the standard output is empty, the exception is
    printed last on the standard error and the exit code is 1. *)
Theorem main_prints_all_or_nothing :
  (exitCode main = None <-> Forall printable scannedRows)
  /\ (exitCode main = None ->
      exists unique lines,
        aggregate scannedRows = Ok unique
        /\ traverse rowLine unique = Ok lines
        /\ stdout main
           = match unique with
             | [] => [ "No occurrences found." ]
             | _ :: _ =>
                 "| Package | Version | Dev | Optional | Source | File |"
                 :: "|---|---|:---:|:---:|---|---|" :: lines
             end)
  /\ (exitCode main <> None ->
      exitCode main = Some 1 /\ stdout main = []
      /\ exists e diagnostics,
           aggregate scannedRows = Throw e
           /\ stderr main = diagnostics ++ [util_inspect e]).
Proof.
  unfold main, scannedRows, aggregate.
  destruct collectRoots as [stderr1 files]. cbn [fst snd].
  destruct (scanFiles files (stderr1, [])) as [stderr2 rows]. cbn [snd].
  destruct (dedupeRows (sortRows rows)) as [unique|e] eqn:E.
  - assert (Hsorted : Forall printable (sortRows rows)).
    { unfold dedupeRows in E.
      destruct (forOf (sortRows rows) dedupeStep ([], [])) as [st|e'] eqn:E';
        [| discriminate].
      eapply forOf_dedupe_printable; eauto. }
    assert (Hrows : Forall printable rows).
    { eapply Permutation_Forall; [apply Permutation_sym, sortRows_perm | exact Hsorted]. }
    assert (Hunique : Forall printable unique).
    { destruct (dedupeRows_inv _ _ E) as (_ & _ & _ & Hincl & _).
      rewrite Forall_forall in *. intros r Hr. apply Hsorted, Hincl, Hr. }
    destruct (printMarkdownTable_printable unique [] Hunique) as [lines [El ->]].
    cbn [app stdout exitCode]. split; [tauto |]. split.
    + intros _. now exists unique, lines.
    + intros Hc. now contradiction Hc.
  - cbn [stdout stderr exitCode]. split; [| split].
    + split; [discriminate |]. intros Hrows. exfalso.
      assert (Hsorted : Forall printable (sortRows rows))
        by (eapply Permutation_Forall; [apply sortRows_perm | exact Hrows]).
      destruct (forOf_dedupe_total _ Hsorted ([], [])) as [st Est].
      unfold dedupeRows in E. now rewrite Est in E.
    + discriminate.
    + intros _. repeat split. now exists e, stderr2.
Qed.

End MainRun.

Lemma main_prints_all_or_nothing_witness :
  exitCode main = None
  /\ stdout main
     = [ "| Package | Version | Dev | Optional | Source | File |";
         "|---|---|:---:|:---:|---|---|";
         "| `@pkgr/core` | `1.2.3` |  |  | yarn-lock | `src/web/yarn.lock` |";
         "| `is` | `^3.3.0` |  |  | package-json | `src/package.json` |" ].
Proof.
  destruct (@main_prints_all_or_nothing exampleHost codeUnitCollation)
    as (_ & Hall & _).
  assert (E : exitCode main = None) by reflexivity.
  split; [exact E |].
  destruct (Hall E) as (unique & lines & _ & _ & _).
  reflexivity.
Defined.

(* ===================================================================== *)
(** ** main, from the roots to the records *)
(* ===================================================================== *)

Section MainScanFacts.

Context `{H : Host}.

Lemma scannedRows_eq :
  scannedRows
  = match fs_lookup (path_resolve "src") with
    | Some node =>
        flat_map rowsOf (collectFiles (path_resolve "src") node [])
    | None => []
    end.
Proof.
  unfold scannedRows, collectRoots, ROOTS. cbn [fold_left]. unfold rootStep.
  destruct (fs_lookup (path_resolve "src")) as [node|]; cbn [fst snd].
  - now rewrite scanFiles_eq.
  - reflexivity.
Qed.

Lemma fileRows_versions filePath found :
  fileRows filePath = Success found ->
  Forall (fun r => source r = "npm-lock" \/ exists v, version r = Str v) found.
Proof.
  intros E. apply Forall_forall. intros r Hr.
  pose proof (fileRows_provenance _ _ E) as Hp. rewrite Forall_forall in Hp.
  destruct (Hp r Hr) as (_ & _ & [[Hs _] | Hs]); [now left |].
  right. revert E Hr. unfold fileRows.
  destruct (_ || _) eqn:E1.
  - destruct Hs as [[Hs Hy] | [Hs Hm]].
    + destruct (fs_readFileSync filePath) as [raw|m]; simpl; [| discriminate].
      destruct (JSON_parse raw) as [json|m]; simpl; [| discriminate].
      intros E Hr. apply attemptOf_Success in E.
      destruct (extractFromNpmLock_shape _ _ _ E r Hr) as (name & info & _ & ->).
      discriminate Hs.
    + destruct (fs_readFileSync filePath) as [raw|m]; simpl; [| discriminate].
      destruct (JSON_parse raw) as [json|m]; simpl; [| discriminate].
      intros E Hr. apply attemptOf_Success in E.
      destruct (extractFromNpmLock_shape _ _ _ E r Hr) as (name & info & _ & ->).
      discriminate Hs.
  - destruct (endsWith "yarn.lock" filePath).
    + destruct (fs_readFileSync filePath) as [raw|m]; simpl; [| discriminate].
      intros [= <-] Hr.
      destruct (extractFromYarnLockV1_shape _ _ _ Hr)
        as (b & sel & name & _ & _ & _ & _ & ->).
      eexists; reflexivity.
    + destruct (endsWith "package.json" filePath); [| now intros [= <-] []].
      destruct (fs_readFileSync filePath) as [raw|m]; simpl; [| discriminate].
      destruct (JSON_parse raw) as [json|m]; simpl; [| discriminate].
      intros E Hr. apply attemptOf_Success in E.
      destruct (extractFromPackageJson_shape _ _ _ E r Hr)
        as (name & v & isDev & isOpt & _ & _ & ->).
      eexists; reflexivity.
Qed.

Lemma scannedRows_from_files r :
  In r scannedRows ->
  exists full found, fileRows full = Success found /\ In r found.
Proof.
  rewrite scannedRows_eq.
  destruct (fs_lookup (path_resolve "src")) as [node|]; [| intros []].
  intros Hr. apply in_flat_map in Hr. destruct Hr as (full & _ & Hr).
  apply rowsOf_found in Hr. destruct Hr as (found & E & _ & Hr).
  now exists full, found.
Qed.

Lemma rowsOf_pushed f r :
  In r (rowsOf f) <-> exists found, pushed f found /\ In r found.
Proof.
  split.
  - intros Hr. apply rowsOf_found in Hr. destruct Hr as (found & E & L & Hr).
    exists found. now repeat split.
  - intros (found & [E L] & Hr). unfold rowsOf. rewrite E.
    apply Nat.leb_le in L. now rewrite L.
Qed.

(** X15. The records [main] collects are those of the lock files below
    [src] that pass: a record is collected if and only if [src] exists
    under the working directory and the record is one of those returned
    by the parser of a file that collectFiles finds there, is read and
    parsed without exception, and whose records fit in one call of
    [push].  When [src] does not exist nothing is collected, and a file
    whose records exceed the limit of [push] adds none of them. *)
Theorem main_collects_the_records_of_the_listed_files :
  forall r : row,
    In r scannedRows <->
    exists node full found,
      fs_lookup (path_resolve "src") = Some node
      /\ listed (path_resolve "src") node full
      /\ fileRows full = Success found
      /\ List.length found <= push_limit
      /\ In r found.
Proof.
  intros r. rewrite scannedRows_eq.
  destruct (fs_lookup (path_resolve "src")) as [node|].
  - rewrite in_flat_map.
    destruct (collectFiles_spec node (path_resolve "src")) as [files [E Hf]].
    rewrite (E []). cbn [app]. split.
    + intros (full & Hin & Hr). apply rowsOf_pushed in Hr.
      destruct Hr as (found & [Efound L] & Hr).
      exists node, full, found. rewrite <- Hf. auto.
    + intros (node' & full & found & [= <-] & Hl & Efound & L & Hr).
      exists full. rewrite Hf. split; [exact Hl |].
      apply rowsOf_pushed. exists found. now repeat split.
  - split; [intros [] | intros (node & full & found & E & _); discriminate].
Qed.

End MainScanFacts.

Section MainEdgeFacts.

Context `{H : Host} `{C : Collation}.

(** X16. A missing root is no error: when [src] does not exist under the
    working directory, [main] prints the line [Path not found] with the
    resolved path on the standard error, prints [No occurrences found.]
    on the standard output and ends without an exit code. *)
Theorem main_reports_a_missing_root :
  fs_lookup (path_resolve "src") = None ->
  main = {| stdout := [ "No occurrences found." ];
            stderr := [ ("Path not found: " ++ path_resolve "src")%string ];
            exitCode := None |}.
Proof.
  intros E. unfold main, collectRoots, ROOTS. cbn [fold_left]. unfold rootStep.
  rewrite E. reflexivity.
Qed.

(** X17. Only an npm lockfile can make [main] fail: when the run ends with
    an exit code, one of the collected records comes from a file named
    [package-lock.json] or [package.lock.json] and has a version that
    cannot be converted to text.  The records of Yarn lockfiles and of
    manifests never do this. *)
Theorem main_fails_on_npm_versions_only :
  exitCode main <> None ->
  exists r e,
    In r scannedRows
    /\ source r = "npm-lock"
    /\ endsWith "package-lock.json" (lockfilePath r)
       || endsWith "package.lock.json" (lockfilePath r) = true
    /\ ToString (version r) = Throw e.
Proof.
  intros Hexit.
  assert (Hnot : ~ Forall printable scannedRows).
  { intros Hall. apply Hexit. revert Hall.
    unfold main, scannedRows.
    destruct collectRoots as [stderr1 files]. cbn [fst snd].
    destruct (scanFiles files (stderr1, [])) as [stderr2 rows]. cbn [snd].
    intros Hrows.
    assert (Hsorted : Forall printable (sortRows rows))
      by (eapply Permutation_Forall; [apply sortRows_perm | exact Hrows]).
    destruct (forOf_dedupe_total _ Hsorted ([], [])) as [st Est].
    unfold dedupeRows. rewrite Est. cbn [bind].
    assert (Hout : Forall printable (snd st)).
    { assert (Ed : dedupeRows (sortRows rows) = Ok (snd st))
        by (unfold dedupeRows; now rewrite Est).
      destruct (dedupeRows_inv _ _ Ed) as (_ & _ & _ & Hincl & _).
      rewrite Forall_forall in *. intros r Hr. apply Hsorted, Hincl, Hr. }
    destruct (printMarkdownTable_printable (snd st) [] Hout) as [lines [_ ->]].
    reflexivity. }
  assert (Hex : exists r, In r scannedRows /\ ~ printable r).
  { clear Hexit. induction scannedRows as [|r rows IH].
    - exfalso. apply Hnot. constructor.
    - destruct (ToString (version r)) as [text|e] eqn:E.
      + destruct IH as [r' [Hin Hr']].
        * intros Hall. apply Hnot. constructor; [now exists text | exact Hall].
        * exists r'. split; [now right | exact Hr'].
      + exists r. split; [now left |]. intros [text E']. congruence. }
  destruct Hex as [r [Hin Hr]].
  assert (Hfrom : exists full found,
             fileRows full = Success found /\ In r found)
    by (now apply scannedRows_from_files).
  destruct Hfrom as (full & found & E & Hfound).
  pose proof (fileRows_provenance _ _ E) as Hp.
  pose proof (fileRows_versions _ _ E) as Hv.
  rewrite Forall_forall in Hp, Hv.
  destruct (Hp r Hfound) as (_ & Hpath & _).
  destruct (Hv r Hfound) as [Hs | [v Ev]].
  - destruct (Hp r Hfound) as (_ & _ & [[_ Hname] | [[Hs' _] | [Hs' _]]]);
      try (rewrite Hs in Hs'; discriminate).
    destruct (ToString (version r)) as [text|e] eqn:Et.
    + exfalso. apply Hr. now exists text.
    + exists r, e. rewrite Hpath. auto.
  - exfalso. apply Hr. exists v. now rewrite Ev.
Qed.

End MainEdgeFacts.

Lemma main_reports_a_missing_root_witness :
  @stderr (@main emptyHost codeUnitCollation) = [ "Path not found: /work/src" ]
  /\ @exitCode (@main emptyHost codeUnitCollation) = None.
Proof.
  rewrite (@main_reports_a_missing_root emptyHost codeUnitCollation eq_refl).
  split; reflexivity.
Defined.

Lemma main_fails_on_npm_versions_only_witness :
  @exitCode (@main brokenHost codeUnitCollation) = Some 1
  /\ exists r e,
       In r (@scannedRows brokenHost)
       /\ lockfilePath r = "/work/src/package-lock.json"
       /\ ToString (version r) = Throw e.
Proof.
  split; [reflexivity |].
  assert (Hexit : @exitCode (@main brokenHost codeUnitCollation) <> None)
    by discriminate.
  destruct (@main_fails_on_npm_versions_only brokenHost codeUnitCollation Hexit)
    as (r & e & Hin & _ & _ & Et).
  exists r, e. split; [exact Hin |]. split; [| exact Et].
  destruct Hin as [<- | []]. reflexivity.
Defined.

(* ===================================================================== *)
(** ** The header of a Yarn block *)
(* ===================================================================== *)

Lemma join_commaTail x l : join ", " (x :: l) = (x ++ commaTail l)%string.
Proof.
  revert x. induction l as [|y l IH]; intros x.
  - simpl. now rewrite append_empty_r.
  - rewrite join_cons by discriminate. rewrite IH. reflexivity.
Qed.

Lemma quoteColonToColon_plain s t :
  Str.contains Str.quote s = false ->
  Str.quoteColonToColon (s ++ t) = (s ++ Str.quoteColonToColon t)%string.
Proof.
  induction s as [|c s IH]; intros Hs; [reflexivity |].
  simpl in Hs. apply orb_false_iff in Hs. destruct Hs as [Hc Hs].
  cbn [append Str.quoteColonToColon]. rewrite Hc. cbn [andb].
  now rewrite (IH Hs).
Qed.

Lemma quoteColonToColon_quote t :
  Str.isEmpty t = false -> String.eqb t (String Str.colon "") = false ->
  Str.quoteColonToColon (String Str.quote t)
  = String Str.quote (Str.quoteColonToColon t).
Proof.
  intros H1 H2. cbn [Str.quoteColonToColon]. now rewrite H1, H2, andb_false_r.
Qed.

Lemma dropFinal_app c s :
  Str.dropFinal c (s ++ String c "") = s.
Proof.
  induction s as [|d s IH]; simpl; [now rewrite Ascii.eqb_refl |].
  rewrite IH. destruct s; simpl; now rewrite andb_false_r.
Qed.

Lemma splitCommaGo_plain p rest cur :
  Str.contains Str.comma p = false ->
  Str.splitCommaGo (p ++ rest) false cur
  = Str.splitCommaGo rest false (cur ++ p).
Proof.
  revert cur. induction p as [|c p IH]; intros cur Hp.
  - now rewrite append_empty_r.
  - simpl in Hp. apply orb_false_iff in Hp. destruct Hp as [Hc Hp].
    cbn [append Str.splitCommaGo andb]. rewrite Hc.
    rewrite (IH _ Hp). now rewrite append_assoc.
Qed.

Lemma splitCommaGo_start s cur :
  stopsAt Str.isSpace s = true ->
  Str.splitCommaGo s true cur = Str.splitCommaGo s false cur.
Proof.
  destruct s as [|c s]; [reflexivity |]. simpl. intros H.
  apply negb_true_iff in H. now rewrite H.
Qed.

Lemma stopsAt_app p s t :
  stopsAt p s = true -> (Str.isEmpty s = true -> stopsAt p t = true) ->
  stopsAt p (s ++ t) = true.
Proof. destruct s; simpl; auto. Qed.

Lemma commaTail_stops pieces : stopsAt Str.isSpace (commaTail pieces) = true.
Proof. destruct pieces; reflexivity. Qed.

Lemma splitCommaGo_commaTail pieces :
  Forall (fun p => Str.contains Str.comma p = false
                   /\ stopsAt Str.isSpace p = true) pieces ->
  forall cur, Str.splitCommaGo (commaTail pieces) false cur = cur :: pieces.
Proof.
  induction 1 as [|p pieces [Hc Hs] _ IH]; intros cur; [reflexivity |].
  cbn [commaTail fold_right]. fold (commaTail pieces).
  change (", " ++ p ++ commaTail pieces)%string
    with (String Str.comma (String " " (p ++ commaTail pieces))).
  cbn [Str.splitCommaGo andb]. rewrite Ascii.eqb_refl.
  change (Str.isSpace " ") with true. cbn [andb].
  rewrite splitCommaGo_start
    by (apply stopsAt_app; [exact Hs | intros _; apply commaTail_stops]).
  rewrite (splitCommaGo_plain _ _ _ Hc). cbn [append]. now rewrite IH.
Qed.

Lemma stripQuotes_open s :
  Str.contains Str.quote s = false ->
  Str.stripQuotes (Str.dq ++ s) = s.
Proof.
  intros H. unfold Str.stripQuotes.
  change (Str.dq ++ s)%string with (String Str.quote s).
  cbn [Str.dropLeading]. rewrite Ascii.eqb_refl.
  rewrite <- (append_empty_r s) at 1.
  rewrite (dropLeading_plain _ _ H ""). rewrite append_empty_r.
  destruct s; [reflexivity | now apply dropTrailing_plain].
Qed.

Lemma stripQuotes_close s :
  Str.contains Str.quote s = false ->
  Str.stripQuotes (s ++ Str.dq) = s.
Proof.
  intros H. unfold Str.stripQuotes.
  rewrite (dropLeading_plain _ _ H Str.dq).
  destruct s as [|c s]; [reflexivity |]. cbn [Str.isEmpty].
  now apply dropTrailing_final.
Qed.

Lemma plainSelector_parts s :
  plainSelector s = true ->
  Str.contains Str.quote s = false /\ Str.contains Str.comma s = false
  /\ stopsAt Str.isSpace s = true.
Proof.
  unfold plainSelector. intros H.
  apply andb_true_iff in H. destruct H as [H H3].
  apply andb_true_iff in H. destruct H as [H1 H2].
  apply negb_true_iff in H1, H2. auto.
Qed.

(** The pieces the second replacement leaves of the selectors after the
    first: each is its selector with the double quotes it keeps. *)
Lemma quoteColonToColon_tail l :
  Forall (fun sel => plainSelector (snd sel) = true) l ->
  exists pieces,
    Forall2 (fun p sel =>
               Str.stripQuotes p = snd sel
               /\ Str.contains Str.comma p = false
               /\ stopsAt Str.isSpace p = true) pieces l
    /\ Str.quoteColonToColon (commaTail (map written l) ++ ":")
       = (commaTail pieces ++ ":")%string
    /\ Str.quoteColonToColon (Str.dq ++ commaTail (map written l) ++ ":")
       = match l with
         | [] => ":"
         | _ :: _ => (Str.dq ++ commaTail pieces ++ ":")%string
         end.
Proof.
  induction 1 as [|[q s] l Hs _ IH].
  - exists []. split; [constructor |]. split; reflexivity.
  - destruct IH as (pieces & Hp & E1 & E2). cbn [snd] in Hs.
    destruct (plainSelector_parts s Hs) as (Hq & Hc & Hw).
    assert (Hhead :
              exists p,
                (Str.stripQuotes p = s /\ Str.contains Str.comma p = false
                 /\ stopsAt Str.isSpace p = true)
                /\ Str.quoteColonToColon
                     (written (q, s) ++ commaTail (map written l) ++ ":")
                   = (p ++ commaTail pieces ++ ":")%string).
    { destruct q.
      - change (written (true, s)) with (String Str.quote (s ++ Str.dq)).
        cbn [append].
        rewrite quoteColonToColon_quote.
        + rewrite append_assoc, (quoteColonToColon_plain _ _ Hq), E2.
          destruct l as [|y l].
          * inversion Hp; subst. exists (Str.dq ++ s)%string. split.
            -- split; [now apply stripQuotes_open |]. split; [| reflexivity].
               change (Str.dq ++ s)%string with (String Str.quote s).
               cbn [Str.contains]. now rewrite Hc.
            -- cbn [commaTail fold_right]. now rewrite !append_assoc.
          * exists (Str.dq ++ s ++ Str.dq)%string. split.
            -- split; [now apply stripQuotes_wrapped |]. split; [| reflexivity].
               change (Str.dq ++ s ++ Str.dq)%string
                 with (String Str.quote (s ++ Str.dq)).
               cbn [Str.contains]. rewrite contains_app, Hc. reflexivity.
            -- change (Str.dq ++ s ++ Str.dq)%string
                 with (String Str.quote (s ++ Str.dq)).
               cbn [append]. now rewrite !append_assoc.
        + rewrite append_assoc. now destruct s.
        + rewrite append_assoc. apply String.eqb_neq.
          destruct s as [|c s']; cbn [append]; [discriminate |].
          intros [= _ E]. now destruct s'.
      - change (written (false, s)) with s.
        exists s. split; [split; [now apply stripQuotes_wrapped | auto] |].
        now rewrite (quoteColonToColon_plain _ _ Hq), E1. }
    destruct Hhead as (p & Hprop & Ehead).
    exists (p :: pieces). split; [now constructor |].
    cbn [map commaTail fold_right]. fold (commaTail (map written l)).
    fold (commaTail pieces). split.
    + change ((", " ++ written (q, s) ++ commaTail (map written l)) ++ ":")%string
        with (String Str.comma
                (String " " ((written (q, s) ++ commaTail (map written l)) ++ ":"))).
      cbn [Str.quoteColonToColon]. change (Ascii.eqb Str.comma Str.quote) with false.
      change (Ascii.eqb " " Str.quote) with false. cbn [andb].
      rewrite append_assoc, Ehead. cbn [append]. now rewrite !append_assoc.
    + change (Str.dq ++ (", " ++ written (q, s) ++ commaTail (map written l)) ++ ":")%string
        with (String Str.quote
                (String Str.comma
                   (String " " ((written (q, s) ++ commaTail (map written l)) ++ ":")))).
      rewrite quoteColonToColon_quote by reflexivity.
      cbn [Str.quoteColonToColon]. change (Ascii.eqb Str.comma Str.quote) with false.
      change (Ascii.eqb " " Str.quote) with false. cbn [andb].
      rewrite append_assoc, Ehead. cbn [append]. now rewrite !append_assoc.
Qed.

Lemma dropLeadingQuote_plain s t :
  Str.contains Str.quote s = false ->
  (Str.isEmpty s = true -> Str.startsWith Str.dq t = false) ->
  Str.dropLeadingQuote (s ++ t) = (s ++ t)%string.
Proof.
  destruct s as [|c s]; cbn [append Str.contains Str.isEmpty].
  - intros _ Ht. specialize (Ht eq_refl). destruct t as [|d t]; [reflexivity |].
    unfold Str.startsWith in Ht. simpl in Ht. unfold Str.dropLeadingQuote.
    destruct (Ascii.eqb d Str.quote) eqn:E; [| reflexivity].
    apply Ascii.eqb_eq in E. subst d.
    destruct (Ascii.ascii_dec Str.quote Str.quote) as [_|n];
      [destruct t; discriminate | now contradiction n].
  - intros H _. apply orb_false_iff in H. destruct H as [Hc _].
    cbn [Str.dropLeadingQuote]. now rewrite Hc.
Qed.

Lemma selectorToPkgName_stripQuotes a b :
  Str.stripQuotes a = Str.stripQuotes b ->
  selectorToPkgName a = selectorToPkgName b.
Proof. unfold selectorToPkgName. now intros ->. Qed.

Lemma pieces_names pieces (l : list (bool * string)) :
  Forall (fun sel => plainSelector (snd sel) = true) l ->
  Forall2 (fun p sel =>
             Str.stripQuotes p = snd sel
             /\ Str.contains Str.comma p = false
             /\ stopsAt Str.isSpace p = true) pieces l ->
  map Str.stripQuotes pieces = map snd l
  /\ map selectorToPkgName pieces = map (fun sel => selectorToPkgName (snd sel)) l
  /\ Forall (fun p => Str.contains Str.comma p = false
                      /\ stopsAt Str.isSpace p = true) pieces.
Proof.
  intros Hl Hp. induction Hp as [|p sel pieces l (E & Hc & Hw) _ IH].
  - repeat split; constructor.
  - inversion Hl as [|? ? Hsel Hl']; subst.
    destruct (IH Hl') as (E1 & E2 & E3).
    destruct (plainSelector_parts _ Hsel) as (Hq & _ & _).
    cbn [map]. rewrite E1, E2, E. split; [reflexivity |]. split.
    + f_equal. apply selectorToPkgName_stripQuotes.
      rewrite E. symmetry. now apply stripQuotes_wrapped.
    + constructor; auto.
Qed.

Lemma headerSelectors_pieces first others :
  Forall (fun sel => plainSelector (snd sel) = true) (first :: others) ->
  exists pieces,
    headerSelectors (headerLine (first :: others)) = pieces
    /\ Forall2 (fun p sel =>
                  Str.stripQuotes p = snd sel
                  /\ Str.contains Str.comma p = false
                  /\ stopsAt Str.isSpace p = true) pieces (first :: others).
Proof.
  intros Hall. inversion Hall as [|? ? Hfirst Hothers]; subst.
  destruct first as [q s]. cbn [snd] in Hfirst.
  destruct (plainSelector_parts s Hfirst) as (Hq & Hc & Hw).
  destruct (quoteColonToColon_tail others Hothers) as (pieces & Hp & E1 & E2).
  destruct (pieces_names _ _ Hothers Hp) as (_ & _ & Hok).
  unfold headerSelectors, headerLine. cbn [map]. rewrite join_commaTail.
  rewrite append_assoc. destruct q.
  - change (written (true, s)) with (String Str.quote (s ++ Str.dq)).
    cbn [append Str.dropLeadingQuote]. rewrite Ascii.eqb_refl.
    rewrite append_assoc, (quoteColonToColon_plain _ _ Hq), E2.
    destruct others as [|y others].
    + inversion Hp; subst.
      change ":" with (String Str.colon ""). rewrite dropFinal_app.
      exists [s]. split.
      * unfold Str.splitComma. rewrite <- (append_empty_r s) at 1.
        now rewrite (splitCommaGo_plain _ _ _ Hc).
      * constructor; [| constructor].
        split; [now apply stripQuotes_wrapped | auto].
    + change ":" with (String Str.colon "").
      rewrite <- !append_assoc, dropFinal_app.
      assert (Hc' : Str.contains Str.comma (s ++ Str.dq) = false)
        by (rewrite contains_app, Hc; reflexivity).
      exists ((s ++ Str.dq)%string :: pieces). split.
      * unfold Str.splitComma. rewrite (splitCommaGo_plain _ _ _ Hc').
        now rewrite (splitCommaGo_commaTail _ Hok).
      * constructor; [| exact Hp].
        split; [now apply stripQuotes_close |]. split; [exact Hc' |].
        destruct s; [reflexivity | exact Hw].
  - change (written (false, s)) with s.
    rewrite dropLeadingQuote_plain;
      [| exact Hq | intros _; now destruct others].
    rewrite (quoteColonToColon_plain _ _ Hq), E1.
    change ":" with (String Str.colon "").
    rewrite <- append_assoc, dropFinal_app.
    exists (s :: pieces). split.
    + unfold Str.splitComma. rewrite (splitCommaGo_plain _ _ _ Hc).
      now rewrite (splitCommaGo_commaTail _ Hok).
    + constructor; [| exact Hp].
      split; [now apply stripQuotes_wrapped | auto].
Qed.

(** X18. A header that lists several selectors is read selector by
    selector.  For selectors without double quote or comma that do not
    start with white space, each written in double quotes or bare, the
    line of the selectors separated by a comma and a space and ended by a
    colon is split into as many pieces; each piece is its selector up to
    double quotes at its ends, so the names read from the header are the
    names of the selectors, in order. *)
Theorem headerSelectors_reads_every_selector :
  forall (first : bool * string) (others : list (bool * string)),
    Forall (fun sel => plainSelector (snd sel) = true) (first :: others) ->
    map Str.stripQuotes (headerSelectors (headerLine (first :: others)))
    = map snd (first :: others)
    /\ map selectorToPkgName (headerSelectors (headerLine (first :: others)))
       = map (fun sel => selectorToPkgName (snd sel)) (first :: others).
Proof.
  intros first others Hall.
  destruct (headerSelectors_pieces first others Hall) as (pieces & -> & Hp).
  destruct (pieces_names _ _ Hall Hp) as (E1 & E2 & _). now split.
Qed.

Lemma headerSelectors_reads_every_selector_witness :
  map selectorToPkgName (headerSelectors headerThree)
  = [ Some "@pkgr/core"; Some "is"; Some "synckit" ].
Proof.
  destruct (headerSelectors_reads_every_selector
              (true, "@pkgr/core@^0.1.0")
              [ (false, "is@^3.0.0"); (true, "synckit@>=0.8 <1") ]) as [_ E].
  - repeat constructor.
  - unfold headerThree. rewrite E. reflexivity.
Defined.

(* ===================================================================== *)
(** ** The blocks of a Yarn lockfile *)
(* ===================================================================== *)

Lemma prefix_blank_false c s :
  negb (isLineFeed c) || startsBlock s = true ->
  String.prefix (Str.nl ++ Str.nl) (String c s) = false.
Proof.
  intros H. destruct (String.prefix (Str.nl ++ Str.nl) (String c s)) eqn:E;
    [| reflexivity].
  apply prefix_app in E. destruct E as [r Er]. cbn [append Str.nl] in Er.
  injection Er as -> ->. discriminate H.
Qed.

Lemma startsBlock_app b rest :
  startsBlock b = true -> startsBlock (b ++ rest) = true.
Proof. now destruct b. Qed.

Lemma splitBlankGo_block b rest cur :
  compactBlock b = true ->
  Str.splitBlankGo (b ++ rest) false cur
  = Str.splitBlankGo rest false (cur ++ b).
Proof.
  revert cur. induction b as [|c b IH]; intros cur Hb.
  - now rewrite append_empty_r.
  - cbn [compactBlock] in Hb. apply andb_true_iff in Hb. destruct Hb as [Hc Hb].
    cbn [append Str.splitBlankGo andb].
    rewrite prefix_blank_false.
    + rewrite (IH _ Hb). now rewrite append_assoc.
    + apply orb_true_iff in Hc. apply orb_true_iff.
      destruct Hc as [Hc | Hc]; [now left | right; now apply startsBlock_app].
Qed.

Lemma splitBlankGo_run gap rest cur :
  allChars isLineFeed gap = true ->
  Str.splitBlankGo (gap ++ rest) true cur = Str.splitBlankGo rest true cur.
Proof.
  induction gap as [|c gap IH]; intros Hg; [reflexivity |].
  cbn [allChars] in Hg. apply andb_true_iff in Hg. destruct Hg as [Hc Hg].
  cbn [append Str.splitBlankGo]. unfold isLineFeed in Hc. rewrite Hc.
  cbn [andb]. now apply IH.
Qed.

Lemma splitBlankGo_start s cur :
  startsBlock s = true ->
  Str.splitBlankGo s true cur = Str.splitBlankGo s false cur.
Proof.
  destruct s as [|c s]; [discriminate |]. cbn [startsBlock]. intros Hc.
  apply negb_true_iff in Hc. unfold isLineFeed in Hc.
  cbn [Str.splitBlankGo andb]. now rewrite Hc.
Qed.

Lemma splitBlankGo_gap gap rest cur :
  allChars isLineFeed gap = true -> 2 <= String.length gap ->
  startsBlock rest = true ->
  Str.splitBlankGo (gap ++ rest) false cur
  = cur :: Str.splitBlankGo rest false "".
Proof.
  intros Hg Hlen Hr.
  destruct gap as [|c1 [|c2 gap]]; try (simpl in Hlen; lia).
  cbn [allChars] in Hg.
  apply andb_true_iff in Hg. destruct Hg as [H1 Hg].
  apply andb_true_iff in Hg. destruct Hg as [H2 Hg].
  unfold isLineFeed in H1, H2. apply Ascii.eqb_eq in H1, H2. subst c1 c2.
  cbn [append Str.splitBlankGo andb].
  replace (String.prefix (Str.nl ++ Str.nl)
             (String Str.newline (String Str.newline (gap ++ rest))))
    with true by (destruct (gap ++ rest)%string; reflexivity).
  rewrite Ascii.eqb_refl.
  now rewrite (splitBlankGo_run _ _ _ Hg), (splitBlankGo_start _ _ Hr).
Qed.

Lemma trimEnd_feed s : Str.trimEnd (s ++ Str.nl) = Str.trimEnd s.
Proof.
  induction s as [|c s IH]; [reflexivity |].
  cbn [append Str.trimEnd]. now rewrite IH.
Qed.

Lemma trim_feed s : Str.trim (s ++ Str.nl) = Str.trim s.
Proof.
  unfold Str.trim. induction s as [|c s IH]; [reflexivity |].
  cbn [append Str.trimStart]. destruct (Str.isSpace c); [exact IH |].
  exact (trimEnd_feed (String c s)).
Qed.

Lemma blockStep_trim p a b results :
  Str.trim a = Str.trim b -> blockStep p a results = blockStep p b results.
Proof. unfold blockStep. now intros ->. Qed.

Lemma blocksText_cons first gap b others ending :
  blocksText first ((gap, b) :: others) ending
  = (first ++ gap ++ blocksText b others ending)%string.
Proof. reflexivity. Qed.

Lemma splitBlankGo_blocks ending :
  ending = "" \/ ending = Str.nl ->
  forall others first cur,
    startsBlock first && compactBlock first = true ->
    Forall (fun gb => blankRun (fst gb)
                      && (startsBlock (snd gb) && compactBlock (snd gb)) = true)
           others ->
    exists blocks,
      Str.splitBlankGo (blocksText first others ending) false cur = blocks
      /\ Forall2 (fun b' b => Str.trim b' = Str.trim b)
                 blocks ((cur ++ first)%string :: map snd others).
Proof.
  intros Hend. induction others as [|[gap b] others IH]; intros first cur Hfirst Hall.
  - apply andb_true_iff in Hfirst. destruct Hfirst as [_ Hf].
    unfold blocksText. cbn [fold_right map].
    rewrite (splitBlankGo_block _ _ _ Hf).
    destruct Hend as [-> | ->].
    + exists [(cur ++ first)%string]. split; [reflexivity |]. now repeat constructor.
    + exists [((cur ++ first) ++ Str.nl)%string]. split; [reflexivity |].
      constructor; [apply trim_feed | constructor].
  - apply andb_true_iff in Hfirst. destruct Hfirst as [_ Hf].
    inversion Hall as [|? ? Hpair Hrest]; subst. cbn [fst snd] in Hpair.
    apply andb_true_iff in Hpair. destruct Hpair as [Hgap Hb].
    apply andb_true_iff in Hgap. destruct Hgap as [Hg Hlen].
    apply Nat.leb_le in Hlen.
    rewrite blocksText_cons, (splitBlankGo_block _ _ _ Hf).
    assert (Hs : startsBlock (blocksText b others ending) = true).
    { apply andb_true_iff in Hb. destruct Hb as [Hb _].
      unfold blocksText. now apply startsBlock_app. }
    rewrite (splitBlankGo_gap _ _ _ Hg Hlen Hs).
    destruct (IH b "" Hb Hrest) as (blocks & E & H2).
    exists ((cur ++ first)%string :: blocks). split; [now rewrite E |].
    cbn [map snd]. constructor; [reflexivity | exact H2].
Qed.

(** X19. A Yarn lockfile is read block by block.  When the text is a
    first block followed by other blocks, each after its own run of two
    or more line feeds (the runs need not have the same length), each
    block starting with a character that is no line feed and holding no
    two line feeds in a row nor one at its end, with or without a line
    feed at the end of the text, the records of the text are the records
    of its blocks, one block after the other. *)
Theorem extractFromYarnLockV1_reads_block_by_block :
  forall (first : string) (others : list (string * string))
         (ending p : string),
    ending = "" \/ ending = Str.nl ->
    startsBlock first && compactBlock first = true ->
    Forall (fun gb => blankRun (fst gb)
                      && (startsBlock (snd gb) && compactBlock (snd gb)) = true)
           others ->
    extractFromYarnLockV1 (blocksText first others ending) p
    = flat_map (fun b => blockStep p b []) (first :: map snd others).
Proof.
  intros first others ending p Hend Hfirst Hall.
  rewrite extractFromYarnLockV1_blocks. unfold Str.splitBlankLines.
  destruct (splitBlankGo_blocks ending Hend others first "" Hfirst Hall)
    as (blocks & -> & H2).
  cbn [append] in H2. generalize dependent (first :: map snd others).
  intros l H2.
  induction H2 as [|b' b blocks l E _ IH]; [reflexivity |].
  cbn [flat_map]. now rewrite IH, (blockStep_trim p b' b [] E).
Qed.

Lemma splitGo_hd sep s :
  forall skip cur, exists x, hd "" (Str.splitGo sep s skip cur) = (cur ++ x)%string.
Proof.
  induction s as [|c s IH]; intros skip cur.
  - exists "". simpl. now rewrite append_empty_r.
  - cbn [Str.splitGo]. destruct skip as [|k]; [| apply IH].
    destruct (String.prefix sep (String c s)).
    + exists "". simpl. now rewrite append_empty_r.
    + destruct (IH 0 (cur ++ String c "")%string) as [x E].
      exists (String c x). rewrite E. now rewrite append_assoc.
Qed.

Lemma trimStart_spaces s : allChars Str.isSpace s = true -> Str.trimStart s = "".
Proof.
  induction s as [|c s IH]; [reflexivity |]. cbn [allChars Str.trimStart].
  intros H. apply andb_true_iff in H. destruct H as [Hc Hs].
  rewrite Hc. now apply IH.
Qed.

Lemma trim_comment blockRaw :
  Str.startsWith "#" (Str.trimStart blockRaw) = true ->
  exists t, Str.trim blockRaw = String "#" t.
Proof.
  intros H. unfold Str.trim.
  unfold Str.startsWith in H. apply prefix_app in H. destruct H as [r ->].
  exists (Str.trimEnd r). reflexivity.
Qed.

Lemma header_comment t :
  exists x, hd "" (map Str.trim (Str.split Str.nl (String "#" t))) = String "#" x.
Proof.
  unfold Str.split. cbn [Str.splitGo].
  replace (String.prefix Str.nl (String "#" t)) with false
    by (destruct t; reflexivity).
  destruct (splitGo_hd Str.nl t 0 ("" ++ "#")) as [x Ex].
  destruct (Str.splitGo Str.nl t 0 ("" ++ "#")) as [|piece pieces].
  - destruct x; discriminate Ex.
  - cbn [hd map] in *. subst piece. exists (Str.trimEnd x). reflexivity.
Qed.

(** X20. A block of white space only and a block whose first character
    after the white space is [#] give no record: the results are left as
    they were, whatever the other lines of the block. *)
Theorem blockStep_skips_blank_and_comment_blocks :
  forall (p blockRaw : string) (results : list row),
    (allChars Str.isSpace blockRaw = true ->
     blockStep p blockRaw results = results)
    /\ (Str.startsWith "#" (Str.trimStart blockRaw) = true ->
        blockStep p blockRaw results = results).
Proof.
  intros p blockRaw results. split.
  - intros H. unfold blockStep, Str.trim. now rewrite (trimStart_spaces _ H).
  - intros H. destruct (trim_comment _ H) as [t Et].
    unfold blockStep. rewrite Et. cbn [Str.isEmpty].
    destruct (header_comment t) as [x ->].
    replace (Str.startsWith "#" (String "#" x)) with true
      by (unfold Str.startsWith; destruct x; reflexivity).
    cbn [Str.isEmpty orb]. reflexivity.
Qed.

Lemma extractFromYarnLockV1_reads_block_by_block_witness :
  extractFromYarnLockV1 (blocksText lockHead lockEntries Str.nl) "yarn.lock"
  = [ yarnRow "yarn.lock" "3.3.0" "is"; yarnRow "yarn.lock" "3.3.0" "is" ].
Proof.
  rewrite (extractFromYarnLockV1_reads_block_by_block
             lockHead lockEntries Str.nl "yarn.lock").
  - reflexivity.
  - now right.
  - reflexivity.
  - repeat constructor.
Defined.

(* ===================================================================== *)
(** ** An entry of a Yarn lockfile *)
(* ===================================================================== *)

Lemma trimStart_keep s : stopsAt Str.isSpace s = true -> Str.trimStart s = s.
Proof.
  destruct s as [|c s]; [reflexivity |]. cbn [stopsAt Str.trimStart].
  intros H. apply negb_true_iff in H. now rewrite H.
Qed.

Lemma trimStart_indent indent s :
  allChars Str.isSpace indent = true ->
  Str.trimStart (indent ++ s) = Str.trimStart s.
Proof.
  induction indent as [|c indent IH]; [reflexivity |].
  cbn [allChars append Str.trimStart]. intros H.
  apply andb_true_iff in H. destruct H as [Hc Hi]. rewrite Hc. now apply IH.
Qed.

Lemma trimEnd_keep a b :
  Str.trimEnd b = b -> Str.isEmpty b = false ->
  Str.trimEnd (a ++ b) = (a ++ b)%string.
Proof.
  intros Hb Hn. induction a as [|c a IH]; [exact Hb |].
  cbn [append Str.trimEnd]. rewrite IH.
  replace (Str.isEmpty (a ++ b)) with false
    by (destruct a; cbn [append Str.isEmpty]; [now rewrite Hn | reflexivity]).
  now rewrite andb_false_r.
Qed.

Lemma prefix_feed_false c s :
  Ascii.eqb c Str.newline = false -> String.prefix Str.nl (String c s) = false.
Proof.
  intros H. destruct (String.prefix Str.nl (String c s)) eqn:E; [| reflexivity].
  apply prefix_app in E. destruct E as [r Er]. cbn [append Str.nl] in Er.
  injection Er as -> _. now rewrite Ascii.eqb_refl in H.
Qed.

Lemma splitGo_line a rest cur :
  Str.contains Str.newline a = false ->
  Str.splitGo Str.nl (a ++ rest) 0 cur = Str.splitGo Str.nl rest 0 (cur ++ a).
Proof.
  revert cur. induction a as [|c a IH]; intros cur Ha.
  - now rewrite append_empty_r.
  - cbn [Str.contains] in Ha. apply orb_false_iff in Ha. destruct Ha as [Hc Ha].
    cbn [append Str.splitGo]. rewrite (prefix_feed_false _ _ Hc).
    rewrite (IH _ Ha). now rewrite append_assoc.
Qed.

Lemma splitGo_feed rest cur :
  Str.splitGo Str.nl (Str.nl ++ rest) 0 cur = cur :: Str.splitGo Str.nl rest 0 "".
Proof.
  assert (E : String.prefix Str.nl (String Str.newline rest) = true)
    by (apply prefix_app; now exists rest).
  change (Str.nl ++ rest)%string with (String Str.newline rest).
  cbn [Str.splitGo]. rewrite E. reflexivity.
Qed.

Lemma contains_written c sel :
  Ascii.eqb Str.quote c = false ->
  Str.contains c (written sel) = Str.contains c (snd sel).
Proof.
  intros Hc. destruct sel as [[] s]; [| reflexivity].
  change (written (true, s)) with (String Str.quote (s ++ Str.dq)).
  cbn [Str.contains snd]. rewrite contains_app. cbn [Str.contains Str.dq].
  rewrite Hc. now rewrite !orb_false_r.
Qed.

Lemma headerLine_shape first others :
  Forall (fun sel => plainSelector (snd sel) && noFeed (snd sel) = true)
         (first :: others) ->
  Str.contains Str.newline (headerLine (first :: others)) = false
  /\ stopsAt Str.isSpace (headerLine (first :: others)) = true
  /\ Str.isEmpty (headerLine (first :: others)) = false
  /\ Str.trimEnd (headerLine (first :: others)) = headerLine (first :: others).
Proof.
  intros Hall. unfold headerLine. split; [| split; [| split]].
  - rewrite contains_app. apply orb_false_iff. split; [| reflexivity].
    induction Hall as [|sel l Hsel _ IH]; [reflexivity |].
    apply andb_true_iff in Hsel. destruct Hsel as [_ Hf].
    apply negb_true_iff in Hf. cbn [map]. rewrite join_commaTail, contains_app.
    rewrite (contains_written Str.newline sel eq_refl), Hf. cbn [orb].
    destruct l as [|y l]; [reflexivity |].
    cbn [map] in IH. rewrite join_commaTail in IH.
    cbn [commaTail fold_right map]. fold (commaTail (map written l)).
    exact IH.
  - inversion Hall as [|? ? Hsel _]; subst.
    apply andb_true_iff in Hsel. destruct Hsel as [Hp _].
    destruct (plainSelector_parts _ Hp) as (_ & _ & Hw).
    cbn [map]. rewrite join_commaTail, append_assoc.
    apply stopsAt_app.
    + destruct first as [[] s]; [reflexivity | exact Hw].
    + intros _. now destruct others.
  - destruct (join ", " (map written (first :: others))); reflexivity.
  - now apply trimEnd_keep.
Qed.

Lemma selectorStep_name p v a b results :
  Str.stripQuotes a = Str.stripQuotes b ->
  selectorStep p v a results = selectorStep p v b results.
Proof.
  intros E. unfold selectorStep.
  now rewrite (selectorToPkgName_stripQuotes a b E).
Qed.

Lemma selectorStep_entry p v s :
  selectorStep p v s []
  = match selectorToPkgName s with
    | Some name => if TARGETS_has name then [yarnRow p v name] else []
    | None => []
    end.
Proof.
  unfold selectorStep. destruct (selectorToPkgName s) as [name|] eqn:E;
    [| reflexivity].
  destruct (selectorToPkgName_Some _ _ E) as [-> _]. reflexivity.
Qed.

Lemma headerSelectors_rows p v first others :
  Forall (fun sel => plainSelector (snd sel) = true) (first :: others) ->
  flat_map (fun sel => selectorStep p v sel [])
           (headerSelectors (headerLine (first :: others)))
  = entryRows p v (first :: others).
Proof.
  intros Hall.
  destruct (headerSelectors_pieces first others Hall) as (pieces & -> & Hp).
  unfold entryRows. revert Hall.
  induction Hp as [|piece sel pieces l (E & _) _ IH]; intros Hall; [reflexivity |].
  inversion Hall as [|? ? Hsel Hl]; subst.
  destruct (plainSelector_parts _ Hsel) as (Hq & _ & _).
  cbn [flat_map]. rewrite (IH Hl). f_equal.
  rewrite (selectorStep_name p v piece (snd sel) []).
  - apply selectorStep_entry.
  - rewrite E. symmetry. now apply stripQuotes_wrapped.
Qed.

(** X21. An entry as yarn writes it gives the records of its selectors.
    The header lists selectors without line feed, double quote or comma,
    in double quotes or bare; the next line is indented and holds the
    word [version], white space that starts with a space, and the version
    in double quotes; other lines may follow.  Then the block gives one
    record, with that version, for each selector whose name is a target,
    in the order of the header, and nothing else. *)
Theorem blockStep_reads_a_yarn_entry :
  forall (p : string) (first : bool * string) (others : list (bool * string))
         (indent ws v tail : string),
    Forall (fun sel => plainSelector (snd sel) && noFeed (snd sel) = true)
           (first :: others) ->
    Str.startsWith "#" (headerLine (first :: others)) = false ->
    Str.startsWith "version " (headerLine (first :: others)) = false ->
    allChars Str.isSpace indent && noFeed indent = true ->
    Str.startsWith " " ws && allChars Str.isSpace ws && noFeed ws = true ->
    negb (Str.isEmpty v) && allChars notQuote v && noFeed v = true ->
    tail = ""
    \/ (exists t, tail = (Str.nl ++ t)%string
                  /\ Str.trimEnd t = t /\ Str.isEmpty t = false) ->
    blockStep p (yarnEntry (first :: others) indent ws v tail) []
    = entryRows p v (first :: others).
Proof.
  intros p first others indent ws v tail Hall Hhash Hword Hindent Hws Hv Htail.
  destruct (headerLine_shape first others Hall) as (Hfeed & Hstart & Hne & Hend).
  assert (Hplain : Forall (fun sel => plainSelector (snd sel) = true) (first :: others)).
  { eapply Forall_impl; [| exact Hall]. intros sel H.
    now apply andb_true_iff in H. }
  set (header := headerLine (first :: others)) in *.
  apply andb_true_iff in Hindent. destruct Hindent as [Hi1 Hi2].
  apply andb_true_iff in Hws. destruct Hws as [Hws Hw3].
  apply andb_true_iff in Hws. destruct Hws as [Hw1 Hw2].
  apply andb_true_iff in Hv. destruct Hv as [Hv Hv3].
  apply andb_true_iff in Hv. destruct Hv as [Hv1 Hv2].
  apply negb_true_iff in Hi2, Hw3, Hv3, Hv1.
  set (core := versionLineOf ws v "").
  assert (Hcore_feed : Str.contains Str.newline (indent ++ core) = false).
  { unfold core, versionLineOf. rewrite !contains_app, Hi2, Hw3, Hv3. reflexivity. }
  assert (Hcore_trim : Str.trim (indent ++ core) = core).
  { unfold Str.trim. rewrite (trimStart_indent _ _ Hi1).
    unfold core, versionLineOf. cbn [append Str.trimStart].
    change (Str.isSpace "v") with false. cbv iota.
    change (String "v" (String "e" (String "r" (String "s" (String "i"
              (String "o" (String "n" (ws ++ Str.dq ++ v ++ Str.dq ++ ""))))))))
      with ("version" ++ ws ++ Str.dq ++ v ++ Str.dq ++ "")%string.
    rewrite append_empty_r.
    rewrite <- !append_assoc. now apply trimEnd_keep. }
  assert (Hcore_word : Str.startsWith "version " core = true).
  { unfold Str.startsWith in *. apply prefix_app in Hw1. destruct Hw1 as [ws' ->].
    apply prefix_app. exists (ws' ++ Str.dq ++ v ++ Str.dq ++ "")%string.
    reflexivity. }
  assert (Hcore_match : matchVersion core = Some v).
  { apply matchVersion_Some. exists ws, "". split; [reflexivity |].
    repeat split; auto.
    unfold Str.startsWith in Hw1. apply prefix_app in Hw1.
    destruct Hw1 as [ws' ->]. reflexivity. }
  assert (Htrim : Str.trim (yarnEntry (first :: others) indent ws v tail)
                  = yarnEntry (first :: others) indent ws v tail).
  { unfold Str.trim, yarnEntry. fold header.
    rewrite trimStart_keep
      by (apply stopsAt_app; [exact Hstart | intros E; now rewrite Hne in E]).
    unfold versionLineOf.
    replace (header ++ Str.nl ++ indent ++ "version" ++ ws ++ Str.dq ++ v ++ Str.dq ++ tail)%string
      with ((header ++ Str.nl ++ indent ++ "version" ++ ws ++ Str.dq ++ v)
              ++ (Str.dq ++ tail))%string
      by (now rewrite !append_assoc).
    apply trimEnd_keep; [| reflexivity].
    cbn [append Str.dq Str.trimEnd]. change (Str.isSpace Str.quote) with false.
    cbn [andb]. f_equal.
    destruct Htail as [-> | (t & -> & Ht & Hnt)]; [reflexivity |].
    now apply (trimEnd_keep Str.nl t). }
  assert (Hlines : exists more,
             blockLines (yarnEntry (first :: others) indent ws v tail)
             = header :: core :: more).
  { unfold blockLines. rewrite Htrim. unfold yarnEntry, Str.split. fold header.
    rewrite (splitGo_line _ _ _ Hfeed), splitGo_feed. cbn [append map].
    assert (Eh : Str.trim header = header).
    { unfold Str.trim. now rewrite (trimStart_keep _ Hstart). }
    rewrite Eh.
    destruct Htail as [-> | (t & -> & _)].
    - pose proof (splitGo_line (indent ++ core) "" "" Hcore_feed) as E.
      rewrite append_empty_r in E. cbn [Str.splitGo append] in E.
      fold core. rewrite E. cbn [map]. rewrite Hcore_trim. now exists [].
    - replace (indent ++ versionLineOf ws v (Str.nl ++ t))%string
        with ((indent ++ core) ++ Str.nl ++ t)%string
        by (unfold core, versionLineOf; now rewrite !append_assoc).
      rewrite (splitGo_line _ _ _ Hcore_feed), splitGo_feed. cbn [append map].
      rewrite Hcore_trim. eexists; reflexivity. }
  destruct Hlines as [more Elines].
  unfold blockStep. fold (blockLines (yarnEntry (first :: others) indent ws v tail)).
  rewrite Htrim, Elines. cbn [hd].
  replace (Str.isEmpty (yarnEntry (first :: others) indent ws v tail)) with false
    by (unfold yarnEntry; fold header; destruct header; [discriminate | reflexivity]).
  rewrite Hne, Hhash. cbn [orb].
  assert (Ev : blockVersion (header :: core :: more) = v).
  { unfold blockVersion. cbn [find]. rewrite Hword, Hcore_word.
    now rewrite Hcore_match. }
  rewrite Ev.
  rewrite (fold_left_flat_map _ _ (fun acc sel => selectorStep_acc p v sel acc)).
  cbn [app]. now apply headerSelectors_rows.
Qed.

Lemma blockStep_reads_a_yarn_entry_witness :
  blockStep "yarn.lock"
    (yarnEntry [ (false, "is@^3.0.0"); (true, "is@>=3.3 <4"); (false, "left-pad@1") ]
               "  " " " "3.3.0" resolvedLines) []
  = [ yarnRow "yarn.lock" "3.3.0" "is"; yarnRow "yarn.lock" "3.3.0" "is" ].
Proof.
  rewrite (blockStep_reads_a_yarn_entry "yarn.lock"
             (false, "is@^3.0.0") [ (true, "is@>=3.3 <4"); (false, "left-pad@1") ]
             "  " " " "3.3.0" resolvedLines).
  - reflexivity.
  - repeat constructor.
  - reflexivity.
  - reflexivity.
  - reflexivity.
  - reflexivity.
  - reflexivity.
  - right. eexists. split; [reflexivity |]. split; reflexivity.
Defined.
